(** * Price-time priority matching engine (helper/matcher.ts)

    A shallow embedding of the order-book matcher: the exact decimals it
    computes with, the two priority queues of a book, [OrderBook.process],
    [OrderBook.match] and the [MatcherEngine] that routes commands to books,
    followed by the properties of the engine. *)

From Stdlib Require Import ZArith QArith Qminmax Lia Lqa List String Ascii.
From stdpp Require Import gmap strings list sorting.

Local Open Scope Z_scope.

(** ** Exact decimals *)

(** Modelled from the spec: the decimal type ([Big], from the big.js package,
    which is not part of the sources).  Section 4.1 of the specification asks
    for an exact decimal carried as a mantissa with a scale, trailing zeros
    kept internally and removed on output; [add], [sub], the comparisons and a
    canonical [to_string]. *)
Module Big.

(** The value of [mk m s] is [m / 10^s]. *)
Record t : Type := mk { mant : Z; scale : nat }.

Fixpoint pow10 (n : nat) : positive :=
  match n with
  | O => 1%positive
  | S k => (10 * pow10 k)%positive
  end.

Definition toQ (x : t) : Q := Qmake (mant x) (pow10 (scale x)).

Definition zero : t := mk 0 0.

Definition plus (x y : t) : t :=
  mk (mant x * Z.pos (pow10 (scale y)) + mant y * Z.pos (pow10 (scale x)))
     (scale x + scale y).

Definition minus (x y : t) : t :=
  mk (mant x * Z.pos (pow10 (scale y)) - mant y * Z.pos (pow10 (scale x)))
     (scale x + scale y).

(** [cmp] answers 1, -1 or 0, as the comparators of the book expect. *)
Definition cmp (x y : t) : Z :=
  match mant x * Z.pos (pow10 (scale y)) ?= mant y * Z.pos (pow10 (scale x)) with
  | Lt => -1
  | Eq => 0
  | Gt => 1
  end.

Definition eq (x y : t) : bool := cmp x y =? 0.
Definition gt (x y : t) : bool := 0 <? cmp x y.
Definition gte (x y : t) : bool := 0 <=? cmp x y.
Definition lt (x y : t) : bool := cmp x y <? 0.
Definition lte (x y : t) : bool := cmp x y <=? 0.
Definition min (x y : t) : t := if lt x y then x else y.

(** *** Text form *)

Definition is_digit (c : ascii) : bool :=
  (48 <=? nat_of_ascii c)%nat && (nat_of_ascii c <=? 57)%nat.

Definition digit_val (c : ascii) : Z := Z.of_nat (nat_of_ascii c) - 48.

Definition digit_char (d : Z) : ascii := ascii_of_nat (Z.to_nat d + 48).

(** Value of a run of digits, most significant first. *)
Definition digits_val (l : list ascii) : Z :=
  fold_left (fun acc c => 10 * acc + digit_val c) l 0.

(** Longest prefix of digits, and what follows it. *)
Fixpoint span_digits (l : list ascii) : list ascii * list ascii :=
  match l with
  | c :: l' =>
      if is_digit c
      then let '(ds, rest) := span_digits l' in (c :: ds, rest)
      else ([], l)
  | [] => ([], [])
  end.

(** Sign, integer digits and fraction digits of a well-formed decimal:
    an optional sign, an integer part, an optional [.] and fraction. *)
Definition split (l : list ascii) : option (bool * list ascii * list ascii) :=
  let '(neg, body) :=
    match l with
    | c :: r =>
        if Ascii.eqb c "-" then (true, r)
        else if Ascii.eqb c "+" then (false, r)
        else (false, l)
    | [] => (false, [])
    end in
  let '(ip, rest) := span_digits body in
  match ip, rest with
  | [], _ => None
  | _, [] => Some (neg, ip, [])
  | _, c :: fp =>
      if Ascii.eqb c "." && forallb is_digit fp then Some (neg, ip, fp) else None
  end.

(** [parse]: [None] stands for the [InvalidDecimal] error. *)
Definition of_string (s : string) : option t :=
  match split (list_ascii_of_string s) with
  | Some (neg, ip, fp) =>
      let m := digits_val (ip ++ fp) in
      Some (mk (if neg then - m else m) (length fp))
  | None => None
  end.

(** Digits of a natural number, most significant first; [fuel] bounds the
    number of digits. *)
Fixpoint digits_of (fuel : nat) (n : Z) (acc : list ascii) : list ascii :=
  match fuel with
  | O => acc
  | S f =>
      if n <? 10 then digit_char n :: acc
      else digits_of f (n / 10) (digit_char (n mod 10) :: acc)
  end.

Definition to_digits (n : Z) : list ascii :=
  digits_of (S (Z.to_nat (Z.log2 n))) n [].

(** Drops the trailing zeros of the fraction: the scale goes down while the
    mantissa is a multiple of ten. *)
Fixpoint strip (s : nat) (m : Z) : t :=
  match s with
  | O => mk m 0
  | S s' => if m mod 10 =? 0 then strip s' (m / 10) else mk m s
  end.

Definition normalise (x : t) : t := strip (scale x) (mant x).

(** The digits that [render] lays out: those of the mantissa, with zeros
    in front so that one digit at least comes before the point. *)
Definition padded (x : t) : list ascii :=
  repeat "0"%char (S (scale x) - length (to_digits (Z.abs (mant x))))
  ++ to_digits (Z.abs (mant x)).

(** Prints [m / 10^s] with exactly [s] fraction digits. *)
Definition render (x : t) : list ascii :=
  let ds := padded x in
  let k := (length ds - scale x)%nat in
  let body :=
    match scale x with
    | O => ds
    | S _ => take k ds ++ "."%char :: drop k ds
    end in
  if mant x <? 0 then "-"%char :: body else body.

(** No trailing zero is left to drop. *)
Definition reduced (x : t) : Prop := scale x = O \/ mant x mod 10 <> 0.

(** Canonical text: no superfluous trailing zero, no trailing point. *)
Definition toString (x : t) : string :=
  string_of_list_ascii (render (normalise x)).

End Big.

(** ** Commands, orders and trades (types/trade.ts) *)

(** The fields keep their names; where two interfaces share a name ([pair],
    [side], [id], [price], [remaining], [amount]) a letter tells the record:
    [r_] for RawOrder, [o_] for BookOrder, [t_] for Trade, [l_] and [s_] for
    the lines and the snapshot of [normalize]. *)

Inductive Side : Type := BUY | SELL.

Inductive OpType : Type := CREATE | DELETE.

#[global] Instance Side_eq_dec : EqDecision Side.
Proof. solve_decision. Defined.

#[global] Instance OpType_eq_dec : EqDecision OpType.
Proof. solve_decision. Defined.

Record RawOrder : Type := mkRawOrder {
  type_op : OpType;
  account_id : string;
  amount : string;
  order_id : string;
  r_pair : string;
  limit_price : string;
  r_side : Side;
}.

(** [o_ts] is the arrival sequence number.  A book hands out each number once,
    to the one order object it allocates for a CREATE, so [o_ts] also names
    the object: two orders of a book are the same object exactly when their
    [o_ts] agree. *)
Record BookOrder : Type := mkBookOrder {
  o_id : string;
  o_account : string;
  o_side : Side;
  o_pair : string;
  o_price : Big.t;
  o_remaining : Big.t;
  o_ts : nat;
}.

(** The wall-clock field [ts] of a trade ([Date.now()]) is left out. *)
Record Trade : Type := mkTrade {
  t_pair : string;
  buyOrderId : string;
  sellOrderId : string;
  t_price : string;
  t_amount : string;
}.

(** One line of a snapshot. *)
Record Level : Type := mkLevel {
  l_id : string;
  l_account : string;
  l_price : string;
  l_remaining : string;
}.

Record Order : Type := mkOrder {
  s_pair : string;
  s_bids : list Level;
  s_asks : list Level;
}.

Definition set_remaining (o : BookOrder) (r : Big.t) : BookOrder :=
  mkBookOrder (o_id o) (o_account o) (o_side o) (o_pair o) (o_price o) r (o_ts o).

(** Object identity ([===]) of two orders of one book. *)
Definition same_order (a b : BookOrder) : bool := (o_ts a =? o_ts b)%nat.

(** ** Priority queue *)

(** Modelled from the spec: the priority queue ([Heap], from the heap-js
    package, which is not part of the sources).  Section 4.2 asks for a
    container with [push], [peek], [remove] by identity, [size] and an
    iteration, whose [peek] is the element that the comparator puts first.
    The queue is kept as the list of its elements in comparator order; the
    array layout of a binary heap is not modelled.  [remove] takes out the
    order object it is given, found by identity; the specification names it
    by its id, which is the same order as long as ids are unique in a
    book. *)
Module Heap.

Definition t : Type := list BookOrder.

Definition comparator : Type := BookOrder -> BookOrder -> Z.

(** The pushed order goes in front of the first order that the comparator
    does not put before it.  The comparators of a book answer 0 for no two
    distinct orders, and the place is then the one that keeps the queue in
    comparator order.  Between orders that a comparator does not tell
    apart the container promises no order, and the model adds none of its
    own in favour of the earlier one: the order pushed last comes first.
    That the earlier of two orders at one price is served first is so the
    work of the comparators, through [o_ts]. *)
Fixpoint push (cmp : comparator) (o : BookOrder) (h : t) : t :=
  match h with
  | [] => [o]
  | x :: h' => if cmp o x <=? 0 then o :: h else x :: push cmp o h'
  end.

Definition peek (h : t) : option BookOrder := head h.

Definition size (h : t) : nat := length h.

Fixpoint remove (o : BookOrder) (h : t) : t :=
  match h with
  | [] => []
  | x :: h' => if same_order x o then h' else x :: remove o h'
  end.

(** The elements, here in comparator order.  The order in which the
    array of the binary heap holds them, which is the order of the lines
    of a snapshot, is not modelled: of a snapshot the model tells the
    lines, not their order. *)
Definition toArray (h : t) : list BookOrder := h.

(** Assignment to [remaining] of the order at the top, which the queue
    holds by reference. *)
Definition set_top_remaining (r : Big.t) (h : t) : t :=
  match h with
  | [] => []
  | x :: h' => set_remaining x r :: h'
  end.

Definition find (ref : nat) (h : t) : option BookOrder :=
  List.find (fun x => (o_ts x =? ref)%nat) h.

End Heap.

(** ** The book of one pair *)

(** [idIndex] maps an order id to a reference to the order object, that is to
    its [o_ts]; the object itself lives in the queue of its side. *)
Record OrderBook : Type := mkOrderBook {
  ob_pair : string;
  bids : Heap.t;
  asks : Heap.t;
  idIndex : gmap string nat;
  seq : nat;
  trades : list Trade;
}.

Module OrderBook.

(** Bid max-heap: highest price first, FIFO on equal price. *)
Definition bid_cmp : Heap.comparator := fun a b =>
  if Big.eq (o_price a) (o_price b)
  then Z.of_nat (o_ts a) - Z.of_nat (o_ts b)
  else Big.cmp (o_price b) (o_price a).

(** Ask min-heap: lowest price first, FIFO on equal price. *)
Definition ask_cmp : Heap.comparator := fun a b =>
  if Big.eq (o_price a) (o_price b)
  then Z.of_nat (o_ts a) - Z.of_nat (o_ts b)
  else Big.cmp (o_price a) (o_price b).

Definition new (pair : string) : OrderBook :=
  mkOrderBook pair [] [] ∅ 0 [].

Definition add (order : BookOrder) (b : OrderBook) : OrderBook :=
  let idx := <[o_id order := o_ts order]> (idIndex b) in
  match o_side order with
  | BUY =>
      mkOrderBook (ob_pair b) (Heap.push bid_cmp order (bids b)) (asks b)
                  idx (seq b) (trades b)
  | SELL =>
      mkOrderBook (ob_pair b) (bids b) (Heap.push ask_cmp order (asks b))
                  idx (seq b) (trades b)
  end.

Definition remove (order : BookOrder) (b : OrderBook) : OrderBook :=
  let idx := delete (o_id order) (idIndex b) in
  match o_side order with
  | BUY =>
      mkOrderBook (ob_pair b) (Heap.remove order (bids b)) (asks b)
                  idx (seq b) (trades b)
  | SELL =>
      mkOrderBook (ob_pair b) (bids b) (Heap.remove order (asks b))
                  idx (seq b) (trades b)
  end.

(** The queue an incoming order of side [s] is matched against. *)
Definition bookSide (s : Side) (b : OrderBook) : Heap.t :=
  match s with BUY => asks b | SELL => bids b end.

Definition set_bookSide (s : Side) (h : Heap.t) (b : OrderBook) : OrderBook :=
  match s with
  | BUY => mkOrderBook (ob_pair b) (bids b) h (idIndex b) (seq b) (trades b)
  | SELL => mkOrderBook (ob_pair b) h (asks b) (idIndex b) (seq b) (trades b)
  end.

Definition push_trade (tr : Trade) (b : OrderBook) : OrderBook :=
  mkOrderBook (ob_pair b) (bids b) (asks b) (idIndex b) (seq b)
              (trades b ++ [tr]).

Definition priceOK (incoming best : BookOrder) : bool :=
  match o_side incoming with
  | BUY => Big.gte (o_price incoming) (o_price best)
  | SELL => Big.lte (o_price incoming) (o_price best)
  end.

Definition tradeQty (incoming best : BookOrder) : Big.t :=
  if Big.lt (o_remaining incoming) (o_remaining best)
  then o_remaining incoming
  else o_remaining best.

Definition mkTradeOf (pair : string) (incoming best : BookOrder) : Trade :=
  let isBuy := bool_decide (o_side incoming = BUY) in
  mkTrade pair
          (if isBuy then o_id incoming else o_id best)
          (if isBuy then o_id best else o_id incoming)
          (Big.toString (o_price best))
          (Big.toString (tradeQty incoming best)).

(** One pass through the body of the [while] of [match]: [None] when the
    loop is left (guard false, or [break]), otherwise the incoming order and
    the book after the pass. *)
Definition match_body (incoming : BookOrder) (b : OrderBook)
  : option (BookOrder * OrderBook) :=
  let side := o_side incoming in
  if Big.gt (o_remaining incoming) Big.zero
     && negb (Heap.size (bookSide side b) =? 0)%nat
  then
    match Heap.peek (bookSide side b) with
    | None => None
    | Some best =>
        if negb (priceOK incoming best) then None
        else
          let qty := tradeQty incoming best in
          let b1 := push_trade (mkTradeOf (ob_pair b) incoming best) b in
          let incoming' :=
            set_remaining incoming (Big.minus (o_remaining incoming) qty) in
          let best' := set_remaining best (Big.minus (o_remaining best) qty) in
          let b2 :=
            set_bookSide side
              (Heap.set_top_remaining (o_remaining best') (bookSide side b1)) b1 in
          let b3 :=
            if Big.eq (o_remaining best') Big.zero then remove best' b2 else b2 in
          Some (incoming', b3)
    end
  else None.

(** The [while] loop, [fuel] passes at most; the first component of the
    result counts the passes made.  [None]: the fuel ran out before the
    loop was left. *)
Fixpoint match_loop (fuel : nat) (incoming : BookOrder) (b : OrderBook)
  : option (nat * BookOrder * OrderBook) :=
  match match_body incoming b with
  | None => Some (O, incoming, b)
  | Some (incoming', b') =>
      match fuel with
      | O => None
      | S fuel' =>
          match match_loop fuel' incoming' b' with
          | Some (n, i, r) => Some (S n, i, r)
          | None => None
          end
      end
  end.

(** [match]: the loop never needs more passes than the opposite queue has
    orders (lemma [match_loop_fuel]). *)
Definition match_ (incoming : BookOrder) (b : OrderBook) : BookOrder * OrderBook :=
  match match_loop (Heap.size (bookSide (o_side incoming) b)) incoming b with
  | Some (_, i, r) => (i, r)
  | None => (incoming, b)
  end.

Definition next_seq (b : OrderBook) : OrderBook :=
  mkOrderBook (ob_pair b) (bids b) (asks b) (idIndex b) (S (seq b)) (trades b).

(** The object a reference of the index points to. *)
Definition deref (ref : nat) (b : OrderBook) : option BookOrder :=
  match Heap.find ref (bids b) with
  | Some o => Some o
  | None => Heap.find ref (asks b)
  end.

(** [process]: [None] when [new Big] throws on the price or the amount. *)
Definition process (raw : RawOrder) (b : OrderBook) : option OrderBook :=
  match type_op raw with
  | DELETE =>
      match idIndex b !! order_id raw with
      | Some ref =>
          match deref ref b with
          | Some found => Some (remove found b)
          | None =>
              (* an index entry always points into a queue
                 (lemma [index_live]) *)
              Some (mkOrderBook (ob_pair b) (bids b) (asks b)
                      (delete (order_id raw) (idIndex b)) (seq b) (trades b))
          end
      | None => Some b
      end
  | CREATE =>
      match Big.of_string (limit_price raw), Big.of_string (amount raw) with
      | Some price, Some remaining =>
          let order :=
            mkBookOrder (order_id raw) (account_id raw) (r_side raw)
                        (r_pair raw) price remaining (seq b) in
          let '(order', b') := match_ order (next_seq b) in
          if Big.gt (o_remaining order') Big.zero
          then Some (add order' b')
          else Some b'
      | _, _ => None
      end
  end.

(** The order that [process] allocates for a CREATE and the book as
    [match] first sees it ([seq] already incremented). *)
Definition start (raw : RawOrder) (b : OrderBook) : option (BookOrder * OrderBook) :=
  match type_op raw with
  | DELETE => None
  | CREATE =>
      match Big.of_string (limit_price raw), Big.of_string (amount raw) with
      | Some price, Some remaining =>
          Some (mkBookOrder (order_id raw) (account_id raw) (r_side raw)
                            (r_pair raw) price remaining (seq b),
                next_seq b)
      | _, _ => None
      end
  end.

(** Exactly [k] passes of the loop of [match]; [None] when the loop is
    left earlier. *)
Fixpoint passes (k : nat) (incoming : BookOrder) (b : OrderBook)
  : option (BookOrder * OrderBook) :=
  match k with
  | O => Some (incoming, b)
  | S k' =>
      match match_body incoming b with
      | Some (incoming', b') => passes k' incoming' b'
      | None => None
      end
  end.

(** The commands of a stream that reach one book, applied in turn. *)
Fixpoint process_all (cmds : list RawOrder) (b : OrderBook) : option OrderBook :=
  match cmds with
  | [] => Some b
  | raw :: cmds' =>
      match process raw b with
      | Some b' => process_all cmds' b'
      | None => None
      end
  end.

Definition level (o : BookOrder) : Level :=
  mkLevel (o_id o) (o_account o)
          (Big.toString (o_price o)) (Big.toString (o_remaining o)).

Definition normalize (b : OrderBook) : Order :=
  mkOrder (ob_pair b)
          (level <$> Heap.toArray (bids b))
          (level <$> Heap.toArray (asks b)).

End OrderBook.

(** ** The engine *)

(** [books] is a JavaScript [Map]: one entry per key, iterated in the order
    in which the keys were first set. *)
Record MatcherEngine : Type := mkMatcherEngine {
  books : list (string * OrderBook);
}.

Module MatcherEngine.

Definition new : MatcherEngine := mkMatcherEngine [].

Fixpoint get (pair : string) (m : list (string * OrderBook)) : option OrderBook :=
  match m with
  | [] => None
  | (k, v) :: m' => if String.eqb k pair then Some v else get pair m'
  end.

Fixpoint set (pair : string) (b : OrderBook) (m : list (string * OrderBook))
  : list (string * OrderBook) :=
  match m with
  | [] => [(pair, b)]
  | (k, v) :: m' =>
      if String.eqb k pair then (k, b) :: m' else (k, v) :: set pair b m'
  end.

(** [bookFor] answers the book and the engine, in which the book is now
    registered. *)
Definition bookFor (pair : string) (e : MatcherEngine)
  : OrderBook * MatcherEngine :=
  match get pair (books e) with
  | Some book => (book, e)
  | None =>
      let book := OrderBook.new pair in
      (book, mkMatcherEngine (set pair book (books e)))
  end.

(** The book is an object of the map: what [process] does to it shows in
    the map. *)
Definition ingest (raw : RawOrder) (e : MatcherEngine) : option MatcherEngine :=
  let '(book, e') := bookFor (r_pair raw) e in
  match OrderBook.process raw book with
  | Some book' => Some (mkMatcherEngine (set (r_pair raw) book' (books e')))
  | None => None
  end.

Definition finish (e : MatcherEngine) : list Order * list Trade :=
  (OrderBook.normalize <$> (snd <$> books e),
   flat_map trades (snd <$> books e)).

(** The driver: every command of the stream in turn, from a fresh engine. *)
Fixpoint run_from (e : MatcherEngine) (cmds : list RawOrder)
  : option MatcherEngine :=
  match cmds with
  | [] => Some e
  | raw :: cmds' =>
      match ingest raw e with
      | Some e' => run_from e' cmds'
      | None => None
      end
  end.

Definition run (cmds : list RawOrder) : option MatcherEngine :=
  run_from new cmds.

(** The state of the loop of [match] after [k] passes, while the engine
    that has consumed [cmds] ingests the CREATE [raw]: the incoming order
    and its book. *)
Definition matching (cmds : list RawOrder) (raw : RawOrder) (k : nat)
  : option (BookOrder * OrderBook) :=
  match run cmds with
  | Some e =>
      match OrderBook.start raw (fst (bookFor (r_pair raw) e)) with
      | Some (order, b) => OrderBook.passes k order b
      | None => None
      end
  | None => None
  end.

End MatcherEngine.

(** process-order.service.ts: [process] hands every command of the parsed
    input to a fresh engine and answers what [finish] reports. *)
Module ProcessOrderService.

Definition process (orders : list RawOrder) : option (list Order * list Trade) :=
  MatcherEngine.finish <$> MatcherEngine.run orders.

End ProcessOrderService.

(** ** Well-formed books *)

(** The queue in which an order of side [s] rests. *)
Definition own (s : Side) (b : OrderBook) : Heap.t :=
  match s with BUY => bids b | SELL => asks b end.

Definition resting (b : OrderBook) : list BookOrder := bids b ++ asks b.

(** What every book of a run satisfies (lemma [run_wf]): each queue holds
    orders of its side only, in comparator order; the resting orders are
    distinct objects allocated by this book; no bid reaches an ask; an index
    entry names a resting order of that id; every resting order has a
    positive remaining. *)
Definition book_wf (b : OrderBook) : Prop :=
  Forall (fun o => o_side o = BUY) (bids b)
  /\ Forall (fun o => o_side o = SELL) (asks b)
  /\ StronglySorted (fun x y => OrderBook.bid_cmp x y < 0) (bids b)
  /\ StronglySorted (fun x y => OrderBook.ask_cmp x y < 0) (asks b)
  /\ NoDup (o_ts <$> resting b)
  /\ Forall (fun o => (o_ts o < seq b)%nat) (resting b)
  /\ Forall (fun x =>
        Forall (fun y => Big.lt (o_price x) (o_price y) = true) (asks b)) (bids b)
  /\ map_Forall (fun i ref =>
        Exists (fun o => o_ts o = ref /\ o_id o = i) (resting b)) (idIndex b)
  /\ Forall (fun o => Big.gt (o_remaining o) Big.zero = true) (resting b).

#[global] Instance book_wf_dec b : Decision (book_wf b).
Proof. unfold book_wf. apply _. Defined.

(** ** The canonical text of a decimal string *)

(** Drops the zeros in front, but never the last digit. *)
Fixpoint strip_leading_zeros (l : list ascii) : list ascii :=
  match l with
  | c :: (_ :: _) as r => if Ascii.eqb c "0" then strip_leading_zeros r else l
  | _ => l
  end.

Fixpoint strip_trailing_zeros (l : list ascii) : list ascii :=
  match l with
  | [] => []
  | c :: r =>
      match strip_trailing_zeros r with
      | [] => if Ascii.eqb c "0" then [] else [c]
      | r' => c :: r'
      end
  end.

Definition all_zeros (l : list ascii) : bool :=
  forallb (fun c => Ascii.eqb c "0") l.

(** The canonical form of a decimal string, in the words of the
    specification: the minimal representation, with no superfluous zero in
    front or at the end of the fraction, no trailing point, and a sign only
    for a negative value.  A string that is not a decimal is left alone. *)
Definition canonical (s : string) : string :=
  match Big.split (list_ascii_of_string s) with
  | Some (neg, ip, fp) =>
      let ip' := strip_leading_zeros ip in
      let fp' := strip_trailing_zeros fp in
      let body := match fp' with [] => ip' | _ => ip' ++ "."%char :: fp' end in
      string_of_list_ascii
        (if neg && negb (all_zeros (ip ++ fp)) then "-"%char :: body else body)
  | None => s
  end.

(** ** The priority order of a queue *)

Definition opposite (s : Side) : Side :=
  match s with BUY => SELL | SELL => BUY end.

Definition cmp_of (s : Side) : Heap.comparator :=
  match s with BUY => OrderBook.bid_cmp | SELL => OrderBook.ask_cmp end.

(** [before s x y]: in the queue of side [s], [x] is served before [y]:
    better price, or the same price and earlier arrival. *)
Definition before (s : Side) (x y : BookOrder) : Prop :=
  match s with
  | BUY => (Big.toQ (o_price y) < Big.toQ (o_price x))%Q
  | SELL => (Big.toQ (o_price x) < Big.toQ (o_price y))%Q
  end
  \/ ((Big.toQ (o_price x) == Big.toQ (o_price y))%Q /\ (o_ts x < o_ts y)%nat).

(** ** What a pass of the loop does *)

(** An order of side [s] at price [p] crosses a resting order of the other
    side at price [q]. *)
Definition crosses (s : Side) (p q : Big.t) : Prop :=
  match s with
  | BUY => (Big.toQ q <= Big.toQ p)%Q
  | SELL => (Big.toQ p <= Big.toQ q)%Q
  end.

(** The book after a pass that traded with [best], the top of the opposite
    queue [best :: rest]. *)
Definition after_pass (incoming best : BookOrder) (rest : Heap.t) (b : OrderBook)
  : OrderBook :=
  let left := Big.minus (o_remaining best) (OrderBook.tradeQty incoming best) in
  let filled := Big.eq left Big.zero in
  OrderBook.set_bookSide (o_side incoming)
    (if filled then rest else set_remaining best left :: rest)
    (mkOrderBook (ob_pair b) (bids b) (asks b)
       (if filled then delete (o_id best) (idIndex b) else idIndex b)
       (seq b)
       (trades b ++ [OrderBook.mkTradeOf (ob_pair b) incoming best])).

(** The conditions of [book_wf], the same way for both sides. *)
Record wf_gen (b : OrderBook) : Prop := mk_wf_gen {
  wf_side : forall s, Forall (fun o => o_side o = s) (own s b);
  wf_sorted : forall s, StronglySorted (fun x y => cmp_of s x y < 0) (own s b);
  wf_nodup : NoDup (o_ts <$> resting b);
  wf_ts : Forall (fun o => (o_ts o < seq b)%nat) (resting b);
  wf_uncrossed : forall s x y,
    x ∈ own s b -> y ∈ OrderBook.bookSide s b ->
    ~ crosses s (o_price x) (o_price y);
  wf_index : forall i ref,
    idIndex b !! i = Some ref ->
    exists o, o ∈ resting b /\ o_ts o = ref /\ o_id o = i;
  wf_positive : Forall (fun o => Big.gt (o_remaining o) Big.zero = true) (resting b);
}.

(** What holds of the incoming order and the book during [match]: the book is
    well formed and the incoming order, not yet in it, is its latest
    object. *)
Record loop_inv (incoming : BookOrder) (b : OrderBook) : Prop := mk_loop_inv {
  li_wf : book_wf b;
  li_seq : seq b = S (o_ts incoming);
  li_ts : Forall (fun o => (o_ts o < o_ts incoming)%nat) (resting b);
}.

(** The book of [pair] in an engine, a fresh one when the pair is new: the
    book that [bookFor] answers. *)
Definition book_of (pair : string) (e : MatcherEngine) : OrderBook :=
  (MatcherEngine.bookFor pair e).1.

(** ** Where orders and trades come from *)

(** The CREATE [c] is the command that allocated the order [o]. *)
Definition made_by (c : RawOrder) (o : BookOrder) : Prop :=
  type_op c = CREATE /\ order_id c = o_id o /\ r_side c = o_side o
  /\ r_pair c = o_pair o /\ Big.of_string (limit_price c) = Some (o_price o).

(** The trade [t] matched the incoming order of the CREATE [taker] with the
    order that the earlier CREATE [maker] left resting, at the limit price
    [p] of the maker. *)
Definition trade_of (cmds : list RawOrder) (maker taker : RawOrder) (p : Big.t)
    (t : Trade) : Prop :=
  (exists pre mid post, cmds = pre ++ maker :: mid ++ taker :: post)
  /\ type_op maker = CREATE /\ type_op taker = CREATE
  /\ r_pair maker = t_pair t /\ r_pair taker = t_pair t
  /\ r_side maker = opposite (r_side taker)
  /\ buyOrderId t = (if bool_decide (r_side taker = BUY)
                     then order_id taker else order_id maker)
  /\ sellOrderId t = (if bool_decide (r_side taker = BUY)
                      then order_id maker else order_id taker)
  /\ Big.of_string (limit_price maker) = Some p
  /\ t_price t = Big.toString p.

(** Every resting order and every trade of the book of [pair] comes from
    commands of the stream. *)
Definition provenance (cmds : list RawOrder) (pair : string) (b : OrderBook) : Prop :=
  ob_pair b = pair
  /\ (forall o, o ∈ resting b -> exists c, c ∈ cmds /\ made_by c o /\ r_pair c = pair)
  /\ (forall t, t ∈ trades b ->
        t_pair t = pair /\ exists maker taker p, trade_of cmds maker taker p t).

(** ** Quantities traded and left *)

(** The amount of a trade, read back from its text. *)
Definition amount_of (t : Trade) : Q :=
  match Big.of_string (t_amount t) with
  | Some q => Big.toQ q
  | None => 0%Q
  end.

(** The order [id] of the book of [pair] is a party to the trade. *)
Definition participates (pair id : string) (t : Trade) : bool :=
  String.eqb (t_pair t) pair
  && (String.eqb (buyOrderId t) id || String.eqb (sellOrderId t) id).

(** Sum of the amounts of the trades the order is a party to. *)
Fixpoint traded (pair id : string) (ts : list Trade) : Q :=
  match ts with
  | [] => 0%Q
  | t :: ts' =>
      ((if participates pair id t then amount_of t else 0) + traded pair id ts')%Q
  end.

Definition has_id (id : string) (o : BookOrder) : bool := String.eqb (o_id o) id.

(** What is left of the order [id] in a book: the remaining of the resting
    order of that id, nothing when no such order rests. *)
Definition residual_in (id : string) (b : OrderBook) : Q :=
  match List.find (has_id id) (resting b) with
  | Some o => Big.toQ (o_remaining o)
  | None => 0%Q
  end.

Definition residual (pair id : string) (e : MatcherEngine) : Q :=
  match MatcherEngine.get pair (books e) with
  | Some b => residual_in id b
  | None => 0%Q
  end.

(** No resting order and no trade of the book carries the id. *)
Definition id_free (id : string) (b : OrderBook) : Prop :=
  (forall o, o ∈ resting b -> o_id o <> id)
  /\ (forall t, t ∈ trades b -> buyOrderId t <> id /\ sellOrderId t <> id).

(** The order of that id, of initial amount [a], is accounted for: what it
    traded and what is left of it add up to [a]. *)
Definition tracked (pair id : string) (a : Big.t) (b : OrderBook) : Prop :=
  (forall o1 o2, o1 ∈ resting b -> o2 ∈ resting b ->
                 o_id o1 = id -> o_id o2 = id -> o1 = o2)
  /\ (Big.toQ a == traded pair id (trades b) + residual_in id b)%Q.

(** The command is an [op] of the pair that carries the id. *)
Definition names (op : OpType) (pair id : string) (c : RawOrder) : Prop :=
  type_op c = op /\ r_pair c = pair /\ order_id c = id.

(** In the stream [pre ++ c :: post], no CREATE of the pair but [c] carries
    the id, and no DELETE of the pair after [c] names it. *)
Definition alone (pair id : string) (pre post : list RawOrder) : Prop :=
  Forall (fun c' => ~ names CREATE pair id c') (pre ++ post)
  /\ Forall (fun c' => ~ names DELETE pair id c') post.

#[global] Instance names_dec op pair id c : Decision (names op pair id c).
Proof. unfold names. apply _. Defined.

#[global] Instance alone_dec pair id pre post : Decision (alone pair id pre post).
Proof. unfold alone. apply _. Defined.

(** The account that a run keeps of every id of a book: an id that no
    CREATE carried is unused; the order of a CREATE that is [alone] is
    [tracked]. *)
Definition accounts (cmds : list RawOrder) (pair : string) (b : OrderBook) : Prop :=
  ob_pair b = pair
  /\ forall id,
      ((forall c', c' ∈ cmds -> type_op c' = CREATE -> r_pair c' = pair ->
                   order_id c' <> id) -> id_free id b)
      /\ (forall pre c post a,
            cmds = pre ++ c :: post -> type_op c = CREATE -> r_pair c = pair ->
            order_id c = id -> Big.of_string (amount c) = Some a ->
            (0 <= Big.toQ a)%Q -> alone pair id pre post ->
            tracked pair id a b).

(** ** The sample input of the unit test *)

Definition sample (op : OpType) (acc amt id price : string) (s : Side) : RawOrder :=
  mkRawOrder op acc amt id "BTC/USDC" price s.

Definition sample_orders : list RawOrder :=
  [ sample CREATE "1" "0.00230" "1" "63500.00" SELL;
    sample CREATE "2" "0.00230" "2" "63500.00" BUY;
    sample CREATE "1" "0.00798" "3" "62880.54" BUY;
    sample CREATE "2" "0.00798" "4" "62880.54" SELL;
    sample CREATE "1" "0.12785" "5" "61577.30" SELL;
    sample DELETE "1" "0.12785" "5" "61577.30" SELL;
    sample CREATE "1" "0.20000" "6" "47500" SELL;
    sample CREATE "1" "0.20000" "7" "50500" BUY;
    sample CREATE "1" "6.34500" "8" "61577.30" SELL;
    sample CREATE "2" "2.34500" "9" "62577.30" BUY;
    sample CREATE "2" "2.00000" "10" "63477.30" BUY;
    sample CREATE "2" "0.50000" "11" "66577.30" BUY;
    sample CREATE "2" "3.50000" "12" "61577.30" BUY;
    sample CREATE "2" "4.50000" "13" "62877.30" BUY;
    sample CREATE "2" "3.50000" "14" "62877.30" BUY;
    sample CREATE "2" "1.57600" "15" "60577.30" BUY;
    sample CREATE "2" "1.58900" "16" "65860.30" SELL;
    sample CREATE "2" "2.67600" "17" "66490.50" SELL;
    sample CREATE "2" "0.47600" "18" "60577.30" BUY;
    sample CREATE "2" "1.00000" "19" "60577.30" BUY ].

(** ** Sample streams, and the claims as the specification words them *)

Definition cmd (op : OpType) (s : Side) (id price amt : string) : RawOrder :=
  mkRawOrder op "7" amt id "BTC/USDC" price s.

(** A sell that rests, a buy that takes part of it, a second sell behind
    the first. *)
Definition demo_cmds : list RawOrder :=
  [ cmd CREATE SELL "1" "10.50" "5.0";
    cmd CREATE BUY "2" "11" "3";
    cmd CREATE SELL "3" "10.5" "4" ].

Definition demo_engine : MatcherEngine :=
  Eval vm_compute in default MatcherEngine.new (MatcherEngine.run demo_cmds).

Definition demo_book : OrderBook :=
  Eval vm_compute in book_of "BTC/USDC" demo_engine.

(** A sell and a buy that do not cross. *)
Definition spread_cmds : list RawOrder :=
  [ cmd CREATE SELL "1" "10.50" "5"; cmd CREATE BUY "2" "9.75" "1" ].

Definition spread_engine : MatcherEngine :=
  Eval vm_compute in default MatcherEngine.new (MatcherEngine.run spread_cmds).

Definition spread_book : OrderBook :=
  Eval vm_compute in book_of "BTC/USDC" spread_engine.

(** A resting sell is cancelled. *)
Definition cancel_cmds : list RawOrder :=
  [ cmd CREATE SELL "1" "10" "5"; cmd DELETE SELL "1" "10" "5" ].

Definition cancel_engine : MatcherEngine :=
  Eval vm_compute in default MatcherEngine.new (MatcherEngine.run cancel_cmds).

(** Two sells under one id, then a buy that fills both. *)
Definition twice_cmds : list RawOrder :=
  [ cmd CREATE SELL "1" "10" "5"; cmd CREATE SELL "1" "10" "3";
    cmd CREATE BUY "2" "10" "8" ].

Definition twice_engine : MatcherEngine :=
  Eval vm_compute in default MatcherEngine.new (MatcherEngine.run twice_cmds).

(** The claim as the specification words it: every CREATE of a stream is
    conserved. *)
Definition conserved (e : MatcherEngine) (c : RawOrder) : Prop :=
  forall a, Big.of_string (amount c) = Some a ->
    (Big.toQ a
     == traded (r_pair c) (order_id c) (MatcherEngine.finish e).2
        + residual (r_pair c) (order_id c) e)%Q.

(** The trade [t] of a run over [cmds] was emitted by a pass of the loop of
    [match], in the state ([incoming], [b]), against [best], the top of the
    opposite queue. *)
Definition emitted (cmds : list RawOrder) (t : Trade)
    (incoming : BookOrder) (b : OrderBook) (best : BookOrder) : Prop :=
  exists pre raw post k incoming' b',
    cmds = pre ++ raw :: post
    /\ MatcherEngine.matching pre raw k = Some (incoming, b)
    /\ OrderBook.match_body incoming b = Some (incoming', b')
    /\ Heap.peek (OrderBook.bookSide (o_side incoming) b) = Some best
    /\ t = OrderBook.mkTradeOf (ob_pair b) incoming best.

(** Two sells at one price, written in two ways, then a buy that takes a
    part of the first of them. *)
Definition tie_cmds : list RawOrder :=
  [ cmd CREATE SELL "1" "10" "5"; cmd CREATE SELL "2" "10.0" "4";
    cmd CREATE BUY "3" "10" "3" ].

Definition tie_engine : MatcherEngine :=
  Eval vm_compute in default MatcherEngine.new (MatcherEngine.run tie_cmds).

Definition tie_first : BookOrder :=
  mkBookOrder "1" "7" SELL "BTC/USDC" (Big.mk 10 0) (Big.mk 5 0) 0.

Definition tie_second : BookOrder :=
  mkBookOrder "2" "7" SELL "BTC/USDC" (Big.mk 100 1) (Big.mk 4 0) 1.

Definition tie_incoming : BookOrder :=
  mkBookOrder "3" "7" BUY "BTC/USDC" (Big.mk 10 0) (Big.mk 3 0) 2.

(** The book as the loop of [match] finds it when the buy arrives: the two
    sells rest, the earlier one at the top. *)
Definition tie_book : OrderBook :=
  Eval vm_compute in
    OrderBook.next_seq
      (book_of "BTC/USDC"
         (default MatcherEngine.new (MatcherEngine.run (take 2 tie_cmds)))).

Definition tie_trade : Trade := mkTrade "BTC/USDC" "3" "1" "10" "3".

(** A buy of 4 at 10.5 arrives after the sample stream: its first pass takes
    the 2 that are left of the sell 1. *)
Definition demo_incoming : BookOrder :=
  mkBookOrder "4" "7" BUY "BTC/USDC" (Big.mk 105 1) (Big.mk 4 0) 3.

Definition demo_pass : BookOrder * OrderBook :=
  Eval vm_compute in
    default (demo_incoming, demo_book)
      (OrderBook.match_body demo_incoming (OrderBook.next_seq demo_book)).

(** The claim as the specification words it: the engine after the DELETE is
    the engine before it. *)
Definition delete_is_noop (e : MatcherEngine) (raw : RawOrder) : Prop :=
  type_op raw = DELETE ->
  idIndex (book_of (r_pair raw) e) !! order_id raw = None ->
  MatcherEngine.ingest raw e = Some e.

(** The claim as the specification words it: an order of the id rests when
    the CREATE arrives, the new order rests after [process]; then the index
    names the new order and the old one still rests. *)
Definition keeps_both (b : OrderBook) (raw : RawOrder) (old : BookOrder)
    (b' : OrderBook) : Prop :=
  type_op raw = CREATE ->
  old ∈ resting b -> o_id old = order_id raw ->
  OrderBook.process raw b = Some b' ->
  Exists (fun o => o_ts o = seq b) (resting b') ->
  idIndex b' !! order_id raw = Some (seq b)
  /\ Exists (fun o => o_ts o = o_ts old) (resting b')
  /\ Exists (fun o => o_ts o = seq b) (resting b').

(** A buy under the id of the resting sell fills it: the old order is gone
    from the queues although the new one rests. *)
Definition self_cmds : list RawOrder := [cmd CREATE SELL "1" "10" "5"].

Definition self_book : OrderBook :=
  Eval vm_compute in
    book_of "BTC/USDC" (default MatcherEngine.new (MatcherEngine.run self_cmds)).

Definition self_raw : RawOrder := cmd CREATE BUY "1" "10" "8".

Definition self_old : BookOrder :=
  mkBookOrder "1" "7" SELL "BTC/USDC" (Big.mk 10 0) (Big.mk 5 0) 0.

Definition self_after : OrderBook :=
  Eval vm_compute in
    default (OrderBook.new "") (OrderBook.process self_raw self_book).

(** A buy of 9 at 10.5 after the sample stream fills both resting sells in
    two passes. *)
Definition demo_sweep : BookOrder :=
  mkBookOrder "4" "7" BUY "BTC/USDC" (Big.mk 105 1) (Big.mk 9 0) 3.

(** ** Streams pair by pair, accounts and liquidity *)

(** The commands of a stream that name [pair], in their order. *)
Definition for_pair (pair : string) (cmds : list RawOrder) : list RawOrder :=
  filter (fun c => r_pair c = pair) cmds.

(** The distinct pairs of a stream, each at the place where it first
    occurs. *)
Fixpoint first_seen (l : list string) : list string :=
  match l with
  | [] => []
  | p :: l' => p :: filter (fun q => q <> p) (first_seen l')
  end.

(** The book that the commands of [pair] build when they are alone. *)
Definition book_alone (pair : string) (cmds : list RawOrder) : option OrderBook :=
  OrderBook.process_all (for_pair pair cmds) (OrderBook.new pair).

(** A CREATE whose price or amount [new Big] does not accept. *)
Definition bad_decimal (c : RawOrder) : Prop :=
  type_op c = CREATE
  /\ (Big.of_string (limit_price c) = None \/ Big.of_string (amount c) = None).

(** Two pairs, interleaved: the trade of Y is made before the trade of X. *)
Definition two_pairs : list RawOrder :=
  [mkRawOrder CREATE "a" "1" "1" "X" "10" SELL;
   mkRawOrder CREATE "b" "1" "2" "Y" "10" SELL;
   mkRawOrder CREATE "c" "1" "3" "Y" "10" BUY;
   mkRawOrder CREATE "d" "1" "4" "X" "10" BUY].

(** A trade names the order of the command [raw] on the side of [raw]. *)
Definition names_taker (raw : RawOrder) (pair : string) (t : Trade) : Prop :=
  t_pair t = pair
  /\ match r_side raw with
     | BUY => buyOrderId t = order_id raw
     | SELL => sellOrderId t = order_id raw
     end.

(** A resting sell under the id 1. *)
Definition once_book : OrderBook :=
  Eval vm_compute in
    default (OrderBook.new "BTC/USDC")
      (book_alone "BTC/USDC" [cmd CREATE SELL "1" "10" "5"]).

(** A sell at 11, a sell at 10 behind it, and a buy at 11 that takes a part
    of the cheaper one. *)
Definition ladder_cmds : list RawOrder :=
  [ cmd CREATE SELL "1" "11" "5"; cmd CREATE SELL "2" "10" "5";
    cmd CREATE BUY "3" "11" "3" ].

Definition ladder_engine : MatcherEngine :=
  Eval vm_compute in default MatcherEngine.new (MatcherEngine.run ladder_cmds).

Definition ladder_high : BookOrder :=
  mkBookOrder "1" "7" SELL "BTC/USDC" (Big.mk 11 0) (Big.mk 5 0) 0.

Definition ladder_low : BookOrder :=
  mkBookOrder "2" "7" SELL "BTC/USDC" (Big.mk 10 0) (Big.mk 5 0) 1.

Definition ladder_incoming : BookOrder :=
  mkBookOrder "3" "7" BUY "BTC/USDC" (Big.mk 11 0) (Big.mk 3 0) 2.

(** The book as the loop of [match] finds it when the buy arrives: the two
    sells rest, the cheaper one at the top. *)
Definition ladder_book : OrderBook :=
  Eval vm_compute in
    OrderBook.next_seq
      (book_of "BTC/USDC"
         (default MatcherEngine.new (MatcherEngine.run (take 2 ladder_cmds)))).

Definition ladder_trade : Trade := mkTrade "BTC/USDC" "3" "2" "10" "3".

(** The CREATE commands of a stream. *)
Definition creates (cmds : list RawOrder) : list RawOrder :=
  filter (fun c => type_op c = CREATE) cmds.

(** The pair and the id of every CREATE of a stream. *)
Definition create_keys (cmds : list RawOrder) : list (string * string) :=
  (fun c => (r_pair c, order_id c)) <$> creates cmds.

(** The index knows every resting order under its id. *)
Definition indexed (b : OrderBook) : Prop :=
  forall o, o ∈ resting b -> idIndex b !! o_id o = Some (o_ts o).

(** The CREATE [c] allocated the resting order [o], which has kept its
    account and has no more left than the amount of [c]. *)
Definition placed_by (c : RawOrder) (o : BookOrder) : Prop :=
  made_by c o /\ account_id c = o_account o
  /\ exists a, Big.of_string (amount c) = Some a
       /\ (Big.toQ (o_remaining o) <= Big.toQ a)%Q.

(** The line [l] of a snapshot shows an order of side [s] that a CREATE of
    the stream placed for [pair]. *)
Definition line_from (cmds : list RawOrder) (pair : string) (s : Side) (l : Level)
    : Prop :=
  exists c p a r,
    c ∈ cmds /\ type_op c = CREATE /\ r_pair c = pair /\ r_side c = s
    /\ order_id c = l_id l /\ account_id c = l_account l
    /\ Big.of_string (limit_price c) = Some p /\ l_price l = Big.toString p
    /\ Big.of_string (amount c) = Some a
    /\ Big.of_string (l_remaining l) = Some r
    /\ (0 < Big.toQ r)%Q /\ (Big.toQ r <= Big.toQ a)%Q.

(** A command, an order, a book and an engine with the accounts blanked. *)
Definition anon_raw (c : RawOrder) : RawOrder :=
  mkRawOrder (type_op c) "" (amount c) (order_id c) (r_pair c) (limit_price c)
             (r_side c).

Definition anon_order (o : BookOrder) : BookOrder :=
  mkBookOrder (o_id o) "" (o_side o) (o_pair o) (o_price o) (o_remaining o) (o_ts o).

Definition anon_book (b : OrderBook) : OrderBook :=
  mkOrderBook (ob_pair b) (anon_order <$> bids b) (anon_order <$> asks b)
              (idIndex b) (seq b) (trades b).

Definition anon_engine (e : MatcherEngine) : MatcherEngine :=
  mkMatcherEngine (prod_map id anon_book <$> books e).

(** An order of side [s] with the limit price [p] accepts the price of the
    resting order [y]: the test [priceOK] of the loop. *)
Definition accepts (s : Side) (p : Big.t) (y : BookOrder) : bool :=
  match s with
  | BUY => Big.gte p (o_price y)
  | SELL => Big.lte p (o_price y)
  end.

(** What is left, in a queue, of the orders whose price is accepted. *)
Fixpoint liquidity_in (s : Side) (p : Big.t) (h : Heap.t) : Q :=
  match h with
  | [] => 0
  | y :: h' =>
      ((if accepts s p y then Big.toQ (o_remaining y) else 0)
       + liquidity_in s p h')%Q
  end.

(** What the book offers to an order of side [s] with the limit price [p]. *)
Definition liquidity (s : Side) (p : Big.t) (b : OrderBook) : Q :=
  liquidity_in s p (OrderBook.bookSide s b).

(** For an incoming order of side [s], the price of the trade [t2] is no
    better than that of [t1]: not lower for a buyer, not higher for a
    seller. *)
Definition not_better (s : Side) (t1 t2 : Trade) : Prop :=
  exists p1 p2,
    Big.of_string (t_price t1) = Some p1 /\ Big.of_string (t_price t2) = Some p2
    /\ match s with
       | BUY => (Big.toQ p1 <= Big.toQ p2)%Q
       | SELL => (Big.toQ p2 <= Big.toQ p1)%Q
       end.

(** The sum of the amounts of a list of trades. *)
Fixpoint volume (ts : list Trade) : Q :=
  match ts with
  | [] => 0
  | t :: ts' => (amount_of t + volume ts')%Q
  end.

(** * Properties *)

(** ** The decimal type on examples *)

Example big_parse_1 : Big.of_string "0.00230" = Some (Big.mk 230 5).
Proof. reflexivity. Qed.

Example big_print_1 :
  Big.toString <$> Big.of_string "0.00230" = Some "0.0023"%string.
Proof. reflexivity. Qed.

Example big_print_2 :
  Big.toString <$> Big.of_string "63500.00" = Some "63500"%string.
Proof. reflexivity. Qed.

Example big_print_3 :
  Big.toString <$> Big.of_string "-4.5000" = Some "-4.5"%string.
Proof. reflexivity. Qed.

Example big_print_4 :
  Big.toString (Big.minus (Big.mk 6345 3) (Big.mk 2345 3)) = "4"%string.
Proof. reflexivity. Qed.

(** ** The sample input of the unit test *)

(** The trades that the unit test expects, in order. *)
Example sample_trades :
  snd <$> ProcessOrderService.process sample_orders
  = Some [ mkTrade "BTC/USDC" "2" "1" "63500" "0.0023";
           mkTrade "BTC/USDC" "3" "4" "62880.54" "0.00798";
           mkTrade "BTC/USDC" "7" "6" "47500" "0.2";
           mkTrade "BTC/USDC" "9" "8" "61577.3" "2.345";
           mkTrade "BTC/USDC" "10" "8" "61577.3" "2";
           mkTrade "BTC/USDC" "11" "8" "61577.3" "0.5";
           mkTrade "BTC/USDC" "12" "8" "61577.3" "1.5" ].
Proof. vm_compute. reflexivity. Qed.

(** The resting orders that the unit test expects.  The test lists the lines
    of a side in the order of the array of the heap, which the model does
    not tell: the lines are those of the test, here in comparator order. *)
Example sample_book :
  exists bids asks,
    fst <$> ProcessOrderService.process sample_orders
    = Some [ mkOrder "BTC/USDC" bids asks ]
    /\ bids ≡ₚ [ mkLevel "13" "2" "62877.3" "4.5";
                 mkLevel "12" "2" "61577.3" "2";
                 mkLevel "14" "2" "62877.3" "3.5";
                 mkLevel "15" "2" "60577.3" "1.576";
                 mkLevel "18" "2" "60577.3" "0.476";
                 mkLevel "19" "2" "60577.3" "1" ]
    /\ asks ≡ₚ [ mkLevel "16" "2" "65860.3" "1.589";
                 mkLevel "17" "2" "66490.5" "2.676" ].
Proof.
  eexists. eexists. split; [vm_compute; reflexivity|]. split; [|done].
  apply Permutation_skip, Permutation_swap.
Qed.

(** ** Arithmetic of decimals *)

Section BigArith.
Import Big.

Lemma pow10_add a b : pow10 (a + b) = (pow10 a * pow10 b)%positive.
Proof. induction a as [|a IH]; simpl; [done|]. rewrite IH. lia. Qed.

Lemma toQ_plus x y : (toQ (plus x y) == toQ x + toQ y)%Q.
Proof. unfold toQ, plus, Qeq, Qplus; simpl. rewrite pow10_add. lia. Qed.

Lemma toQ_minus x y : (toQ (minus x y) == toQ x - toQ y)%Q.
Proof.
  unfold toQ, minus, Qeq, Qminus, Qplus, Qopp; simpl. rewrite pow10_add. lia.
Qed.

Lemma toQ_zero : (toQ zero == 0)%Q.
Proof. reflexivity. Qed.

Lemma cmp_compare x y :
  cmp x y = match (toQ x ?= toQ y)%Q with Lt => -1 | Eq => 0 | Gt => 1 end.
Proof. reflexivity. Qed.

Lemma eq_true x y : eq x y = true <-> (toQ x == toQ y)%Q.
Proof.
  unfold eq. rewrite Z.eqb_eq, cmp_compare, Qeq_alt.
  destruct (toQ x ?= toQ y)%Q; split; (lia || congruence).
Qed.

Lemma lt_true x y : lt x y = true <-> (toQ x < toQ y)%Q.
Proof.
  unfold lt. rewrite Z.ltb_lt, cmp_compare, Qlt_alt.
  destruct (toQ x ?= toQ y)%Q; split; (lia || congruence).
Qed.

Lemma gt_true x y : gt x y = true <-> (toQ y < toQ x)%Q.
Proof.
  unfold gt. rewrite Z.ltb_lt, cmp_compare, Qgt_alt.
  destruct (toQ x ?= toQ y)%Q; split; (lia || congruence).
Qed.

Lemma lte_true x y : lte x y = true <-> (toQ x <= toQ y)%Q.
Proof.
  unfold lte. rewrite Z.leb_le, cmp_compare, Qle_alt.
  destruct (toQ x ?= toQ y)%Q; split; (lia || congruence).
Qed.

Lemma gte_true x y : gte x y = true <-> (toQ y <= toQ x)%Q.
Proof.
  unfold gte. rewrite Z.leb_le, cmp_compare, Qge_alt.
  destruct (toQ x ?= toQ y)%Q; split; (lia || congruence).
Qed.

Lemma eq_false x y : eq x y = false <-> ~ (toQ x == toQ y)%Q.
Proof. rewrite <- eq_true. destruct (eq x y); split; congruence. Qed.

Lemma lt_false x y : lt x y = false <-> (toQ y <= toQ x)%Q.
Proof.
  rewrite <- not_true_iff_false, lt_true. split; [apply Qnot_lt_le|apply Qle_not_lt].
Qed.

Lemma gt_false x y : gt x y = false <-> (toQ x <= toQ y)%Q.
Proof.
  rewrite <- not_true_iff_false, gt_true. split; [apply Qnot_lt_le|apply Qle_not_lt].
Qed.

Lemma lte_false x y : lte x y = false <-> (toQ y < toQ x)%Q.
Proof.
  rewrite <- not_true_iff_false, lte_true. split; [apply Qnot_le_lt|apply Qlt_not_le].
Qed.

Lemma gte_false x y : gte x y = false <-> (toQ x < toQ y)%Q.
Proof.
  rewrite <- not_true_iff_false, gte_true. split; [apply Qnot_le_lt|apply Qlt_not_le].
Qed.

Lemma cmp_neg x y : cmp x y < 0 <-> (toQ x < toQ y)%Q.
Proof.
  rewrite cmp_compare, Qlt_alt.
  destruct (toQ x ?= toQ y)%Q; split; (lia || congruence).
Qed.

End BigArith.

(** Turns the boolean tests on decimals among the hypotheses and the goal
    into statements on their values. *)
Ltac big_prop :=
  repeat match goal with
  | H : Big.eq _ _ = true |- _ => apply eq_true in H
  | H : Big.eq _ _ = false |- _ => apply eq_false in H
  | H : Big.lt _ _ = true |- _ => apply lt_true in H
  | H : Big.lt _ _ = false |- _ => apply lt_false in H
  | H : Big.gt _ _ = true |- _ => apply gt_true in H
  | H : Big.gt _ _ = false |- _ => apply gt_false in H
  | H : Big.lte _ _ = true |- _ => apply lte_true in H
  | H : Big.lte _ _ = false |- _ => apply lte_false in H
  | H : Big.gte _ _ = true |- _ => apply gte_true in H
  | H : Big.gte _ _ = false |- _ => apply gte_false in H
  | |- Big.eq _ _ = true => apply eq_true
  | |- Big.eq _ _ = false => apply eq_false
  | |- Big.lt _ _ = true => apply lt_true
  | |- Big.lt _ _ = false => apply lt_false
  | |- Big.gt _ _ = true => apply gt_true
  | |- Big.gt _ _ = false => apply gt_false
  | |- Big.lte _ _ = true => apply lte_true
  | |- Big.lte _ _ = false => apply lte_false
  | |- Big.gte _ _ = true => apply gte_true
  | |- Big.gte _ _ = false => apply gte_false
  end;
  repeat match goal with
  | H : context [Big.toQ (Big.minus ?x ?y)] |- _ => rewrite (toQ_minus x y) in H
  | H : context [Big.toQ (Big.plus ?x ?y)] |- _ => rewrite (toQ_plus x y) in H
  | |- context [Big.toQ (Big.minus ?x ?y)] => rewrite (toQ_minus x y)
  | |- context [Big.toQ (Big.plus ?x ?y)] => rewrite (toQ_plus x y)
  | H : context [Big.toQ Big.zero] |- _ => rewrite toQ_zero in H
  | |- context [Big.toQ Big.zero] => rewrite toQ_zero
  end.

Lemma minus_lt_nonzero x y :
  Big.lt x y = true -> Big.eq (Big.minus y x) Big.zero = false.
Proof. intros. big_prop. lra. Qed.

(** ** Decimals and their text *)

Section BigText.
Import Big.

Lemma digit_char_ok d :
  0 <= d < 10 -> is_digit (digit_char d) = true /\ digit_val (digit_char d) = d.
Proof.
  intros H.
  assert (d = 0 \/ d = 1 \/ d = 2 \/ d = 3 \/ d = 4 \/ d = 5 \/ d = 6 \/ d = 7
          \/ d = 8 \/ d = 9) as Hd by lia.
  repeat destruct Hd as [-> | Hd]; try subst d; done.
Qed.

Lemma digit_val_ok c :
  is_digit c = true -> 0 <= digit_val c < 10 /\ digit_char (digit_val c) = c.
Proof.
  unfold is_digit, digit_val, digit_char. intros H.
  apply andb_true_iff in H as [H1 H2].
  apply Nat.leb_le in H1, H2. split; [lia|].
  replace (Z.to_nat (Z.of_nat (nat_of_ascii c) - 48) + 48)%nat
    with (nat_of_ascii c) by lia.
  apply ascii_nat_embedding.
Qed.

Lemma digits_val_snoc l c : digits_val (l ++ [c]) = 10 * digits_val l + digit_val c.
Proof. unfold digits_val. by rewrite fold_left_app. Qed.

Lemma digits_val_nonneg l : Forall (fun c => is_digit c = true) l -> 0 <= digits_val l.
Proof.
  induction l as [|c l IH] using rev_ind; intros H; [done|].
  apply Forall_app in H as [H1 H2]. apply Forall_cons in H2 as [H2 _].
  rewrite digits_val_snoc. apply digit_val_ok in H2. specialize (IH H1). lia.
Qed.

Lemma digits_val_zeros n l :
  digits_val (repeat "0"%char n ++ l) = digits_val l.
Proof.
  unfold digits_val. rewrite fold_left_app.
  assert (fold_left (fun acc c => 10 * acc + digit_val c) (repeat "0"%char n) 0 = 0)
    as ->; [|done].
  induction n as [|n IH]; simpl; [done|]. exact IH.
Qed.

(** The digits of [n], by the usual recursion: [fuel] does not matter once
    it is large enough. *)
Lemma digits_of_acc fuel n acc :
  digits_of fuel n acc = digits_of fuel n [] ++ acc.
Proof.
  revert n acc. induction fuel as [|fuel IH]; intros n acc; simpl; [done|].
  destruct (n <? 10); [done|].
  rewrite IH, (IH _ [_]). by rewrite <- app_assoc.
Qed.

Lemma digits_of_spec fuel n :
  (0 < fuel)%nat ->
  0 <= n < 10 ^ Z.of_nat fuel ->
  Forall (fun c => is_digit c = true) (digits_of fuel n [])
  /\ digits_val (digits_of fuel n []) = n
  /\ digits_of fuel n [] <> [].
Proof.
  revert n. induction fuel as [|fuel IH]; intros n Hf Hn; [lia|].
  simpl. destruct (Z.ltb_spec n 10) as [Hlt | Hge].
  - destruct (digit_char_ok n) as [H1 H2]; [lia|].
    split; [by repeat constructor|]. split; [|done].
    unfold digits_val. simpl. lia.
  - rewrite digits_of_acc.
    assert (0 <= n / 10 < 10 ^ Z.of_nat fuel) as Hq.
    { split; [by apply Z.div_pos; lia|].
      apply Z.div_lt_upper_bound; [lia|].
      replace (Z.of_nat (S fuel)) with (Z.succ (Z.of_nat fuel)) in Hn by lia.
      rewrite Z.pow_succ_r in Hn by lia. lia. }
    assert (0 < fuel)%nat as Hf'.
    { destruct fuel; [simpl in Hn; lia | lia]. }
    destruct (IH _ Hf' Hq) as (H1 & H2 & H3).
    destruct (digit_char_ok (n mod 10)) as [H4 H5].
    { apply Z.mod_pos_bound. lia. }
    split; [apply Forall_app; split; [done | by repeat constructor]|].
    split.
    + rewrite digits_val_snoc, H2, H5. symmetry. apply Z.div_mod. lia.
    + by destruct (digits_of fuel (n / 10) []).
Qed.

Lemma to_digits_fuel n : 0 <= n -> n < 10 ^ Z.of_nat (S (Z.to_nat (Z.log2 n))).
Proof.
  intros Hn. destruct (Z.eq_dec n 0) as [-> | Hne]; [done|].
  pose proof (Z.log2_spec n ltac:(lia)) as [_ H].
  pose proof (Z.log2_nonneg n) as Hl.
  replace (Z.of_nat (S (Z.to_nat (Z.log2 n)))) with (Z.succ (Z.log2 n)) by lia.
  eapply Z.lt_le_trans; [exact H|].
  apply Z.pow_le_mono_l. lia.
Qed.

Lemma to_digits_spec n :
  0 <= n ->
  Forall (fun c => is_digit c = true) (to_digits n)
  /\ digits_val (to_digits n) = n
  /\ to_digits n <> [].
Proof.
  intros Hn. apply digits_of_spec; [lia|]. split; [done|]. by apply to_digits_fuel.
Qed.

Lemma span_digits_all l :
  Forall (fun c => is_digit c = true) l -> span_digits l = (l, []).
Proof. induction 1 as [|c l Hc _ IH]; simpl; [done|]. by rewrite Hc, IH. Qed.

Lemma span_digits_stop l c r :
  Forall (fun c => is_digit c = true) l -> is_digit c = false ->
  span_digits (l ++ c :: r) = (l, c :: r).
Proof.
  intros Hl Hc. induction Hl as [|x l Hx _ IH]; simpl.
  - by rewrite Hc.
  - by rewrite Hx, IH.
Qed.

Lemma forallb_digits l :
  Forall (fun c => is_digit c = true) l -> forallb is_digit l = true.
Proof. induction 1 as [|c l Hc _ IH]; simpl; [done|]. by rewrite Hc, IH. Qed.

Lemma padded_spec x :
  Forall (fun c => is_digit c = true) (padded x)
  /\ digits_val (padded x) = Z.abs (mant x)
  /\ (scale x < length (padded x))%nat.
Proof.
  unfold padded.
  destruct (to_digits_spec (Z.abs (mant x))) as (H1 & H2 & H3); [lia|].
  split; [|split].
  - apply Forall_app. split; [|done]. apply Forall_forall.
    intros c Hc. apply list_elem_of_In, repeat_spec in Hc. by subst c.
  - by rewrite digits_val_zeros.
  - rewrite length_app, repeat_length. lia.
Qed.

Lemma split_digits_head c l :
  is_digit c = true ->
  split (c :: l) = 
    let '(ip, rest) := span_digits (c :: l) in
    match ip, rest with
    | [], _ => None
    | _, [] => Some (false, ip, [])
    | _, c :: fp =>
        if Ascii.eqb c "." && forallb is_digit fp then Some (false, ip, fp) else None
    end.
Proof.
  intros Hc. unfold split.
  destruct (Ascii.eqb_spec c "-") as [-> | _]; [done|].
  destruct (Ascii.eqb_spec c "+") as [-> | _]; done.
Qed.

(** Reading back what [render] prints gives the decimal itself, scale
    included. *)
Lemma split_render x :
  split (render x)
  = Some (mant x <? 0,
          take (length (padded x) - scale x) (padded x),
          match scale x with
          | O => []
          | S _ => drop (length (padded x) - scale x) (padded x)
          end).
Proof.
  destruct (padded_spec x) as (Hd & Hv & Hlen).
  assert (Hbody :
    forall neg : bool,
      (let '(ip, rest) :=
         span_digits (match scale x with
                      | O => padded x
                      | S _ => take (length (padded x) - scale x) (padded x)
                               ++ "."%char :: drop (length (padded x) - scale x) (padded x)
                      end) in
       match ip, rest with
       | [], _ => None
       | _, [] => Some (neg, ip, [])
       | _, c :: fp =>
           if Ascii.eqb c "." && forallb is_digit fp then Some (neg, ip, fp) else None
       end)
      = Some (neg, take (length (padded x) - scale x) (padded x),
              match scale x with
              | O => []
              | S _ => drop (length (padded x) - scale x) (padded x)
              end)).
  { intros neg. destruct (scale x) as [|s] eqn:Hs.
    - rewrite Nat.sub_0_r, firstn_all, span_digits_all by done.
      destruct (padded x); [simpl in Hlen; lia | done].
    - rewrite span_digits_stop; [| |done].
      + destruct (take _ _) eqn:Ht.
        * apply (f_equal length) in Ht. rewrite length_take in Ht.
          simpl in Ht. lia.
        * rewrite <- Ht. simpl. rewrite forallb_digits; [done|].
          by apply Forall_drop.
      + by apply Forall_take. }
  unfold render.
  destruct (mant x <? 0) eqn:Hneg.
  - unfold split. simpl. apply Hbody.
  - specialize (Hbody false).
    destruct (scale x) as [|s] eqn:Hs.
    + destruct (padded x) as [|c l] eqn:Hp; [simpl in Hlen; lia|].
      apply Forall_cons in Hd as [Hc _]. rewrite split_digits_head by done.
      exact Hbody.
    + destruct (take (length (padded x) - S s) (padded x)) as [|c l] eqn:Ht.
      * apply (f_equal length) in Ht. rewrite length_take in Ht.
        simpl in Ht. lia.
      * assert (is_digit c = true) as Hc.
        { assert (Forall (fun c => is_digit c = true) (c :: l)) as Hf.
          { rewrite <- Ht. by apply Forall_take. }
          by apply Forall_cons in Hf as [? _]. }
        simpl. rewrite split_digits_head by done. exact Hbody.
Qed.

Lemma of_string_render x :
  of_string (string_of_list_ascii (render x)) = Some x.
Proof.
  unfold of_string. rewrite list_ascii_of_string_of_list_ascii, split_render.
  destruct (padded_spec x) as (Hd & Hv & Hlen).
  assert (take (length (padded x) - scale x) (padded x)
          ++ match scale x with
             | O => []
             | S _ => drop (length (padded x) - scale x) (padded x)
             end = padded x) as ->.
  { destruct (scale x).
    - by rewrite Nat.sub_0_r, firstn_all, app_nil_r.
    - apply take_drop. }
  rewrite Hv. destruct x as [m s]. simpl in *. f_equal. f_equal.
  - destruct (Z.ltb_spec m 0); lia.
  - destruct s; [done|]. rewrite length_drop. lia.
Qed.

Lemma toQ_strip s m : (toQ (strip s m) == toQ (mk m s))%Q.
Proof.
  revert m. induction s as [|s IH]; intros m; simpl; [done|].
  destruct (Z.eqb_spec (m mod 10) 0) as [E | E]; [|done].
  rewrite IH. unfold toQ, Qeq. simpl.
  pose proof (Z.div_mod m 10 ltac:(lia)). lia.
Qed.

Lemma toQ_normalise x : (toQ (normalise x) == toQ x)%Q.
Proof. destruct x as [m s]. apply toQ_strip. Qed.

(** Parsing the canonical text gives the decimal back, trailing zeros of
    the scale apart. *)
Lemma of_string_toString x : of_string (toString x) = Some (normalise x).
Proof. apply of_string_render. Qed.

End BigText.

(** ** The canonical text of a decimal string *)

Example canonical_1 : canonical "0.00230" = "0.0023"%string.
Proof. reflexivity. Qed.
Example canonical_2 : canonical "63500.00" = "63500"%string.
Proof. reflexivity. Qed.
Example canonical_3 : canonical "4.5000" = "4.5"%string.
Proof. reflexivity. Qed.
Example canonical_4 : canonical "-007.50" = "-7.5"%string.
Proof. reflexivity. Qed.
Example canonical_5 : canonical "-0.0" = "0"%string.
Proof. reflexivity. Qed.

Section Canonical.
Import Big.

Local Abbreviation digits l := (Forall (fun c => is_digit c = true) l).

Lemma digit_zero c : is_digit c = true -> digit_val c = 0 <-> c = "0"%char.
Proof.
  intros Hc. destruct (digit_val_ok c Hc) as [_ E]. split.
  - intros H. by rewrite H in E.
  - by intros ->.
Qed.

Lemma eqb_zero c : is_digit c = true -> Ascii.eqb c "0" = (digit_val c =? 0).
Proof.
  intros Hc. destruct (Ascii.eqb_spec c "0") as [-> | Hne]; [done|].
  symmetry. apply Z.eqb_neq. by rewrite digit_zero.
Qed.

(** *** Trailing zeros and the scale *)

Lemma strip_trailing_zeros_snoc l c :
  strip_trailing_zeros (l ++ [c])
  = if Ascii.eqb c "0" then strip_trailing_zeros l else l ++ [c].
Proof.
  induction l as [|x l IH]; simpl.
  - by destruct (Ascii.eqb c "0").
  - rewrite IH. destruct (Ascii.eqb c "0"); [done|].
    by destruct (l ++ [c]) eqn:E; [destruct l|].
Qed.

Lemma strip_digits (neg : bool) ip fp :
  digits ip -> digits fp ->
  strip (length fp) (if neg then - digits_val (ip ++ fp) else digits_val (ip ++ fp))
  = mk (if neg then - digits_val (ip ++ strip_trailing_zeros fp)
        else digits_val (ip ++ strip_trailing_zeros fp))
       (length (strip_trailing_zeros fp)).
Proof.
  intros Hip. induction fp as [|c fp IH] using rev_ind; intros Hfp; [done|].
  apply Forall_app in Hfp as [Hfp Hc]. apply Forall_cons in Hc as [Hc _].
  rewrite strip_trailing_zeros_snoc, length_app, Nat.add_1_r. simpl.
  rewrite app_assoc, digits_val_snoc.
  destruct (digit_val_ok c Hc) as [Hd _]. rewrite (eqb_zero c Hc).
  set (v := digits_val (ip ++ fp)) in *.
  assert (((if neg then - (10 * v + digit_val c) else 10 * v + digit_val c) mod 10
           =? 0) = (digit_val c =? 0)) as ->.
  { destruct (Z.eqb_spec (digit_val c) 0) as [E | E].
    - apply Z.eqb_eq. rewrite E, Z.add_0_r.
      destruct neg; [rewrite <- Z.mul_opp_r|]; rewrite Z.mul_comm;
        apply Z.mod_mul; lia.
    - apply Z.eqb_neq. intros H. apply E.
      assert ((10 * v + digit_val c) mod 10 = 0) as H'.
      { destruct neg; [|done].
        pose proof (Z.mod_divide (- (10 * v + digit_val c)) 10 ltac:(lia)) as [H1 _].
        specialize (H1 H). apply -> Z.divide_opp_r in H1.
        apply Z.mod_divide; [lia | exact H1]. }
      rewrite Z.add_comm, Z.mul_comm, Z.mod_add, Z.mod_small in H' by lia. done. }
  destruct (Z.eqb_spec (digit_val c) 0) as [E | E].
  - rewrite E, Z.add_0_r.
    assert ((if neg then - (10 * v) else 10 * v) / 10 = if neg then - v else v) as ->.
    { destruct neg; [rewrite <- Z.mul_opp_r|]; rewrite Z.mul_comm;
        apply Z.div_mul; lia. }
    by apply IH.
  - by rewrite length_app, Nat.add_1_r, app_assoc, digits_val_snoc.
Qed.

(** *** Leading zeros and the digits of a number *)

Lemma digits_val_zero l : digits l -> digits_val l = 0 <-> all_zeros l = true.
Proof.
  induction l as [|c l IH] using rev_ind; intros Hl; [done|].
  apply Forall_app in Hl as [Hl Hc]. apply Forall_cons in Hc as [Hc _].
  rewrite digits_val_snoc. unfold all_zeros in *. rewrite forallb_app. simpl.
  rewrite andb_true_r, andb_true_iff, <- (IH Hl), (eqb_zero c Hc), Z.eqb_eq.
  pose proof (digits_val_nonneg l Hl). destruct (digit_val_ok c Hc) as [? _]. lia.
Qed.

Lemma strip_leading_zeros_zeros l c :
  all_zeros l = true -> strip_leading_zeros (l ++ [c]) = [c].
Proof.
  induction l as [|x l IH]; intros H; [done|].
  simpl in H. apply andb_true_iff in H as [Hx Hl].
  change ((x :: l) ++ [c]) with (x :: (l ++ [c])).
  assert (exists y r, l ++ [c] = y :: r) as (y & r & E).
  { destruct l; simpl; eauto. }
  simpl. rewrite E, Hx, <- E. by apply IH.
Qed.

Lemma strip_leading_zeros_snoc l c :
  all_zeros l = false ->
  strip_leading_zeros (l ++ [c]) = strip_leading_zeros l ++ [c].
Proof.
  induction l as [|x l IH]; intros H; [done|].
  simpl in H. change ((x :: l) ++ [c]) with (x :: (l ++ [c])).
  assert (exists y r, l ++ [c] = y :: r) as (y & r & E).
  { destruct l; simpl; eauto. }
  simpl. rewrite E, <- E.
  destruct (Ascii.eqb x "0") eqn:Hx; simpl in H.
  - destruct l as [|z l]; [done|]. by rewrite IH.
  - by destruct l.
Qed.

Lemma digits_of_more f1 f2 n :
  0 <= n < 10 ^ Z.of_nat f1 -> (f1 <= f2)%nat -> (0 < f1)%nat ->
  digits_of f2 n [] = digits_of f1 n [].
Proof.
  revert f2 n. induction f1 as [|f1 IH]; intros f2 n Hn Hle Hpos; [lia|].
  destruct f2 as [|f2]; [lia|]. simpl.
  destruct (Z.ltb_spec n 10) as [Hlt | Hge]; [done|].
  rewrite (digits_of_acc f2), (digits_of_acc f1). f_equal.
  assert (0 < f1)%nat by (destruct f1; [simpl in Hn; lia | lia]).
  apply IH; [|lia|done]. split; [by apply Z.div_pos; lia|].
  apply Z.div_lt_upper_bound; [lia|].
  replace (Z.of_nat (S f1)) with (Z.succ (Z.of_nat f1)) in Hn by lia.
  rewrite Z.pow_succ_r in Hn by lia. lia.
Qed.

Lemma to_digits_small n : 0 <= n < 10 -> to_digits n = [digit_char n].
Proof.
  intros Hn. unfold to_digits. simpl.
  by destruct (Z.ltb_spec n 10); [|lia].
Qed.

Lemma to_digits_step n :
  10 <= n -> to_digits n = to_digits (n / 10) ++ [digit_char (n mod 10)].
Proof.
  intros Hn. unfold to_digits at 1. simpl.
  destruct (Z.ltb_spec n 10); [lia|]. rewrite digits_of_acc. f_equal.
  assert (1 <= n / 10) as Hq by (apply Z.div_le_lower_bound; lia).
  unfold to_digits. apply digits_of_more; [|  |lia].
  - split; [lia|]. apply to_digits_fuel. lia.
  - assert (2 * (n / 10) <= n) as H2.
    { pose proof (Z.mul_div_le n 10 ltac:(lia)). lia. }
    apply Z.log2_le_mono in H2. rewrite Z.log2_double in H2 by lia.
    pose proof (Z.log2_nonneg (n / 10)). lia.
Qed.

Lemma to_digits_val l :
  digits l -> l <> [] -> to_digits (digits_val l) = strip_leading_zeros l.
Proof.
  induction l as [|c l IH] using rev_ind; intros Hl Hne; [done|].
  apply Forall_app in Hl as [Hl Hc]. apply Forall_cons in Hc as [Hc _].
  rewrite digits_val_snoc.
  destruct (digit_val_ok c Hc) as [Hd Hch].
  pose proof (digits_val_nonneg l Hl) as Hv.
  destruct (all_zeros l) eqn:Hz.
  - rewrite strip_leading_zeros_zeros by done.
    apply (digits_val_zero l Hl) in Hz. rewrite Hz.
    rewrite to_digits_small by lia. f_equal. by rewrite Z.mul_0_r, Z.add_0_l.
  - rewrite strip_leading_zeros_snoc by done.
    assert (digits_val l <> 0) as Hnz.
    { intros E. apply (digits_val_zero l Hl) in E. congruence. }
    rewrite to_digits_step by lia.
    replace ((10 * digits_val l + digit_val c) / 10) with (digits_val l).
    2:{ symmetry. rewrite Z.mul_comm, Z.div_add_l by lia.
        rewrite Z.div_small by lia. lia. }
    replace ((10 * digits_val l + digit_val c) mod 10) with (digit_val c).
    2:{ symmetry. rewrite Z.add_comm, Z.mul_comm, Z.mod_add by lia.
        apply Z.mod_small. lia. }
    rewrite Hch, IH; [done | done |]. by intros ->.
Qed.

Lemma strip_leading_zeros_cons c l :
  l <> [] ->
  strip_leading_zeros (c :: l)
  = if Ascii.eqb c "0" then strip_leading_zeros l else c :: l.
Proof. by destruct l. Qed.

Lemma strip_leading_zeros_length l :
  (length (strip_leading_zeros l) <= length l)%nat.
Proof.
  induction l as [|c l IH]; [done|].
  destruct (decide (l = [])) as [-> | Hne]; [done|].
  rewrite strip_leading_zeros_cons by done.
  destruct (Ascii.eqb c "0"); [simpl; lia | done].
Qed.

Lemma strip_leading_zeros_pad l :
  repeat "0"%char (length l - length (strip_leading_zeros l))
  ++ strip_leading_zeros l = l.
Proof.
  induction l as [|c l IH]; [done|].
  destruct (decide (l = [])) as [-> | Hne]; [done|].
  rewrite strip_leading_zeros_cons by done.
  destruct (Ascii.eqb_spec c "0") as [-> | Hc].
  - pose proof (strip_leading_zeros_length l) as Hlen.
    replace (length ("0"%char :: l) - length (strip_leading_zeros l))%nat
      with (S (length l - length (strip_leading_zeros l)))
      by (simpl; lia).
    cbn [repeat app]. by rewrite IH.
  - by rewrite Nat.sub_diag.
Qed.

(** The digits that [render] lays out are the integer part without its
    leading zeros, then the fraction as it is. *)
Lemma strip_leading_zeros_padded ip fp :
  ip <> [] ->
  repeat "0"%char (S (length fp) - length (strip_leading_zeros (ip ++ fp)))
  ++ strip_leading_zeros (ip ++ fp)
  = strip_leading_zeros ip ++ fp.
Proof.
  induction ip as [|c ip IH]; intros Hne; [done|].
  destruct (decide (ip = [])) as [-> | Hip].
  - destruct (decide (fp = [])) as [-> | Hfp]; [done|].
    change ([c] ++ fp) with (c :: fp).
    rewrite strip_leading_zeros_cons by done.
    destruct (Ascii.eqb_spec c "0") as [-> | Hc].
    + pose proof (strip_leading_zeros_length fp) as Hlen.
      replace (S (length fp) - length (strip_leading_zeros fp))%nat
        with (S (length fp - length (strip_leading_zeros fp))) by lia.
      cbn [repeat app]. by rewrite strip_leading_zeros_pad.
    + simpl. by rewrite Nat.sub_diag.
  - change ((c :: ip) ++ fp) with (c :: (ip ++ fp)).
    rewrite !strip_leading_zeros_cons; [|done|by destruct ip].
    destruct (Ascii.eqb c "0"); [by apply IH|].
    simpl. rewrite length_app.
    replace (length fp - (length ip + length fp))%nat with O by lia.
    done.
Qed.

Lemma strip_leading_zeros_nonempty l : l <> [] -> strip_leading_zeros l <> [].
Proof.
  induction l as [|c l IH]; [done|]. intros _. simpl.
  destruct l as [|x l]; [done|].
  destruct (Ascii.eqb c "0"); [by apply IH | done].
Qed.

Lemma render_digits (neg : bool) ip fp :
  digits ip -> digits fp -> ip <> [] ->
  render (mk (if neg then - digits_val (ip ++ fp) else digits_val (ip ++ fp))
             (length fp))
  = (if neg && negb (all_zeros (ip ++ fp)) then ["-"%char] else [])
    ++ strip_leading_zeros ip
    ++ match fp with [] => [] | _ => "."%char :: fp end.
Proof.
  intros Hip Hfp Hne.
  assert (Hall : digits (ip ++ fp)) by by apply Forall_app.
  pose proof (digits_val_nonneg _ Hall) as Hv.
  assert (Habs : Z.abs (if neg then - digits_val (ip ++ fp) else digits_val (ip ++ fp))
                 = digits_val (ip ++ fp)) by (destruct neg; lia).
  assert (Hsign : ((if neg then - digits_val (ip ++ fp) else digits_val (ip ++ fp)) <? 0)
                  = neg && negb (all_zeros (ip ++ fp))).
  { destruct (all_zeros (ip ++ fp)) eqn:Hz.
    - apply (digits_val_zero _ Hall) in Hz. rewrite Hz, andb_false_r.
      by destruct neg.
    - assert (digits_val (ip ++ fp) <> 0) as Hnz.
      { intros E. apply (digits_val_zero _ Hall) in E. congruence. }
      rewrite andb_true_r. destruct neg; [apply Z.ltb_lt | apply Z.ltb_ge]; lia. }
  unfold render, padded. cbn [mant scale]. rewrite Hsign, Habs.
  rewrite to_digits_val; [|done|by destruct ip].
  rewrite strip_leading_zeros_padded by done.
  assert (Hk : (length (strip_leading_zeros ip ++ fp) - length fp)%nat
               = length (strip_leading_zeros ip)).
  { rewrite length_app. lia. }
  rewrite Hk, take_app_length, drop_app_length.
  destruct fp as [|y fp]; simpl length; cbv iota.
  - by destruct (andb _ _).
  - by destruct (andb _ _).
Qed.

Lemma split_digits l neg ip fp :
  split l = Some (neg, ip, fp) -> digits ip /\ digits fp /\ ip <> [].
Proof.
  assert (Hspan : forall l ds r, span_digits l = (ds, r) -> digits ds).
  { intros l0. induction l0 as [|c l0 IH]; intros ds r; simpl.
    - by intros [= <- <-].
    - destruct (is_digit c) eqn:Hc; [|by intros [= <- <-]].
      destruct (span_digits l0) as [ds0 r0]. intros [= <- <-].
      constructor; [done|]. by eapply IH. }
  unfold split.
  destruct (match l with
            | [] => (false, [])
            | c :: r => if Ascii.eqb c "-" then (true, r)
                        else if Ascii.eqb c "+" then (false, r) else (false, l)
            end) as [neg0 body].
  destruct (span_digits body) as [ip0 rest] eqn:Hs.
  apply Hspan in Hs.
  destruct ip0 as [|d ip0]; [done|].
  destruct rest as [|c fp0].
  - intros [= <- <- <-]. by repeat split.
  - destruct (Ascii.eqb c "." && forallb is_digit fp0) eqn:E; [|done].
    intros [= <- <- <-]. apply andb_true_iff in E as [_ E].
    split; [done|]. split; [|done].
    apply Forall_forall. intros x Hx. rewrite forallb_forall in E.
    apply E. by apply list_elem_of_In.
Qed.

(** The text of a decimal read from [D] is the canonical form of [D]. *)
Lemma toString_of_string D d :
  of_string D = Some d -> toString d = canonical D.
Proof.
  unfold of_string, canonical, toString, normalise.
  destruct (split (list_ascii_of_string D)) as [[[neg ip] fp]|] eqn:Hs; [|done].
  intros [= <-]. destruct (split_digits _ _ _ _ Hs) as (Hip & Hfp & Hne).
  f_equal. cbn [mant scale].
  rewrite (strip_digits neg ip fp Hip Hfp).
  assert (Hfp' : digits (strip_trailing_zeros fp)).
  { clear -Hfp. induction Hfp as [|c l Hc _ IH]; [done|]. simpl.
    destruct (strip_trailing_zeros l).
    - destruct (Ascii.eqb c "0"); [done | by repeat constructor].
    - by constructor. }
  rewrite (render_digits neg ip _ Hip Hfp' Hne).
  assert (all_zeros (ip ++ strip_trailing_zeros fp) = all_zeros (ip ++ fp)) as ->.
  { unfold all_zeros. rewrite !forallb_app. f_equal.
    clear. induction fp as [|c l IH]; [done|]. simpl.
    destruct (strip_trailing_zeros l) eqn:E.
    - simpl in IH. rewrite <- IH.
      destruct (Ascii.eqb c "0") eqn:Hc; simpl; [done | by rewrite Hc].
    - rewrite <- IH. done. }
  destruct (andb _ _), (strip_trailing_zeros fp); simpl;
    by rewrite ?app_nil_r.
Qed.

(** *** The canonical text depends on the value only *)

Lemma strip_reduced s m : reduced (strip s m).
Proof.
  revert m. induction s as [|s IH]; intros m; simpl; [by left|].
  destruct (Z.eqb_spec (m mod 10) 0); [apply IH | by right].
Qed.

Lemma reduced_eq x y :
  reduced x -> reduced y -> (toQ x == toQ y)%Q -> x = y.
Proof.
  assert (Hlt : forall x y, (scale x < scale y)%nat -> reduced y ->
                            (toQ x == toQ y)%Q -> False).
  { intros [m1 s1] [m2 s2] Hs [H0 | Hm] E; simpl in *; [lia|].
    unfold toQ, Qeq in E. simpl in E.
    replace s2 with (S (s2 - S s1) + s1)%nat in E by lia.
    rewrite pow10_add in E. simpl in E.
    apply Hm. assert (m2 = 10 * (m1 * Z.pos (pow10 (s2 - S s1)))) as -> by nia.
    rewrite Z.mul_comm. apply Z.mod_mul. lia. }
  intros Hx Hy E.
  destruct (Nat.lt_trichotomy (scale x) (scale y)) as [H | [H | H]].
  - exfalso. by eapply Hlt.
  - destruct x as [m1 s1], y as [m2 s2]. simpl in *. subst s2.
    unfold toQ, Qeq in E. simpl in E. f_equal. nia.
  - exfalso. eapply (Hlt y x); [done | done | by symmetry].
Qed.

Lemma normalise_eq x y : (toQ x == toQ y)%Q -> normalise x = normalise y.
Proof.
  intros E. apply reduced_eq; [apply strip_reduced | apply strip_reduced |].
  by rewrite !toQ_normalise.
Qed.

Lemma toString_eq x y : (toQ x == toQ y)%Q -> toString x = toString y.
Proof. intros E. unfold toString. by rewrite (normalise_eq x y E). Qed.

End Canonical.

(** ** The priority order of a queue *)

Lemma cmp_of_before s x y : cmp_of s x y < 0 <-> before s x y.
Proof.
  unfold before, cmp_of, OrderBook.bid_cmp, OrderBook.ask_cmp.
  destruct s; destruct (Big.eq (o_price x) (o_price y)) eqn:E; big_prop;
    rewrite ?cmp_neg; split; intros H;
    try (destruct H as [H | [H1 H2]]); try lra; try lia; try tauto;
    right; split; (lra || lia).
Qed.

Lemma before_trans s x y z : before s x y -> before s y z -> before s x z.
Proof.
  unfold before. destruct s; intros [H1 | [H1 H1']] [H2 | [H2 H2']];
    try (left; lra); right; split; (lra || lia).
Qed.

Lemma before_total s x y : o_ts x <> o_ts y -> before s x y \/ before s y x.
Proof.
  intros Hne. unfold before.
  destruct (Q_dec (Big.toQ (o_price x)) (Big.toQ (o_price y))) as [[H | H] | H];
    destruct s; try tauto.
  - destruct (decide (o_ts x < o_ts y)%nat).
    + left; right; split; [lra | lia].
    + right; right; split; [lra | lia].
  - destruct (decide (o_ts x < o_ts y)%nat).
    + left; right; split; [lra | lia].
    + right; right; split; [lra | lia].
Qed.

Lemma before_irrefl s x : ~ before s x x.
Proof. unfold before. destruct s; intros [H | [_ H]]; (lra || lia). Qed.

Lemma own_opposite s b : own (opposite s) b = OrderBook.bookSide s b.
Proof. by destruct s. Qed.

(** ** Queue operations *)

Lemma push_perm cmp o h : Heap.push cmp o h ≡ₚ o :: h.
Proof.
  induction h as [|x h IH]; simpl; [done|].
  destruct (cmp o x <=? 0); [done|]. rewrite IH. apply Permutation_swap.
Qed.

Lemma elem_of_push cmp o h x : x ∈ Heap.push cmp o h <-> x = o \/ x ∈ h.
Proof. rewrite push_perm. apply elem_of_cons. Qed.

Lemma cmp_of_zero s x y : cmp_of s x y = 0 -> o_ts x = o_ts y.
Proof.
  unfold cmp_of, OrderBook.bid_cmp, OrderBook.ask_cmp.
  destruct s; destruct (Big.eq (o_price x) (o_price y)) eqn:E; try lia;
    apply eq_false in E; intros H; exfalso; apply E;
    rewrite cmp_compare in H.
  - apply Qeq_sym, Qeq_alt. by destruct (_ ?= _)%Q.
  - apply Qeq_alt. by destruct (_ ?= _)%Q.
Qed.

Lemma push_sorted s o h :
  Forall (fun x => o_ts x <> o_ts o) h ->
  StronglySorted (fun x y => cmp_of s x y < 0) h ->
  StronglySorted (fun x y => cmp_of s x y < 0) (Heap.push (cmp_of s) o h).
Proof.
  induction h as [|x h IH]; intros Hts Hs; simpl.
  { repeat constructor. }
  apply Forall_cons in Hts as [Hx Hts].
  apply StronglySorted_inv in Hs as [Hs Hall].
  destruct (cmp_of s o x <=? 0) eqn:E.
  - apply Z.leb_le in E.
    assert (cmp_of s o x < 0) as E'.
    { destruct (Z.eq_dec (cmp_of s o x) 0) as [E0|]; [|lia].
      exfalso. apply Hx. symmetry. by apply (cmp_of_zero s). }
    clear E. rename E' into E. constructor; [by constructor|].
    constructor; [done|].
    eapply Forall_impl; [exact Hall|]. intros y Hy. simpl in *.
    apply cmp_of_before. apply cmp_of_before in E, Hy.
    eapply before_trans; eauto.
  - apply Z.leb_gt in E. constructor; [by apply IH|].
    apply Forall_forall. intros y Hy. apply elem_of_push in Hy as [-> | Hy].
    + apply cmp_of_before.
      destruct (before_total s x o Hx) as [H | H]; [done|].
      apply cmp_of_before in H. lia.
    + rewrite Forall_forall in Hall. by apply Hall.
Qed.

Lemma remove_sublist o h : Heap.remove o h `sublist_of` h.
Proof.
  induction h as [|x h IH]; simpl; [done|].
  destruct (same_order x o); [by apply sublist_cons | by apply sublist_skip].
Qed.

Lemma elem_of_remove o h x : x ∈ Heap.remove o h -> x ∈ h.
Proof. intros H. eapply elem_of_sublist; [exact H | apply remove_sublist]. Qed.

Lemma Forall_sublist {A} (P : A -> Prop) (l1 l2 : list A) :
  l1 `sublist_of` l2 -> Forall P l2 -> Forall P l1.
Proof.
  intros Hs Hall. apply Forall_forall. intros x Hx.
  rewrite Forall_forall in Hall. apply Hall. eapply elem_of_sublist; eauto.
Qed.

Lemma StronglySorted_sublist {A} (R : relation A) (l1 l2 : list A) :
  l1 `sublist_of` l2 -> StronglySorted R l2 -> StronglySorted R l1.
Proof.
  induction 1 as [|x l1 l2 Hs IH|x l1 l2 Hs IH]; intros H; [done| |].
  - apply StronglySorted_inv in H as [H Hall].
    constructor; [by apply IH|]. eapply Forall_sublist; eauto.
  - apply StronglySorted_inv in H as [H _]. by apply IH.
Qed.

Lemma remove_absent o h :
  Forall (fun x => o_ts x <> o_ts o) h -> Heap.remove o h = h.
Proof.
  induction 1 as [|x h Hx _ IH]; simpl; [done|].
  unfold same_order. destruct (Nat.eqb_spec (o_ts x) (o_ts o)); [done|].
  by rewrite IH.
Qed.

Lemma remove_app_l o h1 h2 :
  Exists (fun x => o_ts x = o_ts o) h1 ->
  Heap.remove o (h1 ++ h2) = Heap.remove o h1 ++ h2.
Proof.
  induction h1 as [|x h1 IH]; intros H; [by apply Exists_nil in H|].
  simpl. unfold same_order. destruct (Nat.eqb_spec (o_ts x) (o_ts o)); [done|].
  apply Exists_cons in H as [H | H]; [done|]. by rewrite IH.
Qed.

Lemma remove_app_r o h1 h2 :
  Forall (fun x => o_ts x <> o_ts o) h1 ->
  Heap.remove o (h1 ++ h2) = h1 ++ Heap.remove o h2.
Proof.
  induction 1 as [|x h1 Hx _ IH]; simpl; [done|].
  unfold same_order. destruct (Nat.eqb_spec (o_ts x) (o_ts o)); [done|].
  by rewrite IH.
Qed.

(** With distinct objects in the queue, what [remove] leaves is every
    object but the removed one. *)
Lemma elem_of_remove_iff o h x :
  NoDup (o_ts <$> h) ->
  x ∈ Heap.remove o h <-> x ∈ h /\ o_ts x <> o_ts o.
Proof.
  induction h as [|y h IH]; simpl; intros Hnd.
  { split; [intros H; by apply elem_of_nil in H | intros [H _]; by apply elem_of_nil in H]. }
  apply NoDup_cons in Hnd as [Hy Hnd].
  unfold same_order. destruct (Nat.eqb_spec (o_ts y) (o_ts o)) as [E | E].
  - rewrite elem_of_cons. split.
    + intros Hx. split; [by right|]. intros E'. apply Hy.
      rewrite E, <- E'. by apply list_elem_of_fmap_2.
    + intros [[-> | Hx] Hne]; [congruence | done].
  - rewrite !elem_of_cons, IH by done. split.
    + intros [-> | [? ?]]; [split; [by left | done] | split; [by right | done]].
    + intros [[-> | ?] ?]; [by left | by right].
Qed.

Lemma find_Some ref h o :
  Heap.find ref h = Some o -> o ∈ h /\ o_ts o = ref.
Proof.
  unfold Heap.find. intros H. apply find_some in H as [H1 H2].
  split; [by apply list_elem_of_In | by apply Nat.eqb_eq].
Qed.

Lemma find_None ref h :
  Heap.find ref h = None -> Forall (fun x => o_ts x <> ref) h.
Proof.
  unfold Heap.find. intros H. apply Forall_forall. intros x Hx E.
  apply list_elem_of_In in Hx.
  pose proof (find_none _ _ H x Hx) as H'. simpl in H'.
  apply Nat.eqb_neq in H'. done.
Qed.

(** ** One pass of the loop of [match] *)

Lemma priceOK_crosses incoming best :
  OrderBook.priceOK incoming best = true
  <-> crosses (o_side incoming) (o_price incoming) (o_price best).
Proof.
  unfold OrderBook.priceOK, crosses. destruct (o_side incoming).
  - apply gte_true.
  - apply lte_true.
Qed.

Lemma tradeQty_min incoming best :
  (Big.toQ (OrderBook.tradeQty incoming best)
   == Qmin (Big.toQ (o_remaining incoming)) (Big.toQ (o_remaining best)))%Q.
Proof.
  unfold OrderBook.tradeQty.
  destruct (Big.lt (o_remaining incoming) (o_remaining best)) eqn:E; big_prop.
  - symmetry. apply Q.min_l. lra.
  - symmetry. apply Q.min_r. lra.
Qed.

Lemma match_body_Some incoming b incoming' b' :
  OrderBook.match_body incoming b = Some (incoming', b') ->
  Forall (fun o => o_side o = opposite (o_side incoming))
         (OrderBook.bookSide (o_side incoming) b) ->
  exists best rest,
    OrderBook.bookSide (o_side incoming) b = best :: rest
    /\ Big.gt (o_remaining incoming) Big.zero = true
    /\ OrderBook.priceOK incoming best = true
    /\ incoming' = set_remaining incoming
         (Big.minus (o_remaining incoming) (OrderBook.tradeQty incoming best))
    /\ b' = after_pass incoming best rest b.
Proof.
  unfold OrderBook.match_body. intros H Hside.
  destruct (Big.gt (o_remaining incoming) Big.zero) eqn:Hgt; [|done].
  destruct (OrderBook.bookSide (o_side incoming) b) as [|best rest] eqn:Hb;
    [done|]. simpl in H.
  destruct (OrderBook.priceOK incoming best) eqn:Hok; [|done]. simpl in H.
  exists best, rest. apply Forall_cons in Hside as [Hs _].
  injection H as <- <-. repeat split; try done.
  unfold after_pass, OrderBook.remove, OrderBook.set_bookSide,
    OrderBook.push_trade, OrderBook.bookSide in *.
  destruct (o_side incoming) eqn:Hi; simpl in *; rewrite Hb; simpl;
    destruct (Big.eq _ Big.zero); simpl; rewrite ?Hs; simpl;
    unfold same_order; rewrite ?Nat.eqb_refl; done.
Qed.

Lemma match_body_None incoming b :
  OrderBook.match_body incoming b = None ->
  Big.gt (o_remaining incoming) Big.zero = false
  \/ OrderBook.bookSide (o_side incoming) b = []
  \/ exists best rest,
       OrderBook.bookSide (o_side incoming) b = best :: rest
       /\ OrderBook.priceOK incoming best = false.
Proof.
  unfold OrderBook.match_body. intros H.
  destruct (Big.gt (o_remaining incoming) Big.zero) eqn:Hgt; [|by left].
  destruct (OrderBook.bookSide (o_side incoming) b) as [|best rest] eqn:Hb;
    [by right; left|]. simpl in H.
  destruct (OrderBook.priceOK incoming best) eqn:Hok; [done|].
  right; right. by exists best, rest.
Qed.

Lemma after_pass_own incoming best rest b :
  own (o_side incoming) (after_pass incoming best rest b) = own (o_side incoming) b.
Proof. unfold after_pass. by destruct (o_side incoming). Qed.

Lemma after_pass_bookSide incoming best rest b :
  OrderBook.bookSide (o_side incoming) (after_pass incoming best rest b)
  = if Big.eq (Big.minus (o_remaining best) (OrderBook.tradeQty incoming best)) Big.zero
    then rest
    else set_remaining best
           (Big.minus (o_remaining best) (OrderBook.tradeQty incoming best)) :: rest.
Proof. unfold after_pass. by destruct (o_side incoming). Qed.

Lemma after_pass_seq incoming best rest b :
  seq (after_pass incoming best rest b) = seq b.
Proof. unfold after_pass. by destruct (o_side incoming). Qed.

Lemma after_pass_pair incoming best rest b :
  ob_pair (after_pass incoming best rest b) = ob_pair b.
Proof. unfold after_pass. by destruct (o_side incoming). Qed.

Lemma after_pass_trades incoming best rest b :
  trades (after_pass incoming best rest b)
  = trades b ++ [OrderBook.mkTradeOf (ob_pair b) incoming best].
Proof. unfold after_pass. by destruct (o_side incoming). Qed.

Lemma after_pass_idIndex incoming best rest b :
  idIndex (after_pass incoming best rest b)
  = if Big.eq (Big.minus (o_remaining best) (OrderBook.tradeQty incoming best)) Big.zero
    then delete (o_id best) (idIndex b)
    else idIndex b.
Proof. unfold after_pass. by destruct (o_side incoming). Qed.

(** ** Well-formedness is kept *)

Lemma NoDup_fmap_eq {A B} (f : A -> B) (l : list A) x y :
  NoDup (f <$> l) -> x ∈ l -> y ∈ l -> f x = f y -> x = y.
Proof.
  induction l as [|z l IH]; intros Hnd Hx Hy E.
  { by apply elem_of_nil in Hx. }
  rewrite fmap_cons in Hnd. apply NoDup_cons in Hnd as [Hz Hnd].
  apply elem_of_cons in Hx as [-> | Hx]; apply elem_of_cons in Hy as [-> | Hy].
  - done.
  - exfalso. apply Hz. rewrite E. by apply list_elem_of_fmap_2.
  - exfalso. apply Hz. rewrite <- E. by apply list_elem_of_fmap_2.
  - by apply IH.
Qed.

Lemma opposite_ne s s' : s' <> s -> s' = opposite s.
Proof. by destruct s, s'. Qed.

Lemma resting_perm s b : resting b ≡ₚ own s b ++ OrderBook.bookSide s b.
Proof. unfold resting. destruct s; simpl; [done | apply Permutation_app_comm]. Qed.

Lemma elem_of_resting s b x :
  x ∈ resting b <-> x ∈ own s b \/ x ∈ OrderBook.bookSide s b.
Proof. rewrite (resting_perm s). apply elem_of_app. Qed.

Lemma book_wf_gen b : book_wf b <-> wf_gen b.
Proof.
  unfold book_wf. split.
  - intros (Hsb & Hsa & Hob & Hoa & Hnd & Hts & Hx & Hix & Hpos).
    split; try done.
    + by destruct s.
    + by destruct s.
    + intros s x y Hxin Hyin. rewrite Forall_forall in Hx.
      destruct s; simpl in *.
      * specialize (Hx x Hxin). rewrite Forall_forall in Hx.
        specialize (Hx y Hyin). big_prop. lra.
      * specialize (Hx y Hyin). rewrite Forall_forall in Hx.
        specialize (Hx x Hxin). big_prop. lra.
    + intros i ref Hi. specialize (Hix i ref Hi). simpl in Hix.
      apply Exists_exists in Hix as (o & Ho & H1 & H2). by exists o.
  - intros [Hs Hso Hnd Hts Hx Hix Hpos].
    repeat split; try done; try apply (Hs BUY); try apply (Hs SELL);
      try apply (Hso BUY); try apply (Hso SELL).
    + apply Forall_forall. intros x Hxin. apply Forall_forall. intros y Hyin.
      specialize (Hx BUY x y Hxin Hyin). simpl in Hx. big_prop. lra.
    + intros i ref Hi. simpl. apply Exists_exists.
      destruct (Hix i ref Hi) as (o & Ho & H1 & H2). by exists o.
Qed.

Lemma wf_new pair : book_wf (OrderBook.new pair).
Proof. compute_done. Qed.

Lemma wf_next_seq b : book_wf b -> book_wf (OrderBook.next_seq b).
Proof.
  rewrite !book_wf_gen. intros [Hs Hso Hnd Hts Hx Hix Hpos].
  split; try done. simpl.
  eapply Forall_impl; [exact Hts|]. simpl. lia.
Qed.

Lemma wf_side_elem b s x : wf_gen b -> x ∈ own s b -> o_side x = s.
Proof.
  intros Hwf Hx. pose proof (wf_side b Hwf s) as H.
  rewrite Forall_forall in H. by apply H.
Qed.

Lemma wf_own_side b x : wf_gen b -> x ∈ resting b -> x ∈ own (o_side x) b.
Proof.
  intros Hwf Hx. apply (elem_of_resting (o_side x)) in Hx as [Hx | Hx]; [done|].
  rewrite <- own_opposite in Hx. apply (wf_side_elem _ _ _ Hwf) in Hx.
  by destruct (o_side x).
Qed.

(** [remove] takes a resting order out of its queue and its id out of the
    index. *)
Lemma remove_own order b s :
  own s (OrderBook.remove order b)
  = if decide (s = o_side order) then Heap.remove order (own s b) else own s b.
Proof. unfold OrderBook.remove. by destruct s, (o_side order). Qed.

Lemma remove_resting order b :
  wf_gen b -> order ∈ resting b ->
  resting (OrderBook.remove order b) = Heap.remove order (resting b).
Proof.
  intros Hwf Hin. pose proof (wf_own_side _ _ Hwf Hin) as Hown.
  unfold resting, OrderBook.remove.
  destruct (o_side order) eqn:Hs; simpl in *.
  - rewrite remove_app_l; [done|]. apply Exists_exists. by exists order.
  - rewrite remove_app_r; [done|]. apply Forall_forall. intros x Hx E.
    assert (x = order) as ->.
    { eapply (NoDup_fmap_eq o_ts); [apply (wf_nodup _ Hwf) | | done | done].
      unfold resting. apply elem_of_app. by left. }
    apply (wf_side_elem _ BUY _ Hwf) in Hx. congruence.
Qed.

Lemma wf_remove order b :
  book_wf b -> order ∈ resting b -> book_wf (OrderBook.remove order b).
Proof.
  rewrite !book_wf_gen. intros Hwf Hin.
  pose proof (remove_resting _ _ Hwf Hin) as Hrest.
  destruct Hwf as [Hs Hso Hnd Hts Hx Hix Hpos].
  assert (Hsub : forall s, own s (OrderBook.remove order b) `sublist_of` own s b).
  { intros s. rewrite remove_own. case_decide; [apply remove_sublist | done]. }
  split.
  - intros s. eapply Forall_sublist; [apply Hsub | apply Hs].
  - intros s. eapply StronglySorted_sublist; [apply Hsub | apply Hso].
  - rewrite Hrest. eapply sublist_NoDup; [exact Hnd|].
    apply fmap_sublist, remove_sublist.
  - rewrite Hrest. eapply Forall_sublist; [apply remove_sublist|].
    unfold OrderBook.remove. by destruct (o_side order).
  - intros s x y Hxin Hyin. apply Hx.
    + eapply elem_of_sublist; [exact Hxin | apply Hsub].
    + rewrite <- own_opposite in *.
      eapply elem_of_sublist; [exact Hyin | apply Hsub].
  - intros i ref Hi.
    assert (idIndex b !! i = Some ref /\ i <> o_id order) as [Hi' Hne].
    { unfold OrderBook.remove in Hi.
      destruct (o_side order); simpl in Hi;
        apply lookup_delete_Some in Hi as [? ?]; done. }
    destruct (Hix i ref Hi') as (o & Ho & H1 & H2).
    exists o. split; [|done]. rewrite Hrest.
    apply elem_of_remove_iff; [done|]. split; [done|]. intros E.
    assert (o = order) by (eapply (NoDup_fmap_eq o_ts); eauto). congruence.
  - rewrite Hrest. eapply Forall_sublist; [apply remove_sublist | done].
Qed.

Lemma bookSide_opposite s b : OrderBook.bookSide (opposite s) b = own s b.
Proof. by destruct s. Qed.

Lemma crosses_opposite s p q : crosses (opposite s) p q <-> crosses s q p.
Proof. by destruct s. Qed.

(** Either [s'] is [s] or it is the other side. *)
Ltac side_cases s' s :=
  let H := fresh in
  destruct (decide (s' = s)) as [-> | H]; [|apply opposite_ne in H as ->].

Lemma cmp_of_set_remaining s x r y :
  cmp_of s (set_remaining x r) y = cmp_of s x y.
Proof. by destruct s. Qed.

Lemma book_wf_ext b b' :
  bids b' = bids b -> asks b' = asks b -> idIndex b' = idIndex b ->
  seq b' = seq b -> book_wf b -> book_wf b'.
Proof. unfold book_wf, resting. by intros -> -> -> ->. Qed.

(** A partial fill of the top of a queue: only [remaining] of one resting
    order changes, and stays positive. *)
Lemma wf_update_top s b b2 best rest r :
  book_wf b ->
  OrderBook.bookSide s b = best :: rest ->
  own s b2 = own s b ->
  OrderBook.bookSide s b2 = set_remaining best r :: rest ->
  idIndex b2 = idIndex b -> seq b2 = seq b ->
  Big.gt r Big.zero = true ->
  book_wf b2.
Proof.
  rewrite !book_wf_gen. intros [Hs Hso Hnd Hts Hx Hix Hpos] Hb Hown Hb2 Hidx Hseq Hr.
  assert (Hperm : resting b ≡ₚ own s b ++ best :: rest).
  { by rewrite (resting_perm s), Hb. }
  assert (Hperm2 : resting b2 ≡ₚ own s b ++ set_remaining best r :: rest).
  { by rewrite (resting_perm s), Hown, Hb2. }
  assert (Hopp : own (opposite s) b = best :: rest) by by rewrite own_opposite.
  assert (Hopp2 : own (opposite s) b2 = set_remaining best r :: rest)
    by by rewrite own_opposite.
  split.
  - intros s'. side_cases s' s.
    + rewrite Hown. apply Hs.
    + rewrite Hopp2. specialize (Hs (opposite s)). rewrite Hopp in Hs.
      apply Forall_cons in Hs as [? ?]. by constructor.
  - intros s'. side_cases s' s.
    + rewrite Hown. apply Hso.
    + rewrite Hopp2. specialize (Hso (opposite s)). rewrite Hopp in Hso.
      apply StronglySorted_inv in Hso as [Hso1 Hso2].
      constructor; [done|]. eapply Forall_impl; [exact Hso2|].
      intros y. simpl. by rewrite cmp_of_set_remaining.
  - rewrite Hperm2. rewrite Hperm in Hnd.
    by rewrite !fmap_app, !fmap_cons in *.
  - rewrite Hperm2, Hseq. rewrite Hperm in Hts.
    apply Forall_app in Hts as [H1 H2]. apply Forall_cons in H2 as [H2 H3].
    apply Forall_app. split; [done|]. by constructor.
  - intros s' x y. side_cases s' s.
    + rewrite Hown, Hb2. intros Hxin [-> | Hyin]%elem_of_cons.
      * simpl. apply Hx; [done|]. rewrite Hb. by left.
      * apply Hx; [done|]. rewrite Hb. by right.
    + rewrite Hopp2, bookSide_opposite, Hown.
      intros [-> | Hxin]%elem_of_cons Hyin.
      * simpl. apply Hx; [|by rewrite bookSide_opposite]. rewrite Hopp. by left.
      * apply Hx; [|by rewrite bookSide_opposite]. rewrite Hopp. by right.
  - intros i ref Hi. rewrite Hidx in Hi.
    destruct (Hix i ref Hi) as (o & Ho & H1 & H2).
    rewrite Hperm in Ho. apply elem_of_app in Ho as [Ho | Ho].
    + exists o. split; [|done]. rewrite Hperm2. apply elem_of_app. by left.
    + apply elem_of_cons in Ho as [-> | Ho].
      * exists (set_remaining best r). split; [|done].
        rewrite Hperm2. apply elem_of_app. right. by left.
      * exists o. split; [|done]. rewrite Hperm2. apply elem_of_app.
        right. by right.
  - rewrite Hperm2. rewrite Hperm in Hpos.
    apply Forall_app in Hpos as [H1 H2]. apply Forall_cons in H2 as [H2 H3].
    apply Forall_app. split; [done|]. by constructor.
Qed.

Lemma add_own order b s :
  own s (OrderBook.add order b)
  = if decide (s = o_side order)
    then Heap.push (cmp_of s) order (own s b) else own s b.
Proof. unfold OrderBook.add. by destruct s, (o_side order). Qed.

Lemma add_resting order b : resting (OrderBook.add order b) ≡ₚ order :: resting b.
Proof.
  unfold resting, OrderBook.add. destruct (o_side order); simpl.
  - by rewrite push_perm.
  - rewrite push_perm. by rewrite Permutation_middle.
Qed.

(** [add] of a new object that does not cross the other side. *)
Lemma wf_add order b :
  book_wf b ->
  Forall (fun o => o_ts o <> o_ts order) (resting b) ->
  (o_ts order < seq b)%nat ->
  Big.gt (o_remaining order) Big.zero = true ->
  (forall y, y ∈ OrderBook.bookSide (o_side order) b ->
             ~ crosses (o_side order) (o_price order) (o_price y)) ->
  book_wf (OrderBook.add order b).
Proof.
  rewrite !book_wf_gen. intros [Hs Hso Hnd Hts Hx Hix Hpos] Hfresh Hlt Hgt Hnc.
  assert (Hseq : seq (OrderBook.add order b) = seq b).
  { unfold OrderBook.add. by destruct (o_side order). }
  assert (Hidx : idIndex (OrderBook.add order b)
                 = <[o_id order := o_ts order]> (idIndex b)).
  { unfold OrderBook.add. by destruct (o_side order). }
  split.
  - intros s. rewrite add_own. case_decide as E; [|apply Hs].
    rewrite push_perm. constructor; [done | apply Hs].
  - intros s. rewrite add_own. case_decide as E; [|apply Hso].
    apply push_sorted; [|apply Hso].
    eapply Forall_sublist; [|exact Hfresh].
    unfold resting. destruct s; [apply sublist_inserts_r | apply sublist_inserts_l];
      done.
  - rewrite add_resting, fmap_cons. apply NoDup_cons. split; [|done].
    intros (o & E & Ho)%list_elem_of_fmap. rewrite Forall_forall in Hfresh.
    by apply (Hfresh o Ho).
  - rewrite add_resting, Hseq. by constructor.
  - intros s x y. rewrite <- (own_opposite s), !add_own.
    destruct (decide (s = o_side order)) as [-> | Hne].
    + rewrite decide_False by by destruct (o_side order).
      rewrite own_opposite. intros [-> | Hxin]%elem_of_push Hyin.
      * by apply Hnc.
      * by apply Hx.
    + apply opposite_ne in Hne as ->.
      rewrite decide_True by by destruct (o_side order).
      intros Hxin [-> | Hyin]%elem_of_push.
      * rewrite crosses_opposite. apply Hnc. by rewrite <- own_opposite.
      * apply Hx; [done|]. by rewrite <- own_opposite.
  - intros i ref. rewrite Hidx. intros Hi.
    apply lookup_insert_Some in Hi as [[<- <-] | [Hne Hi]].
    + exists order. split; [|done]. rewrite add_resting. by left.
    + destruct (Hix i ref Hi) as (o & Ho & H1 & H2). exists o.
      split; [|done]. rewrite add_resting. by right.
  - rewrite add_resting. by constructor.
Qed.

Lemma wf_bookSide_side b s :
  book_wf b ->
  Forall (fun o => o_side o = opposite s) (OrderBook.bookSide s b).
Proof.
  rewrite book_wf_gen. intros Hwf. rewrite <- own_opposite. apply (wf_side _ Hwf).
Qed.

(** When the top of the opposite queue is filled, the pass ends in [remove]
    of that order; the trade list apart, the book is [remove best b]. *)
Lemma after_pass_filled incoming best rest b :
  OrderBook.bookSide (o_side incoming) b = best :: rest ->
  o_side best = opposite (o_side incoming) ->
  Big.eq (Big.minus (o_remaining best) (OrderBook.tradeQty incoming best)) Big.zero
    = true ->
  let b' := after_pass incoming best rest b in
  bids b' = bids (OrderBook.remove best b)
  /\ asks b' = asks (OrderBook.remove best b)
  /\ idIndex b' = idIndex (OrderBook.remove best b)
  /\ seq b' = seq (OrderBook.remove best b).
Proof.
  intros Hb Hs Hf. unfold after_pass, OrderBook.remove. rewrite Hf, Hs.
  unfold OrderBook.bookSide in Hb.
  destruct (o_side incoming); simpl in *; rewrite Hb; simpl;
    unfold same_order; rewrite Nat.eqb_refl; done.
Qed.

(** A pass that does not fill the top of the queue uses up the incoming
    order, and leaves a positive remaining at the top. *)
Lemma partial_fill incoming best :
  Big.eq (Big.minus (o_remaining best) (OrderBook.tradeQty incoming best)) Big.zero
    = false ->
  (Big.toQ (Big.minus (o_remaining incoming) (OrderBook.tradeQty incoming best))
   == 0)%Q
  /\ Big.gt (Big.minus (o_remaining best) (OrderBook.tradeQty incoming best))
            Big.zero = true.
Proof.
  unfold OrderBook.tradeQty.
  destruct (Big.lt (o_remaining incoming) (o_remaining best)) eqn:E; intros H;
    big_prop; split; big_prop; lra.
Qed.

Lemma pass_wf incoming b incoming' b' :
  book_wf b ->
  OrderBook.match_body incoming b = Some (incoming', b') ->
  book_wf b'.
Proof.
  intros Hwf H.
  destruct (match_body_Some _ _ _ _ H (wf_bookSide_side _ _ Hwf))
    as (best & rest & Hb & Hgt & Hok & -> & ->).
  pose proof (wf_bookSide_side _ (o_side incoming) Hwf) as Hside.
  rewrite Hb in Hside. apply Forall_cons in Hside as [Hside _].
  destruct (Big.eq (Big.minus (o_remaining best)
                      (OrderBook.tradeQty incoming best)) Big.zero) eqn:Hf.
  - destruct (after_pass_filled _ _ _ _ Hb Hside Hf) as (H1 & H2 & H3 & H4).
    eapply book_wf_ext; [exact H1 | exact H2 | exact H3 | exact H4 |].
    apply wf_remove; [done|].
    apply (elem_of_resting (o_side incoming)). right. rewrite Hb. by left.
  - destruct (partial_fill _ _ Hf) as [_ Hpos].
    eapply (wf_update_top (o_side incoming)); [exact Hwf | exact Hb | | | | |exact Hpos].
    + apply after_pass_own.
    + by rewrite after_pass_bookSide, Hf.
    + by rewrite after_pass_idIndex, Hf.
    + apply after_pass_seq.
Qed.

(** What a pass never changes of the incoming order. *)
Lemma pass_incoming incoming b incoming' b' :
  OrderBook.match_body incoming b = Some (incoming', b') ->
  o_id incoming' = o_id incoming /\ o_account incoming' = o_account incoming
  /\ o_side incoming' = o_side incoming /\ o_pair incoming' = o_pair incoming
  /\ o_price incoming' = o_price incoming /\ o_ts incoming' = o_ts incoming.
Proof.
  unfold OrderBook.match_body. intros H.
  destruct (_ && _); [|done].
  destruct (Heap.peek _); [|done]. destruct (negb _); [done|].
  by injection H as <- <-.
Qed.

(** Each pass either fills the top of the opposite queue, which then loses
    it, or leaves the incoming order with nothing to trade. *)
Lemma pass_progress incoming b incoming' b' :
  book_wf b ->
  OrderBook.match_body incoming b = Some (incoming', b') ->
  (Heap.size (OrderBook.bookSide (o_side incoming) b)
   = S (Heap.size (OrderBook.bookSide (o_side incoming') b')))
  \/ ((Big.toQ (o_remaining incoming') == 0)%Q
      /\ Heap.size (OrderBook.bookSide (o_side incoming') b')
         = Heap.size (OrderBook.bookSide (o_side incoming) b)).
Proof.
  intros Hwf H.
  destruct (match_body_Some _ _ _ _ H (wf_bookSide_side _ _ Hwf))
    as (best & rest & Hb & Hgt & Hok & -> & ->).
  simpl. rewrite after_pass_bookSide, Hb.
  destruct (Big.eq (Big.minus (o_remaining best)
                      (OrderBook.tradeQty incoming best)) Big.zero) eqn:Hf.
  - by left.
  - right. split; [|done]. by destruct (partial_fill _ _ Hf).
Qed.

Lemma match_body_spent incoming b :
  (Big.toQ (o_remaining incoming) == 0)%Q ->
  OrderBook.match_body incoming b = None.
Proof.
  intros H. unfold OrderBook.match_body.
  assert (Big.gt (o_remaining incoming) Big.zero = false) as ->; [|done].
  big_prop. lra.
Qed.

Lemma match_body_empty incoming b :
  OrderBook.bookSide (o_side incoming) b = [] ->
  OrderBook.match_body incoming b = None.
Proof.
  intros H. unfold OrderBook.match_body. rewrite H. simpl.
  by rewrite andb_false_r.
Qed.

Lemma match_loop_left fuel incoming b :
  OrderBook.match_body incoming b = None ->
  OrderBook.match_loop fuel incoming b = Some (O, incoming, b).
Proof. intros H. destruct fuel; simpl; by rewrite H. Qed.

(** The loop needs no more passes than the opposite queue has orders. *)
Lemma match_loop_fuel fuel incoming b :
  book_wf b ->
  (Heap.size (OrderBook.bookSide (o_side incoming) b) <= fuel)%nat ->
  exists n incoming' b',
    OrderBook.match_loop fuel incoming b = Some (n, incoming', b')
    /\ (n <= Heap.size (OrderBook.bookSide (o_side incoming) b))%nat.
Proof.
  revert incoming b. induction fuel as [|fuel IH]; intros incoming b Hwf Hle.
  - exists O, incoming, b. split; [|lia]. apply match_loop_left, match_body_empty.
    destruct (OrderBook.bookSide _ b); [done | simpl in Hle; lia].
  - destruct (OrderBook.match_body incoming b) as [[incoming1 b1]|] eqn:Hbody.
    + simpl. rewrite Hbody.
      pose proof (pass_wf _ _ _ _ Hwf Hbody) as Hwf1.
      destruct (pass_progress _ _ _ _ Hwf Hbody) as [Hsz | [Hz Hsz]].
      * destruct (IH incoming1 b1 Hwf1) as (n & i & r & Hl & Hn); [lia|].
        rewrite Hl. exists (S n), i, r. split; [done | lia].
      * rewrite (match_loop_left _ _ _ (match_body_spent _ _ Hz)).
        exists 1%nat, incoming1, b1. split; [done|].
        destruct (match_body_Some _ _ _ _ Hbody (wf_bookSide_side _ _ Hwf))
          as (best & rest & Hb & _). rewrite Hb. simpl. lia.
    + exists O, incoming, b. split; [|lia]. by apply match_loop_left.
Qed.

Lemma match_loop_passes fuel incoming b n incoming' b' :
  OrderBook.match_loop fuel incoming b = Some (n, incoming', b') ->
  OrderBook.passes n incoming b = Some (incoming', b')
  /\ OrderBook.match_body incoming' b' = None.
Proof.
  revert incoming b n. induction fuel as [|fuel IH]; intros incoming b n; simpl.
  - destruct (OrderBook.match_body incoming b) as [[i1 b1]|] eqn:Hbody; [done|].
    by intros [= <- <- <-].
  - destruct (OrderBook.match_body incoming b) as [[i1 b1]|] eqn:Hbody.
    + destruct (OrderBook.match_loop fuel i1 b1) as [[[m i] r]|] eqn:Hl; [|done].
      intros [= <- <- <-]. simpl. rewrite Hbody. by apply IH.
    + by intros [= <- <- <-].
Qed.

(** [match] is the loop run to its end. *)
Lemma match_spec incoming b :
  book_wf b ->
  exists n,
    OrderBook.passes n incoming b = Some (OrderBook.match_ incoming b)
    /\ OrderBook.match_body (OrderBook.match_ incoming b).1
                            (OrderBook.match_ incoming b).2 = None
    /\ (n <= Heap.size (OrderBook.bookSide (o_side incoming) b))%nat.
Proof.
  intros Hwf. unfold OrderBook.match_.
  destruct (match_loop_fuel (Heap.size (OrderBook.bookSide (o_side incoming) b))
              incoming b Hwf) as (n & i & r & Hl & Hn); [done|].
  rewrite Hl. exists n. apply match_loop_passes in Hl as [H1 H2]. done.
Qed.

(** ** The state of the loop *)

(** After a pass the resting orders are those of before, one of them with
    another [remaining] perhaps, one of them gone perhaps. *)
Lemma pass_resting incoming b incoming' b' o' :
  book_wf b ->
  OrderBook.match_body incoming b = Some (incoming', b') ->
  o' ∈ resting b' ->
  exists o, o ∈ resting b /\ o' = set_remaining o (o_remaining o').
Proof.
  intros Hwf H.
  destruct (match_body_Some _ _ _ _ H (wf_bookSide_side _ _ Hwf))
    as (best & rest & Hb & _ & _ & _ & ->).
  rewrite (elem_of_resting (o_side incoming)), after_pass_own, after_pass_bookSide.
  assert (Hsame : forall o, o = set_remaining o (o_remaining o)) by by intros [].
  intros [Ho | Ho].
  - exists o'. split; [|done]. apply (elem_of_resting (o_side incoming)). by left.
  - destruct (Big.eq _ Big.zero).
    + exists o'. split; [|done]. apply (elem_of_resting (o_side incoming)).
      right. rewrite Hb. by right.
    + apply elem_of_cons in Ho as [-> | Ho].
      * exists best. split; [|done]. apply (elem_of_resting (o_side incoming)).
        right. rewrite Hb. by left.
      * exists o'. split; [|done]. apply (elem_of_resting (o_side incoming)).
        right. rewrite Hb. by right.
Qed.

Lemma pass_loop_inv incoming b incoming' b' :
  loop_inv incoming b ->
  OrderBook.match_body incoming b = Some (incoming', b') ->
  loop_inv incoming' b'.
Proof.
  intros [Hwf Hseq Hts] H.
  destruct (pass_incoming _ _ _ _ H) as (_ & _ & _ & _ & _ & Ets).
  split; [by eapply pass_wf| |].
  - rewrite Ets.
    destruct (match_body_Some _ _ _ _ H (wf_bookSide_side _ _ Hwf))
      as (best & rest & _ & _ & _ & _ & ->).
    by rewrite after_pass_seq.
  - apply Forall_forall. intros o' Ho'.
    destruct (pass_resting _ _ _ _ _ Hwf H Ho') as (o & Ho & ->).
    rewrite Forall_forall in Hts. rewrite Ets. simpl. by apply Hts.
Qed.

Lemma passes_loop_inv k incoming b incoming' b' :
  loop_inv incoming b ->
  OrderBook.passes k incoming b = Some (incoming', b') ->
  loop_inv incoming' b'.
Proof.
  revert incoming b. induction k as [|k IH]; intros incoming b Hinv; simpl.
  - by intros [= <- <-].
  - destruct (OrderBook.match_body incoming b) as [[i1 b1]|] eqn:Hbody; [|done].
    apply IH. by eapply pass_loop_inv.
Qed.

Lemma passes_incoming k incoming b incoming' b' :
  OrderBook.passes k incoming b = Some (incoming', b') ->
  o_id incoming' = o_id incoming /\ o_account incoming' = o_account incoming
  /\ o_side incoming' = o_side incoming /\ o_pair incoming' = o_pair incoming
  /\ o_price incoming' = o_price incoming /\ o_ts incoming' = o_ts incoming.
Proof.
  revert incoming b. induction k as [|k IH]; intros incoming b; simpl.
  - by intros [= <- <-].
  - destruct (OrderBook.match_body incoming b) as [[i1 b1]|] eqn:Hbody; [|done].
    intros H. apply IH in H. apply pass_incoming in Hbody.
    destruct H as (-> & -> & -> & -> & -> & ->). done.
Qed.

Lemma start_loop_inv raw b order b0 :
  book_wf b -> OrderBook.start raw b = Some (order, b0) -> loop_inv order b0.
Proof.
  unfold OrderBook.start. intros Hwf H.
  destruct (type_op raw); [|done].
  destruct (Big.of_string (limit_price raw)); [|done].
  destruct (Big.of_string (amount raw)); [|done].
  injection H as <- <-. split; [by apply wf_next_seq | done |].
  simpl. apply book_wf_gen in Hwf. apply (wf_ts _ Hwf).
Qed.

Lemma process_create raw b order b0 :
  OrderBook.start raw b = Some (order, b0) ->
  OrderBook.process raw b
  = Some (if Big.gt (o_remaining (OrderBook.match_ order b0).1) Big.zero
          then OrderBook.add (OrderBook.match_ order b0).1 (OrderBook.match_ order b0).2
          else (OrderBook.match_ order b0).2).
Proof.
  unfold OrderBook.start, OrderBook.process. intros H.
  destruct (type_op raw); [|done].
  destruct (Big.of_string (limit_price raw)); [|done].
  destruct (Big.of_string (amount raw)); [|done].
  injection H as <- <-.
  destruct (OrderBook.match_ _ _) as [o' b']. simpl.
  by destruct (Big.gt (o_remaining o') Big.zero).
Qed.

Lemma process_create_None raw b :
  type_op raw = CREATE -> OrderBook.start raw b = None ->
  OrderBook.process raw b = None.
Proof.
  unfold OrderBook.start, OrderBook.process. intros -> H.
  destruct (Big.of_string (limit_price raw)); [|done].
  destruct (Big.of_string (amount raw)); done.
Qed.

(** ** [process] keeps a book well formed *)

(** In a queue in comparator order, an order that does not cross the top
    crosses no order of the queue. *)
Lemma not_crosses_top s p best rest y :
  StronglySorted (fun x y => cmp_of (opposite s) x y < 0) (best :: rest) ->
  ~ crosses s p (o_price best) ->
  y ∈ best :: rest ->
  ~ crosses s p (o_price y).
Proof.
  intros Hs Hn [-> | Hy]%elem_of_cons; [done|].
  apply StronglySorted_inv in Hs as [_ Hall]. rewrite Forall_forall in Hall.
  specialize (Hall y Hy). simpl in Hall. apply cmp_of_before in Hall.
  unfold before, crosses in *. destruct s; simpl in *; lra.
Qed.

Lemma loop_end_uncrossed incoming b y :
  book_wf b ->
  OrderBook.match_body incoming b = None ->
  Big.gt (o_remaining incoming) Big.zero = true ->
  y ∈ OrderBook.bookSide (o_side incoming) b ->
  ~ crosses (o_side incoming) (o_price incoming) (o_price y).
Proof.
  intros Hwf H Hgt Hy.
  apply match_body_None in H as [H | [H | (best & rest & Hb & Hok)]].
  - congruence.
  - rewrite H in Hy. by apply elem_of_nil in Hy.
  - apply book_wf_gen in Hwf. pose proof (wf_sorted _ Hwf (opposite (o_side incoming))) as Hs.
    rewrite own_opposite, Hb in Hs. rewrite Hb in Hy.
    eapply not_crosses_top; [exact Hs | | exact Hy].
    rewrite <- priceOK_crosses. congruence.
Qed.

(** An index entry points into a queue. *)
Lemma index_live b i ref :
  book_wf b -> idIndex b !! i = Some ref ->
  exists found,
    OrderBook.deref ref b = Some found
    /\ found ∈ resting b /\ o_ts found = ref /\ o_id found = i.
Proof.
  intros Hwf Hi. apply book_wf_gen in Hwf.
  destruct (wf_index _ Hwf i ref Hi) as (o & Ho & Hts & Hid).
  assert (Hfound : forall found,
            OrderBook.deref ref b = Some found ->
            found ∈ resting b /\ o_ts found = ref).
  { unfold OrderBook.deref, resting. intros found Hd.
    destruct (Heap.find ref (bids b)) eqn:E.
    - injection Hd as ->. apply find_Some in E as [? ?].
      split; [apply elem_of_app; by left | done].
    - apply find_Some in Hd as [? ?]. split; [apply elem_of_app; by right | done]. }
  destruct (OrderBook.deref ref b) as [found|] eqn:Hd.
  - destruct (Hfound found eq_refl) as [H1 H2]. exists found.
    repeat split; try done.
    assert (found = o) as ->; [|done].
    eapply (NoDup_fmap_eq o_ts); [apply (wf_nodup _ Hwf) | done | done | congruence].
  - exfalso. unfold OrderBook.deref in Hd.
    destruct (Heap.find ref (bids b)) eqn:E1; [done|].
    apply find_None in E1, Hd. rewrite Forall_forall in E1, Hd.
    unfold resting in Ho. apply elem_of_app in Ho as [Ho | Ho].
    + by apply (E1 o Ho).
    + by apply (Hd o Ho).
Qed.

Lemma process_delete raw b :
  book_wf b -> type_op raw = DELETE ->
  OrderBook.process raw b
  = Some (match idIndex b !! order_id raw with
          | Some ref =>
              match OrderBook.deref ref b with
              | Some found => OrderBook.remove found b
              | None => b
              end
          | None => b
          end).
Proof.
  intros Hwf Hop. unfold OrderBook.process. rewrite Hop.
  destruct (idIndex b !! order_id raw) as [ref|] eqn:Hi; [|done].
  destruct (index_live _ _ _ Hwf Hi) as (found & -> & _). done.
Qed.

Lemma match_loop_inv order b0 :
  loop_inv order b0 ->
  loop_inv (OrderBook.match_ order b0).1 (OrderBook.match_ order b0).2.
Proof.
  intros Hinv. destruct (match_spec order b0 (li_wf _ _ Hinv)) as (n & Hp & _).
  destruct (OrderBook.match_ order b0) as [o' b']. simpl.
  by eapply passes_loop_inv.
Qed.

Lemma process_wf raw b b' :
  book_wf b -> OrderBook.process raw b = Some b' -> book_wf b'.
Proof.
  intros Hwf H. destruct (type_op raw) eqn:Hop.
  - destruct (OrderBook.start raw b) as [[order b0]|] eqn:Hstart.
    + rewrite (process_create _ _ _ _ Hstart) in H. injection H as <-.
      pose proof (match_loop_inv _ _ (start_loop_inv _ _ _ _ Hwf Hstart)) as Hinv.
      destruct (match_spec order b0) as (n & _ & Hend & _).
      { by apply (li_wf _ _ (start_loop_inv _ _ _ _ Hwf Hstart)). }
      destruct (OrderBook.match_ order b0) as [o' b1]. simpl in *.
      destruct Hinv as [Hwf1 Hseq Hts].
      destruct (Big.gt (o_remaining o') Big.zero) eqn:Hgt; [|done].
      apply wf_add; try done.
      * eapply Forall_impl; [exact Hts|]. simpl. lia.
      * lia.
      * intros y Hy. by eapply loop_end_uncrossed.
    + by rewrite process_create_None in H.
  - rewrite process_delete in H by done. injection H as <-.
    destruct (idIndex b !! order_id raw) as [ref|] eqn:Hi; [|done].
    destruct (index_live _ _ _ Hwf Hi) as (found & -> & Hin & _).
    by apply wf_remove.
Qed.

Lemma process_all_wf cmds b b' :
  book_wf b -> OrderBook.process_all cmds b = Some b' -> book_wf b'.
Proof.
  revert b. induction cmds as [|raw cmds IH]; intros b Hwf; simpl.
  - by intros [= <-].
  - destruct (OrderBook.process raw b) as [b1|] eqn:Hp; [|done].
    apply IH. by eapply process_wf.
Qed.

(** ** Books of the engine *)

Lemma get_set_eq pair b m : MatcherEngine.get pair (MatcherEngine.set pair b m) = Some b.
Proof.
  induction m as [|[k v] m IH]; simpl.
  - by rewrite String.eqb_refl.
  - destruct (String.eqb k pair) eqn:E; simpl; rewrite E; done.
Qed.

Lemma get_set_ne pair pair' b m :
  pair <> pair' ->
  MatcherEngine.get pair' (MatcherEngine.set pair b m) = MatcherEngine.get pair' m.
Proof.
  intros Hne. induction m as [|[k v] m IH]; simpl.
  - destruct (String.eqb_spec pair pair'); done.
  - destruct (String.eqb_spec k pair) as [-> | E]; simpl.
    + destruct (String.eqb_spec pair pair'); done.
    + destruct (String.eqb_spec k pair'); done.
Qed.

Lemma set_get_same pair b m :
  MatcherEngine.get pair m = Some b -> MatcherEngine.set pair b m = m.
Proof.
  induction m as [|[k v] m IH]; simpl; [done|].
  destruct (String.eqb_spec k pair) as [-> | E].
  - by intros [= ->].
  - intros H. by rewrite IH.
Qed.

Lemma book_of_get pair e b :
  MatcherEngine.get pair (books e) = Some b -> book_of pair e = b.
Proof. unfold book_of, MatcherEngine.bookFor. by intros ->. Qed.

Lemma book_of_new pair e :
  MatcherEngine.get pair (books e) = None -> book_of pair e = OrderBook.new pair.
Proof. unfold book_of, MatcherEngine.bookFor. by intros ->. Qed.

Lemma ingest_Some raw e e' :
  MatcherEngine.ingest raw e = Some e' ->
  exists b',
    OrderBook.process raw (book_of (r_pair raw) e) = Some b'
    /\ MatcherEngine.get (r_pair raw) (books e') = Some b'
    /\ forall pair, pair <> r_pair raw ->
         MatcherEngine.get pair (books e') = MatcherEngine.get pair (books e).
Proof.
  unfold MatcherEngine.ingest, book_of, MatcherEngine.bookFor.
  destruct (MatcherEngine.get (r_pair raw) (books e)) as [b|] eqn:Hg; simpl.
  - destruct (OrderBook.process raw b) as [b'|]; [|done]. intros [= <-].
    exists b'. simpl. split; [done|]. split; [apply get_set_eq|].
    intros pair Hne. by apply get_set_ne.
  - destruct (OrderBook.process raw (OrderBook.new (r_pair raw))) as [b'|]; [|done].
    intros [= <-]. exists b'. simpl. split; [done|]. split; [apply get_set_eq|].
    intros pair Hne. rewrite !get_set_ne; done.
Qed.

(** An invariant of the books that [process] keeps and a fresh book has holds
    of every book of a run. *)
Lemma run_from_books (P : string -> OrderBook -> Prop) cmds e e' :
  (forall pair, P pair (OrderBook.new pair)) ->
  (forall raw b b', P (r_pair raw) b -> OrderBook.process raw b = Some b' ->
                    P (r_pair raw) b') ->
  (forall pair b, MatcherEngine.get pair (books e) = Some b -> P pair b) ->
  MatcherEngine.run_from e cmds = Some e' ->
  forall pair b, MatcherEngine.get pair (books e') = Some b -> P pair b.
Proof.
  intros Hnew Hstep. revert e. induction cmds as [|raw cmds IH]; intros e He; simpl.
  - by intros [= <-].
  - destruct (MatcherEngine.ingest raw e) as [e1|] eqn:Hi; [|done].
    apply IH. intros pair b Hg.
    destruct (ingest_Some _ _ _ Hi) as (b' & Hp & Hg' & Hother).
    destruct (decide (pair = r_pair raw)) as [-> | Hne].
    + assert (b = b') as -> by congruence.
      eapply Hstep; [|exact Hp].
      destruct (MatcherEngine.get (r_pair raw) (books e)) as [b0|] eqn:Hg0.
      * rewrite (book_of_get _ _ _ Hg0). by apply He.
      * rewrite (book_of_new _ _ Hg0). apply Hnew.
    + rewrite Hother in Hg by done. by apply He.
Qed.

(** Every book of a run is well formed. *)
Lemma run_wf cmds e pair b :
  MatcherEngine.run cmds = Some e ->
  MatcherEngine.get pair (books e) = Some b -> book_wf b.
Proof.
  intros Hrun. revert pair b.
  eapply (run_from_books (fun _ b => book_wf b)); [| | |exact Hrun].
  - intros pair. apply wf_new.
  - intros raw b b'. apply process_wf.
  - intros pair b. done.
Qed.

Lemma run_book_of_wf cmds e pair :
  MatcherEngine.run cmds = Some e -> book_wf (book_of pair e).
Proof.
  intros Hrun. destruct (MatcherEngine.get pair (books e)) as [b|] eqn:Hg.
  - rewrite (book_of_get _ _ _ Hg). by eapply run_wf.
  - rewrite (book_of_new _ _ Hg). apply wf_new.
Qed.

(** The states of [matching] satisfy the invariant of the loop. *)
Lemma matching_loop_inv cmds raw k incoming b :
  MatcherEngine.matching cmds raw k = Some (incoming, b) -> loop_inv incoming b.
Proof.
  unfold MatcherEngine.matching.
  destruct (MatcherEngine.run cmds) as [e|] eqn:Hrun; [|done].
  destruct (OrderBook.start raw _) as [[order b0]|] eqn:Hstart; [|done].
  intros Hp. eapply passes_loop_inv; [|exact Hp].
  eapply start_loop_inv; [|exact Hstart]. by eapply run_book_of_wf.
Qed.

(** ** Induction over a run *)

(** A pair that a command named has its book. *)
Lemma run_from_has_books pre cmds e e' :
  (forall c, c ∈ pre -> is_Some (MatcherEngine.get (r_pair c) (books e))) ->
  MatcherEngine.run_from e cmds = Some e' ->
  forall c, c ∈ pre ++ cmds -> is_Some (MatcherEngine.get (r_pair c) (books e')).
Proof.
  revert pre e. induction cmds as [|raw cmds IH]; intros pre e He; simpl.
  - intros [= <-] c Hc. rewrite app_nil_r in Hc. by apply He.
  - destruct (MatcherEngine.ingest raw e) as [e1|] eqn:Hi; [|done].
    intros Hrun c Hc.
    replace (pre ++ raw :: cmds) with ((pre ++ [raw]) ++ cmds) in Hc
      by by rewrite <- app_assoc.
    eapply IH; [|exact Hrun|exact Hc].
    clear c Hc. intros c Hc.
    destruct (ingest_Some _ _ _ Hi) as (b' & Hp & Hg' & Hoth).
    destruct (decide (r_pair c = r_pair raw)) as [E | Hne].
    + rewrite E, Hg'. by eexists.
    + rewrite Hoth by done.
      apply elem_of_app in Hc as [Hc | Hc%list_elem_of_singleton]; [by apply He|].
      by subst c.
Qed.

Lemma run_has_book cmds e c :
  MatcherEngine.run cmds = Some e -> c ∈ cmds ->
  is_Some (MatcherEngine.get (r_pair c) (books e)).
Proof.
  intros Hrun Hc. eapply (run_from_has_books [] cmds); [|exact Hrun|exact Hc].
  intros c' Hc'. by apply elem_of_nil in Hc'.
Qed.

Lemma run_from_app e cmds1 cmds2 :
  MatcherEngine.run_from e (cmds1 ++ cmds2)
  = match MatcherEngine.run_from e cmds1 with
    | Some e1 => MatcherEngine.run_from e1 cmds2
    | None => None
    end.
Proof.
  revert e. induction cmds1 as [|raw cmds1 IH]; intros e; simpl; [done|].
  destruct (MatcherEngine.ingest raw e); [apply IH | done].
Qed.

Lemma run_snoc pre raw e e' :
  MatcherEngine.run pre = Some e -> MatcherEngine.ingest raw e = Some e' ->
  MatcherEngine.run (pre ++ [raw]) = Some e'.
Proof.
  unfold MatcherEngine.run. intros Hrun Hi. rewrite run_from_app, Hrun.
  simpl. by rewrite Hi.
Qed.

(** An invariant of a book and of the commands ingested so far: it holds of
    a fresh book when no command has named the pair yet, [process] keeps it
    for the book of the pair of the command, and a command of another pair
    does not break it. *)
Lemma run_prefix (P : list RawOrder -> string -> OrderBook -> Prop) :
  (forall pre pair,
     (forall c, c ∈ pre -> r_pair c <> pair) -> P pre pair (OrderBook.new pair)) ->
  (forall pre raw e b',
     MatcherEngine.run pre = Some e ->
     P pre (r_pair raw) (book_of (r_pair raw) e) ->
     OrderBook.process raw (book_of (r_pair raw) e) = Some b' ->
     P (pre ++ [raw]) (r_pair raw) b') ->
  (forall pre raw pair b,
     pair <> r_pair raw -> P pre pair b -> P (pre ++ [raw]) pair b) ->
  forall cmds e,
    MatcherEngine.run cmds = Some e ->
    forall pair b, MatcherEngine.get pair (books e) = Some b -> P cmds pair b.
Proof.
  intros Hnew Hstep Hother.
  assert (Hgen : forall cmds pre e e',
    MatcherEngine.run pre = Some e ->
    (forall pair b, MatcherEngine.get pair (books e) = Some b -> P pre pair b) ->
    MatcherEngine.run_from e cmds = Some e' ->
    forall pair b, MatcherEngine.get pair (books e') = Some b ->
                   P (pre ++ cmds) pair b).
  { induction cmds as [|raw cmds IH]; intros pre e e' Hpre He; simpl.
    - intros [= <-] pair b Hg. rewrite app_nil_r. by apply He.
    - destruct (MatcherEngine.ingest raw e) as [e1|] eqn:Hi; [|done].
      intros Hrun pair b Hg.
      replace (pre ++ raw :: cmds) with ((pre ++ [raw]) ++ cmds)
        by by rewrite <- app_assoc.
      eapply IH; [by eapply run_snoc| |exact Hrun|exact Hg].
      clear pair b Hg. intros pair b Hg.
      destruct (ingest_Some _ _ _ Hi) as (b' & Hp & Hg' & Hoth).
      destruct (decide (pair = r_pair raw)) as [-> | Hne].
      + assert (b = b') as -> by congruence.
        eapply Hstep; [exact Hpre | | exact Hp].
        destruct (MatcherEngine.get (r_pair raw) (books e)) as [b0|] eqn:Hg0.
        * rewrite (book_of_get _ _ _ Hg0). by apply He.
        * rewrite (book_of_new _ _ Hg0). apply Hnew. intros c Hc E.
          destruct (run_has_book _ _ _ Hpre Hc) as [b0 Hb0]. congruence.
      + rewrite Hoth in Hg by done. apply Hother; [done | by apply He]. }
  intros cmds e Hrun pair b Hg.
  apply (Hgen cmds [] MatcherEngine.new e); [done | done | exact Hrun | exact Hg].
Qed.

(** An invariant of the loop of [match] holds when [match] returns. *)
Lemma passes_ind (L : BookOrder -> OrderBook -> Prop) k incoming b incoming' b' :
  (forall i1 b1 i2 b2,
     loop_inv i1 b1 -> L i1 b1 -> OrderBook.match_body i1 b1 = Some (i2, b2) ->
     L i2 b2) ->
  loop_inv incoming b -> L incoming b ->
  OrderBook.passes k incoming b = Some (incoming', b') ->
  L incoming' b'.
Proof.
  intros Hstep. revert incoming b.
  induction k as [|k IH]; intros incoming b Hinv HL; simpl.
  - by intros [= <- <-].
  - destruct (OrderBook.match_body incoming b) as [[i1 b1]|] eqn:Hbody; [|done].
    apply IH; [by eapply pass_loop_inv | by eapply Hstep].
Qed.

(** [process] of a CREATE: the loop, from the state [start] gives, to a
    state in which the loop is left; then [add] if something remains. *)
Lemma process_create_inv (L : BookOrder -> OrderBook -> Prop) raw b b' :
  book_wf b ->
  type_op raw = CREATE ->
  OrderBook.process raw b = Some b' ->
  (forall order b0, OrderBook.start raw b = Some (order, b0) -> L order b0) ->
  (forall i1 b1 i2 b2,
     loop_inv i1 b1 -> L i1 b1 -> OrderBook.match_body i1 b1 = Some (i2, b2) ->
     L i2 b2) ->
  exists order b0 order' b1,
    OrderBook.start raw b = Some (order, b0)
    /\ loop_inv order' b1 /\ L order' b1
    /\ OrderBook.match_body order' b1 = None
    /\ b' = if Big.gt (o_remaining order') Big.zero
            then OrderBook.add order' b1 else b1.
Proof.
  intros Hwf Hop Hp Hstart Hstep.
  destruct (OrderBook.start raw b) as [[order b0]|] eqn:Hs.
  - rewrite (process_create _ _ _ _ Hs) in Hp. injection Hp as <-.
    pose proof (start_loop_inv _ _ _ _ Hwf Hs) as Hinv.
    destruct (match_spec order b0 (li_wf _ _ Hinv)) as (n & Hn & Hend & _).
    destruct (OrderBook.match_ order b0) as [o' b1]. simpl in *.
    exists order, b0, o', b1. split; [done|].
    split; [by eapply passes_loop_inv|].
    split; [|done]. eapply passes_ind; eauto.
  - by rewrite process_create_None in Hp.
Qed.

Lemma start_order raw b order b0 :
  OrderBook.start raw b = Some (order, b0) ->
  type_op raw = CREATE
  /\ o_id order = order_id raw /\ o_side order = r_side raw
  /\ o_pair order = r_pair raw /\ o_account order = account_id raw
  /\ Big.of_string (limit_price raw) = Some (o_price order)
  /\ Big.of_string (amount raw) = Some (o_remaining order)
  /\ o_ts order = seq b /\ b0 = OrderBook.next_seq b.
Proof.
  unfold OrderBook.start. intros H.
  destruct (type_op raw); [|done].
  destruct (Big.of_string (limit_price raw)); [|done].
  destruct (Big.of_string (amount raw)); [|done].
  by injection H as <- <-.
Qed.

(** ** The keys of the engine *)

Lemma set_keys pair b m :
  fst <$> MatcherEngine.set pair b m
  = match MatcherEngine.get pair m with
    | Some _ => fst <$> m
    | None => (fst <$> m) ++ [pair]
    end.
Proof.
  induction m as [|[k v] m IH]; [done|].
  cbn [MatcherEngine.set MatcherEngine.get].
  destruct (String.eqb_spec k pair) as [-> | E]; [done|].
  rewrite fmap_cons, IH. by destruct (MatcherEngine.get pair m).
Qed.

Lemma set_none pair v m :
  MatcherEngine.get pair m = None -> MatcherEngine.set pair v m = m ++ [(pair, v)].
Proof.
  induction m as [|[k w] m IH]; simpl; [done|].
  destruct (String.eqb_spec k pair); [done|]. intros H. by rewrite IH.
Qed.

Lemma set_last pair v v' m :
  MatcherEngine.get pair m = None ->
  MatcherEngine.set pair v' (m ++ [(pair, v)]) = m ++ [(pair, v')].
Proof.
  induction m as [|[k w] m IH]; simpl.
  - by rewrite String.eqb_refl.
  - destruct (String.eqb_spec k pair); [done|]. intros H. by rewrite IH.
Qed.

Lemma get_None_keys pair m :
  MatcherEngine.get pair m = None -> pair ∉ (fst <$> m).
Proof.
  induction m as [|[k v] m IH]; simpl; intros H.
  - apply not_elem_of_nil.
  - destruct (String.eqb_spec k pair) as [-> | E]; [done|].
    apply not_elem_of_cons. split; [done | by apply IH].
Qed.

Lemma get_elem pair b m :
  NoDup (fst <$> m) -> (pair, b) ∈ m -> MatcherEngine.get pair m = Some b.
Proof.
  induction m as [|[k v] m IH]; simpl; intros Hnd Hin.
  - by apply elem_of_nil in Hin.
  - apply NoDup_cons in Hnd as [Hk Hnd].
    apply elem_of_cons in Hin as [[= <- <-] | Hin].
    + by rewrite String.eqb_refl.
    + destruct (String.eqb_spec k pair) as [-> | E]; [|by apply IH].
      exfalso. apply Hk. apply list_elem_of_fmap. by exists (pair, b).
Qed.

Lemma elem_get pair b m :
  MatcherEngine.get pair m = Some b -> (pair, b) ∈ m.
Proof.
  induction m as [|[k v] m IH]; simpl; [done|].
  destruct (String.eqb_spec k pair) as [-> | E].
  - intros [= ->]. by left.
  - intros H. right. by apply IH.
Qed.

Lemma run_from_keys cmds e e' :
  NoDup (fst <$> books e) ->
  MatcherEngine.run_from e cmds = Some e' ->
  NoDup (fst <$> books e').
Proof.
  revert e. induction cmds as [|raw cmds IH]; intros e Hnd; simpl.
  - by intros [= <-].
  - destruct (MatcherEngine.ingest raw e) as [e1|] eqn:Hi; [|done].
    apply IH. unfold MatcherEngine.ingest, MatcherEngine.bookFor in Hi.
    destruct (MatcherEngine.get (r_pair raw) (books e)) as [b|] eqn:Hg.
    + destruct (OrderBook.process raw b); [|done]. injection Hi as <-.
      simpl. by rewrite set_keys, Hg.
    + destruct (OrderBook.process raw _); [|done]. injection Hi as <-.
      simpl. rewrite set_keys, get_set_eq, set_keys, Hg.
      apply NoDup_app. split; [done|]. split; [|apply NoDup_singleton].
      intros x Hx ->%list_elem_of_singleton. by apply get_None_keys in Hg.
Qed.

Lemma run_keys cmds e :
  MatcherEngine.run cmds = Some e -> NoDup (fst <$> books e).
Proof. apply run_from_keys. simpl. apply NoDup_nil_2. Qed.

(** A trade of the output is a trade of one book. *)
Lemma finish_trades cmds e t :
  MatcherEngine.run cmds = Some e ->
  t ∈ (MatcherEngine.finish e).2 ->
  exists pair b, MatcherEngine.get pair (books e) = Some b /\ t ∈ trades b.
Proof.
  intros Hrun Ht. simpl in Ht. apply list_elem_of_In, in_flat_map in Ht as (b & Hb & Ht).
  apply list_elem_of_In, list_elem_of_fmap in Hb as ([pair b0] & -> & Hb).
  exists pair, b0. split; [|by apply list_elem_of_In].
  apply get_elem; [by eapply run_keys | done].
Qed.

(** ** Where orders and trades come from *)

Lemma made_by_set_remaining c o r : made_by c (set_remaining o r) <-> made_by c o.
Proof. done. Qed.

Lemma trade_of_later cmds raw maker taker p t :
  trade_of cmds maker taker p t -> trade_of (cmds ++ [raw]) maker taker p t.
Proof.
  intros ((pre & mid & post & ->) & H). split; [|done].
  exists pre, mid, (post ++ [raw]).
  rewrite <- app_assoc. simpl. by rewrite <- app_assoc.
Qed.

Lemma remove_trades order b : trades (OrderBook.remove order b) = trades b.
Proof. unfold OrderBook.remove. by destruct (o_side order). Qed.

Lemma remove_pair order b : ob_pair (OrderBook.remove order b) = ob_pair b.
Proof. unfold OrderBook.remove. by destruct (o_side order). Qed.

Lemma add_trades order b : trades (OrderBook.add order b) = trades b.
Proof. unfold OrderBook.add. by destruct (o_side order). Qed.

Lemma add_pair order b : ob_pair (OrderBook.add order b) = ob_pair b.
Proof. unfold OrderBook.add. by destruct (o_side order). Qed.

Lemma provenance_step pre raw b b' :
  book_wf b -> provenance pre (r_pair raw) b ->
  OrderBook.process raw b = Some b' ->
  provenance (pre ++ [raw]) (r_pair raw) b'.
Proof.
  intros Hwf (Hpair & Hrest & Htr) Hp.
  assert (Hrest' : forall o, o ∈ resting b ->
            exists c, c ∈ pre ++ [raw] /\ made_by c o /\ r_pair c = r_pair raw).
  { intros o Ho. destruct (Hrest o Ho) as (c & Hc & Hm). exists c.
    split; [apply elem_of_app; by left | done]. }
  assert (Htr' : forall t, t ∈ trades b ->
            t_pair t = r_pair raw
            /\ exists maker taker p, trade_of (pre ++ [raw]) maker taker p t).
  { intros t Ht. destruct (Htr t Ht) as (Htp & maker & taker & p & H).
    split; [done|]. exists maker, taker, p. by apply trade_of_later. }
  destruct (type_op raw) eqn:Hop.
  - (* CREATE *)
    destruct (process_create_inv
      (fun i bk => made_by raw i
         /\ ob_pair bk = r_pair raw
         /\ (forall o, o ∈ resting bk ->
               exists c, c ∈ pre /\ made_by c o /\ r_pair c = r_pair raw)
         /\ (forall t, t ∈ trades bk ->
               t_pair t = r_pair raw
               /\ exists maker taker p, trade_of (pre ++ [raw]) maker taker p t))
      raw b b' Hwf Hop Hp) as (order & b0 & o' & b1 & Hs & Hinv & HL & Hend & ->).
    + intros order b0 Hs. destruct (start_order _ _ _ _ Hs)
        as (_ & Hid & Hside & Hpr & _ & Hprice & _ & _ & ->).
      split; [by repeat split|]. done.
    + intros i1 b1 i2 b2 Hinv (Hmade & Hpair1 & Hrest1 & Htr1) Hbody.
      pose proof (li_wf _ _ Hinv) as Hwf1.
      destruct (pass_incoming _ _ _ _ Hbody) as (Eid & _ & Eside & Epair & Eprice & _).
      split; [|split; [|split]].
      * destruct Hmade as (? & ? & ? & ? & ?). unfold made_by.
        rewrite Eid, Eside, Epair, Eprice. done.
      * destruct (match_body_Some _ _ _ _ Hbody (wf_bookSide_side _ _ Hwf1))
          as (best & rest & _ & _ & _ & _ & ->).
        by rewrite after_pass_pair.
      * intros o Ho. destruct (pass_resting _ _ _ _ _ Hwf1 Hbody Ho) as (o0 & Ho0 & ->).
        destruct (Hrest1 o0 Ho0) as (c & Hc & Hm & Hcp). by exists c.
      * destruct (match_body_Some _ _ _ _ Hbody (wf_bookSide_side _ _ Hwf1))
          as (best & rest & Hb & _ & _ & _ & ->).
        rewrite after_pass_trades. intros t [Ht | Ht%list_elem_of_singleton]%elem_of_app;
          [by apply Htr1|]. subst t.
        assert (best ∈ resting b1) as Hbest.
        { apply (elem_of_resting (o_side i1)). right. rewrite Hb. by left. }
        destruct (Hrest1 best Hbest) as (c & Hc & Hm & Hcp).
        pose proof (wf_bookSide_side _ (o_side i1) Hwf1) as Hside.
        rewrite Hb in Hside. apply Forall_cons in Hside as [Hside _].
        destruct Hmade as (Hop1 & Hid1 & Hside1 & Hpair1' & Hprice1).
        destruct Hm as (Hop2 & Hid2 & Hside2 & Hpair2 & Hprice2).
        split; [by rewrite Hpair1|].
        exists c, raw, (o_price best).
        apply list_elem_of_split in Hc as (pre1 & mid & ->).
        split; [exists pre1, mid, []; by rewrite <- app_assoc|].
        unfold OrderBook.mkTradeOf. simpl.
        rewrite Hside1, Hid1, Hid2, Hside2, Hside, <- Hside1, Hpair1.
        repeat split; try done; congruence.
    + destruct HL as (Hmade & Hpair1 & Hrest1 & Htr1).
      destruct (Big.gt (o_remaining o') Big.zero).
      * split; [by rewrite add_pair|]. split.
        -- intros o Ho. rewrite add_resting in Ho.
           apply elem_of_cons in Ho as [-> | Ho].
           ++ exists raw. split; [apply elem_of_app; right; by left | done].
           ++ destruct (Hrest1 o Ho) as (c & Hc & Hm). exists c.
              split; [apply elem_of_app; by left | done].
        -- by rewrite add_trades.
      * split; [done|]. split; [|done].
        intros o Ho. destruct (Hrest1 o Ho) as (c & Hc & Hm). exists c.
        split; [apply elem_of_app; by left | done].
  - (* DELETE *)
    rewrite process_delete in Hp by done. injection Hp as <-.
    destruct (idIndex b !! order_id raw) as [ref|] eqn:Hi; [|done].
    destruct (index_live _ _ _ Hwf Hi) as (found & -> & Hin & _).
    split; [by rewrite remove_pair|]. split.
    + intros o Ho. apply Hrest'. apply book_wf_gen in Hwf.
      rewrite remove_resting in Ho by done. by apply elem_of_remove in Ho.
    + by rewrite remove_trades.
Qed.

Lemma run_provenance cmds e pair b :
  MatcherEngine.run cmds = Some e ->
  MatcherEngine.get pair (books e) = Some b ->
  provenance cmds pair b.
Proof.
  intros Hrun Hg.
  eapply (run_prefix provenance); [| | |exact Hrun|exact Hg].
  - intros pre pair' _. split; [done|]. split; intros x Hx; by apply elem_of_nil in Hx.
  - intros pre raw e0 b' Hpre. apply provenance_step. by eapply run_book_of_wf.
  - intros pre raw pair' b0 Hne (Hpair & Hrest & Htr). split; [done|]. split.
    + intros o Ho. destruct (Hrest o Ho) as (c & Hc & Hm). exists c.
      split; [apply elem_of_app; by left | done].
    + intros t Ht. destruct (Htr t Ht) as (Htp & maker & taker & p & H).
      split; [done|]. exists maker, taker, p. by apply trade_of_later.
Qed.

(** Decimals of different value print differently. *)
Lemma toString_inj x y : Big.toString x = Big.toString y -> (Big.toQ x == Big.toQ y)%Q.
Proof.
  intros E. pose proof (of_string_toString x) as Hx.
  rewrite E, of_string_toString in Hx. injection Hx as Hx.
  rewrite <- (toQ_normalise x), <- (toQ_normalise y). by rewrite Hx.
Qed.

(** ** Quantities traded and left *)

Lemma traded_app pair id l1 l2 :
  (traded pair id (l1 ++ l2) == traded pair id l1 + traded pair id l2)%Q.
Proof.
  induction l1 as [|t l1 IH]; simpl; [lra|]. rewrite IH. lra.
Qed.

Lemma traded_snoc pair id l t :
  (traded pair id (l ++ [t])
   == traded pair id l + (if participates pair id t then amount_of t else 0))%Q.
Proof. rewrite traded_app. simpl. lra. Qed.

Lemma traded_none pair id l :
  Forall (fun t => participates pair id t = false) l ->
  (traded pair id l == 0)%Q.
Proof.
  induction 1 as [|t l Ht _ IH]; simpl; [lra|]. rewrite Ht, IH. lra.
Qed.

Lemma amount_of_trade pair incoming best :
  (amount_of (OrderBook.mkTradeOf pair incoming best)
   == Big.toQ (OrderBook.tradeQty incoming best))%Q.
Proof.
  unfold amount_of, OrderBook.mkTradeOf. simpl.
  rewrite of_string_toString. apply toQ_normalise.
Qed.

Lemma participates_trade pair id incoming best :
  participates pair id (OrderBook.mkTradeOf pair incoming best)
  = String.eqb (o_id incoming) id || String.eqb (o_id best) id.
Proof.
  unfold participates, OrderBook.mkTradeOf. simpl. rewrite String.eqb_refl. simpl.
  destruct (bool_decide _); [done | apply orb_comm].
Qed.

Lemma find_only {A} (p : A -> bool) (l : list A) (o : A) :
  (forall x, x ∈ l -> p x = true -> x = o) -> o ∈ l -> p o = true ->
  List.find p l = Some o.
Proof.
  induction l as [|y l IH]; intros Honly Hin Hp.
  { by apply elem_of_nil in Hin. }
  simpl. destruct (p y) eqn:Hy.
  - f_equal. apply Honly; [by left | done].
  - apply IH; [|  | done].
    + intros x Hx. apply Honly. by right.
    + apply elem_of_cons in Hin as [-> | Hin]; [congruence | done].
Qed.

Lemma find_nobody {A} (p : A -> bool) (l : list A) :
  (forall x, x ∈ l -> p x = false) -> List.find p l = None.
Proof.
  induction l as [|y l IH]; intros H; [done|].
  simpl. rewrite (H y) by by left. apply IH. intros x Hx. apply H. by right.
Qed.

Lemma residual_in_Some id b o :
  (forall x, x ∈ resting b -> o_id x = id -> x = o) ->
  o ∈ resting b -> o_id o = id ->
  residual_in id b = Big.toQ (o_remaining o).
Proof.
  intros Honly Hin Hid. unfold residual_in.
  rewrite (find_only _ _ o); [done| |done|].
  - intros x Hx Hp. apply Honly; [done|]. by apply String.eqb_eq in Hp.
  - by apply String.eqb_eq.
Qed.

Lemma residual_in_None id b :
  (forall x, x ∈ resting b -> o_id x <> id) -> residual_in id b = 0%Q.
Proof.
  intros H. unfold residual_in. rewrite find_nobody; [done|].
  intros x Hx. apply String.eqb_neq. by apply H.
Qed.

(** The resting orders after a pass: those of before but the top of the
    opposite queue, and that top with its new remaining if it is not
    filled. *)
Lemma pass_resting_iff incoming best rest b x :
  book_wf b ->
  OrderBook.bookSide (o_side incoming) b = best :: rest ->
  x ∈ resting (after_pass incoming best rest b)
  <-> (x ∈ resting b /\ o_ts x <> o_ts best)
      \/ (Big.eq (Big.minus (o_remaining best) (OrderBook.tradeQty incoming best))
                 Big.zero = false
          /\ x = set_remaining best
                   (Big.minus (o_remaining best) (OrderBook.tradeQty incoming best))).
Proof.
  intros Hwf Hb. apply book_wf_gen in Hwf.
  assert (Hbest : best ∈ resting b).
  { apply (elem_of_resting (o_side incoming)). right. rewrite Hb. by left. }
  assert (Hne : forall y, y ∈ resting b -> y <> best -> o_ts y <> o_ts best).
  { intros y Hy Hyb E. apply Hyb.
    eapply (NoDup_fmap_eq o_ts); [apply (wf_nodup _ Hwf) | done | done | done]. }
  assert (Hown : forall y, y ∈ own (o_side incoming) b -> y <> best).
  { intros y Hy ->. apply (wf_side_elem _ _ _ Hwf) in Hy.
    assert (best ∈ own (opposite (o_side incoming)) b) as Hy'.
    { rewrite own_opposite, Hb. by left. }
    apply (wf_side_elem _ _ _ Hwf) in Hy'. rewrite Hy in Hy'.
    by destruct (o_side incoming). }
  assert (Hrest : forall y, y ∈ rest -> y <> best).
  { intros y Hy ->. pose proof (wf_sorted _ Hwf (opposite (o_side incoming))) as Hs.
    rewrite own_opposite, Hb in Hs. apply StronglySorted_inv in Hs as [_ Hall].
    rewrite Forall_forall in Hall. specialize (Hall best Hy). simpl in Hall.
    apply cmp_of_before in Hall. by apply before_irrefl in Hall. }
  rewrite !(elem_of_resting (o_side incoming)), after_pass_own, after_pass_bookSide, Hb.
  split.
  - intros [Hx | Hx].
    + left. split; [by left|]. apply Hne; [|by apply Hown].
      apply (elem_of_resting (o_side incoming)). by left.
    + destruct (Big.eq _ Big.zero) eqn:Hf.
      * left. split; [right; by right|]. apply Hne; [|by apply Hrest].
        apply (elem_of_resting (o_side incoming)). right. rewrite Hb. by right.
      * apply elem_of_cons in Hx as [-> | Hx]; [by right|].
        left. split; [right; by right|]. apply Hne; [|by apply Hrest].
        apply (elem_of_resting (o_side incoming)). right. rewrite Hb. by right.
  - intros [[[Hx | Hx] Hts] | [Hf ->]].
    + by left.
    + right. apply elem_of_cons in Hx as [-> | Hx]; [done|].
      destruct (Big.eq _ Big.zero); [done | by right].
    + right. rewrite Hf. by left.
Qed.

(** ** Conservation, one book and one order id *)

Lemma tradeQty_le incoming best :
  (Big.toQ (OrderBook.tradeQty incoming best) <= Big.toQ (o_remaining incoming))%Q.
Proof. rewrite tradeQty_min. apply Q.le_min_l. Qed.

Lemma resting_id_dec id b :
  (exists o, o ∈ resting b /\ o_id o = id) \/ (forall x, x ∈ resting b -> o_id x <> id).
Proof.
  destruct (List.find (has_id id) (resting b)) as [o|] eqn:E.
  - left. apply find_some in E as [H1 H2]. exists o.
    split; [by apply list_elem_of_In | by apply String.eqb_eq].
  - right. intros x Hx. apply list_elem_of_In in Hx.
    pose proof (find_none _ _ E x Hx) as H. by apply String.eqb_neq.
Qed.

(** The residual of an id depends on the resting orders of that id only. *)
Lemma residual_in_ext id b b' :
  (forall x, o_id x = id -> x ∈ resting b' <-> x ∈ resting b) ->
  (forall o1 o2, o1 ∈ resting b -> o2 ∈ resting b ->
                 o_id o1 = id -> o_id o2 = id -> o1 = o2) ->
  residual_in id b' = residual_in id b
  /\ (forall o1 o2, o1 ∈ resting b' -> o2 ∈ resting b' ->
                    o_id o1 = id -> o_id o2 = id -> o1 = o2).
Proof.
  intros Hsame Huniq. split.
  - destruct (resting_id_dec id b) as [(o & Ho & Hid) | Hnone].
    + rewrite (residual_in_Some id b o), (residual_in_Some id b' o); try done.
      * intros x Hx Hxid. apply (Huniq x o); try done. by apply Hsame.
      * by apply Hsame.
      * intros x Hx Hxid. by apply (Huniq x o).
    + rewrite (residual_in_None id b), (residual_in_None id b'); try done.
      intros x Hx Hxid. apply (Hnone x); [|done]. by apply Hsame.
  - intros o1 o2 H1 H2 E1 E2. apply Huniq; try done; by apply Hsame.
Qed.

Lemma trade_ids pair incoming best t :
  t = OrderBook.mkTradeOf pair incoming best ->
  (buyOrderId t = o_id incoming /\ sellOrderId t = o_id best)
  \/ (buyOrderId t = o_id best /\ sellOrderId t = o_id incoming).
Proof.
  intros ->. unfold OrderBook.mkTradeOf. simpl.
  destruct (bool_decide _); [by left | by right].
Qed.

Lemma free_not_participating pair id b :
  id_free id b -> Forall (fun t => participates pair id t = false) (trades b).
Proof.
  intros [_ H]. apply Forall_forall. intros t Ht. destruct (H t Ht) as [H1 H2].
  unfold participates. apply String.eqb_neq in H1, H2. rewrite H1, H2.
  apply andb_false_r.
Qed.

(** A command of another id, or a DELETE, leaves the id unused. *)
Lemma free_step id raw b b' :
  book_wf b -> id_free id b ->
  type_op raw = DELETE \/ order_id raw <> id ->
  OrderBook.process raw b = Some b' ->
  id_free id b'.
Proof.
  intros Hwf [Hrest Htr] Hraw Hp. destruct (type_op raw) eqn:Hop.
  - destruct Hraw as [? | Hne]; [done|].
    destruct (process_create_inv (fun i bk => o_id i <> id /\ id_free id bk)
                raw b b' Hwf Hop Hp)
      as (order & b0 & o' & b1 & Hs & Hinv & [Hid [Hrest1 Htr1]] & Hend & ->).
    + intros order b0 Hs.
      destruct (start_order _ _ _ _ Hs) as (_ & Hid & _ & _ & _ & _ & _ & _ & ->).
      split; [by rewrite Hid | exact (conj Hrest Htr)].
    + intros i1 b1 i2 b2 Hinv [Hid [Hrest1 Htr1]] Hbody.
      pose proof (li_wf _ _ Hinv) as Hwf1.
      destruct (pass_incoming _ _ _ _ Hbody) as (Eid & _).
      split; [by rewrite Eid|]. split.
      * intros o Ho. destruct (pass_resting _ _ _ _ _ Hwf1 Hbody Ho) as (o0 & Ho0 & ->).
        exact (Hrest1 o0 Ho0).
      * destruct (match_body_Some _ _ _ _ Hbody (wf_bookSide_side _ _ Hwf1))
          as (best & rest & Hb & _ & _ & _ & ->).
        rewrite after_pass_trades.
        intros t [Ht | Ht%list_elem_of_singleton]%elem_of_app; [by apply Htr1|].
        assert (o_id best <> id) as Hbest.
        { apply Hrest1. apply (elem_of_resting (o_side i1)). right.
          rewrite Hb. by left. }
        destruct (trade_ids _ _ _ _ Ht) as [[-> ->] | [-> ->]]; done.
    + destruct (Big.gt (o_remaining o') Big.zero); [|by split].
      split; [|by rewrite add_trades].
      intros o Ho. rewrite add_resting in Ho.
      apply elem_of_cons in Ho as [-> | Ho]; [done | by apply Hrest1].
  - rewrite process_delete in Hp by done. injection Hp as <-.
    destruct (idIndex b !! order_id raw) as [ref|] eqn:Hi; [|by split].
    destruct (index_live _ _ _ Hwf Hi) as (found & -> & Hin & _).
    split; [|by rewrite remove_trades].
    intros o Ho. apply Hrest. apply book_wf_gen in Hwf.
    rewrite remove_resting in Ho by done. by apply elem_of_remove in Ho.
Qed.

(** The CREATE of an unused id: the initial amount is what the incoming
    order trades plus what [add] leaves in the book. *)
Lemma create_tracked pair id a raw b b' :
  book_wf b -> ob_pair b = pair -> id_free id b ->
  type_op raw = CREATE -> order_id raw = id ->
  Big.of_string (amount raw) = Some a -> (0 <= Big.toQ a)%Q ->
  OrderBook.process raw b = Some b' ->
  tracked pair id a b'.
Proof.
  intros Hwf Hpair Hfree Hop Hid Ha Hnn Hp.
  destruct (process_create_inv
    (fun i bk => o_id i = id /\ ob_pair bk = pair
       /\ (forall o, o ∈ resting bk -> o_id o <> id)
       /\ (Big.toQ a == traded pair id (trades bk) + Big.toQ (o_remaining i))%Q
       /\ (0 <= Big.toQ (o_remaining i))%Q)
    raw b b' Hwf Hop Hp)
    as (order & b0 & o' & b1 & Hs & Hinv & (Hid1 & Hpair1 & Hrest1 & Heq & Hnn1) & Hend & ->).
  - intros order b0 Hs.
    destruct (start_order _ _ _ _ Hs) as (_ & Hoid & _ & _ & _ & _ & Hamt & _ & ->).
    assert (o_remaining order = a) as -> by congruence.
    split; [congruence|]. split; [done|]. split; [apply Hfree|]. split; [|done].
    simpl. rewrite (traded_none pair id (trades b)); [lra|].
    by apply free_not_participating.
  - intros i1 b1 i2 b2 Hinv (Hid1 & Hpair1 & Hrest1 & Heq & Hnn1) Hbody.
    pose proof (li_wf _ _ Hinv) as Hwf1.
    destruct (match_body_Some _ _ _ _ Hbody (wf_bookSide_side _ _ Hwf1))
      as (best & rest & Hb & _ & _ & -> & ->).
    simpl. split; [done|]. split; [by rewrite after_pass_pair|]. split; [|split].
    + intros o Ho. destruct (pass_resting _ _ _ _ _ Hwf1 Hbody Ho) as (o0 & Ho0 & ->).
      exact (Hrest1 o0 Ho0).
    + rewrite after_pass_trades, traded_snoc, Hpair1, participates_trade.
      apply String.eqb_eq in Hid1. rewrite Hid1. simpl.
      rewrite amount_of_trade. big_prop. lra.
    + pose proof (tradeQty_le i1 best). big_prop. lra.
  - destruct (Big.gt (o_remaining o') Big.zero) eqn:Hgt.
    + assert (Honly : forall x, x ∈ resting (OrderBook.add o' b1) -> o_id x = id -> x = o').
      { intros x Hx Hxid. rewrite add_resting in Hx.
        apply elem_of_cons in Hx as [-> | Hx]; [done|]. by apply Hrest1 in Hx. }
      split.
      * intros o1 o2 H1 H2 E1 E2. by rewrite (Honly o1), (Honly o2).
      * rewrite add_trades, (residual_in_Some id _ o'); try done.
        rewrite add_resting. by left.
    + split.
      * intros o1 o2 H1 _ E1 _. by apply Hrest1 in H1.
      * rewrite (residual_in_None id b1) by done. big_prop. lra.
Qed.

(** A command of another id keeps the account of the order. *)
Lemma other_tracked pair id a raw b b' :
  book_wf b -> ob_pair b = pair -> tracked pair id a b ->
  order_id raw <> id ->
  OrderBook.process raw b = Some b' ->
  tracked pair id a b'.
Proof.
  intros Hwf Hpair Htrk Hne Hp. destruct (type_op raw) eqn:Hop.
  - destruct (process_create_inv
      (fun i bk => o_id i <> id /\ ob_pair bk = pair /\ tracked pair id a bk)
      raw b b' Hwf Hop Hp)
      as (order & b0 & o' & b1 & Hs & Hinv & (Hid1 & Hpair1 & Huniq & Heq) & Hend & ->).
    + intros order b0 Hs.
      destruct (start_order _ _ _ _ Hs) as (_ & Hoid & _ & _ & _ & _ & _ & _ & ->).
      split; [congruence|]. by split.
    + intros i1 b1 i2 b2 Hinv (Hid1 & Hpair1 & Huniq & Heq) Hbody.
      pose proof (li_wf _ _ Hinv) as Hwf1.
      destruct (match_body_Some _ _ _ _ Hbody (wf_bookSide_side _ _ Hwf1))
        as (best & rest & Hb & _ & _ & -> & ->).
      simpl. split; [done|]. split; [by rewrite after_pass_pair|].
      assert (Hbest : best ∈ resting b1).
      { apply (elem_of_resting (o_side i1)). right. rewrite Hb. by left. }
      assert (Hnd : forall y, y ∈ resting b1 -> o_ts y = o_ts best -> y = best).
      { intros y Hy E. apply book_wf_gen in Hwf1.
        eapply (NoDup_fmap_eq o_ts); [apply (wf_nodup _ Hwf1) | done | done | done]. }
      unfold tracked.
      rewrite after_pass_trades, Hpair1.
      assert (Htr : (traded pair id (trades b1 ++ [OrderBook.mkTradeOf pair i1 best])
                     == traded pair id (trades b1)
                        + (if String.eqb (o_id best) id
                           then Big.toQ (OrderBook.tradeQty i1 best) else 0))%Q).
      { rewrite traded_snoc, participates_trade.
        apply String.eqb_neq in Hid1. rewrite Hid1. simpl.
        destruct (String.eqb (o_id best) id); [|done]. by rewrite amount_of_trade. }
      rewrite Htr. clear Htr.
      destruct (String.eqb_spec (o_id best) id) as [Ebest | Ebest].
      * (* the order of the id is the maker of this trade *)
        assert (Hres : residual_in id b1 = Big.toQ (o_remaining best)).
        { apply residual_in_Some; try done. intros x Hx Hxid. by apply Huniq. }
        assert (Hold : forall x, x ∈ resting b1 -> o_ts x <> o_ts best -> o_id x <> id).
        { intros x Hx Hts Hxid. apply Hts. f_equal. by apply Huniq. }
        destruct (Big.eq (Big.minus (o_remaining best) (OrderBook.tradeQty i1 best))
                         Big.zero) eqn:Hf.
        -- assert (Hnone : forall x, x ∈ resting (after_pass i1 best rest b1) ->
                                     o_id x <> id).
           { intros x Hx. apply (pass_resting_iff _ _ _ _ _ Hwf1 Hb) in Hx
               as [[Hx Hts] | [Hf' _]]; [by apply Hold | congruence]. }
           split.
           ++ intros o1 o2 H1 _ E1 _. by apply Hnone in H1.
           ++ rewrite (residual_in_None id _ Hnone). rewrite Hres in Heq.
              big_prop. lra.
        -- set (best' := set_remaining best
                   (Big.minus (o_remaining best) (OrderBook.tradeQty i1 best))).
           assert (Honly : forall x, x ∈ resting (after_pass i1 best rest b1) ->
                                     o_id x = id -> x = best').
           { intros x Hx Hxid. apply (pass_resting_iff _ _ _ _ _ Hwf1 Hb) in Hx
               as [[Hx Hts] | [_ ->]]; [by apply Hold in Hx | done]. }
           split.
           ++ intros o1 o2 H1 H2 E1 E2. by rewrite (Honly o1), (Honly o2).
           ++ rewrite (residual_in_Some id _ best'); try done.
              ** rewrite Hres in Heq. simpl. big_prop. lra.
              ** apply (pass_resting_iff _ _ _ _ _ Hwf1 Hb). by right.
      * (* another order is the maker *)
        destruct (residual_in_ext id b1 (after_pass i1 best rest b1)) as [Hres Huniq'];
          [|exact Huniq|].
        -- intros x Hxid. rewrite (pass_resting_iff _ _ _ _ _ Hwf1 Hb). split.
           ++ intros [[Hx _] | [_ ->]]; [done | by simpl in Hxid].
           ++ intros Hx. left. split; [done|]. intros E.
              apply Hnd in E; [|done]. congruence.
        -- split; [done|]. rewrite Hres. lra.
    + destruct (Big.gt (o_remaining o') Big.zero); [|by split].
      destruct (residual_in_ext id b1 (OrderBook.add o' b1)) as [Hres Huniq'];
        [|exact Huniq|].
      * intros x Hxid. rewrite add_resting, elem_of_cons. split; [|by right].
        intros [-> | Hx]; done.
      * split; [done|]. by rewrite add_trades, Hres.
  - rewrite process_delete in Hp by done. injection Hp as <-.
    destruct (idIndex b !! order_id raw) as [ref|] eqn:Hi; [|done].
    destruct (index_live _ _ _ Hwf Hi) as (found & -> & Hin & Hts & Hfid).
    destruct Htrk as [Huniq Heq].
    pose proof Hwf as Hwf'. apply book_wf_gen in Hwf'.
    destruct (residual_in_ext id b (OrderBook.remove found b)) as [Hres Huniq'];
      [|exact Huniq|].
    + intros x Hxid. rewrite remove_resting by done.
      rewrite elem_of_remove_iff by apply (wf_nodup _ Hwf'). split; [by intros [? _]|].
      intros Hx. split; [done|]. intros E.
      assert (x = found) by (eapply (NoDup_fmap_eq o_ts);
        [apply (wf_nodup _ Hwf') | done | done | done]).
      congruence.
    + split; [done|]. by rewrite remove_trades, Hres.
Qed.

(** ** Conservation over a run *)

Lemma alone_spec pair id pre post :
  alone pair id pre post ->
  (forall c', c' ∈ pre ++ post -> type_op c' = CREATE -> r_pair c' = pair ->
              order_id c' <> id)
  /\ (forall c', c' ∈ post -> type_op c' = DELETE -> r_pair c' = pair ->
                 order_id c' <> id).
Proof.
  intros [H1 H2]. rewrite Forall_forall in H1, H2. unfold names in *.
  split; intros c' Hc' ? ? ?; [by apply (H1 c' Hc') | by apply (H2 c' Hc')].
Qed.

Lemma alone_intro pair id pre post :
  (forall c', c' ∈ pre ++ post -> type_op c' = CREATE -> r_pair c' = pair ->
              order_id c' <> id) ->
  (forall c', c' ∈ post -> type_op c' = DELETE -> r_pair c' = pair ->
              order_id c' <> id) ->
  alone pair id pre post.
Proof.
  intros H1 H2. split; apply Forall_forall; intros c' Hc' (? & ? & ?).
  - by apply (H1 c').
  - by apply (H2 c').
Qed.

Lemma process_pair raw b b' :
  book_wf b -> OrderBook.process raw b = Some b' -> ob_pair b' = ob_pair b.
Proof.
  intros Hwf Hp. destruct (type_op raw) eqn:Hop.
  - destruct (process_create_inv (fun _ bk => ob_pair bk = ob_pair b)
                raw b b' Hwf Hop Hp)
      as (order & b0 & o' & b1 & Hs & Hinv & HL & Hend & ->).
    + intros order b0 Hs.
      by destruct (start_order _ _ _ _ Hs) as (_ & _ & _ & _ & _ & _ & _ & _ & ->).
    + intros i1 b1 i2 b2 Hinv HL Hbody.
      destruct (match_body_Some _ _ _ _ Hbody (wf_bookSide_side _ _ (li_wf _ _ Hinv)))
        as (best & rest & _ & _ & _ & _ & ->).
      by rewrite after_pass_pair.
    + destruct (Big.gt _ _); [by rewrite add_pair | done].
  - rewrite process_delete in Hp by done. injection Hp as <-.
    destruct (idIndex b !! order_id raw) as [ref|]; [|done].
    destruct (OrderBook.deref ref b); [by rewrite remove_pair | done].
Qed.

Lemma snoc_split {A} (pre pre' post : list A) (raw c : A) :
  pre ++ [raw] = pre' ++ c :: post ->
  (post = [] /\ pre' = pre /\ c = raw)
  \/ (exists post', post = post' ++ [raw] /\ pre = pre' ++ c :: post').
Proof.
  destruct post as [|x post _] using rev_ind; intros E.
  - left. apply app_inj_tail in E as [-> ->]. done.
  - right. exists post.
    replace (pre' ++ c :: post ++ [x]) with ((pre' ++ c :: post) ++ [x]) in E
      by by rewrite <- app_assoc.
    apply app_inj_tail in E as [-> ->]. done.
Qed.

Lemma accounts_step pre raw b b' :
  book_wf b -> accounts pre (r_pair raw) b ->
  OrderBook.process raw b = Some b' ->
  accounts (pre ++ [raw]) (r_pair raw) b'.
Proof.
  intros Hwf [Hpair Hacc] Hp.
  split; [by rewrite (process_pair _ _ _ Hwf Hp)|].
  intros id. destruct (Hacc id) as [Hfree Htrk]. split.
  - intros Hno. eapply free_step; [exact Hwf | | | exact Hp].
    + apply Hfree. intros c' Hc'. apply Hno. apply elem_of_app. by left.
    + destruct (type_op raw) eqn:Hop; [|by left]. right.
      apply Hno; [|done|done]. apply elem_of_app. right. by left.
  - intros pre' c post a E Hop Hcp Hcid Ha Hnn [Hc1 Hc2]%alone_spec.
    apply snoc_split in E as [(-> & -> & ->) | (post' & -> & ->)].
    + eapply create_tracked; try done. apply Hfree.
      intros c' Hc'. apply Hc1. by rewrite app_nil_r.
    + eapply other_tracked; [exact Hwf | exact Hpair | | | exact Hp].
      * eapply Htrk; try done. apply alone_intro.
        -- intros c' Hc'. apply Hc1. rewrite !elem_of_app in *. tauto.
        -- intros c' Hc'. apply Hc2. apply elem_of_app. by left.
      * assert (raw ∈ post' ++ [raw]) as Hin.
        { apply elem_of_app. right. by left. }
        destruct (type_op raw) eqn:Hop'.
        -- apply Hc1; [|done|done]. apply elem_of_app. by right.
        -- by apply Hc2.
Qed.

Lemma accounts_other pre raw pair b :
  pair <> r_pair raw -> accounts pre pair b -> accounts (pre ++ [raw]) pair b.
Proof.
  intros Hne [Hpair Hacc]. split; [done|].
  intros id. destruct (Hacc id) as [Hfree Htrk]. split.
  - intros Hno. apply Hfree. intros c' Hc'. apply Hno. apply elem_of_app. by left.
  - intros pre' c post a E Hop Hcp Hcid Ha Hnn [Hc1 Hc2]%alone_spec.
    apply snoc_split in E as [(-> & -> & ->) | (post' & -> & ->)]; [done|].
    eapply Htrk; try done. apply alone_intro.
    + intros c' Hc'. apply Hc1. rewrite !elem_of_app in *. tauto.
    + intros c' Hc'. apply Hc2. apply elem_of_app. by left.
Qed.

Lemma run_accounts cmds e pair b :
  MatcherEngine.run cmds = Some e ->
  MatcherEngine.get pair (books e) = Some b ->
  accounts cmds pair b.
Proof.
  intros Hrun Hg.
  eapply (run_prefix accounts); [| | |exact Hrun|exact Hg].
  - intros pre pair' Hnone. split; [done|]. intros id. split.
    + intros _. split; intros x Hx; by apply elem_of_nil in Hx.
    + intros pre' c post a -> _ Hcp. exfalso. apply (Hnone c); [|done].
      apply elem_of_app. right. by left.
  - intros pre raw e0 b' Hpre. apply accounts_step. by eapply run_book_of_wf.
  - apply accounts_other.
Qed.

(** The trades of the output in which an order of a pair takes part are
    trades of the book of that pair. *)
Lemma traded_books pair id (m : list (string * OrderBook)) :
  NoDup (fst <$> m) ->
  (forall k v t, (k, v) ∈ m -> t ∈ trades v -> t_pair t = k) ->
  (traded pair id (flat_map trades (snd <$> m))
   == match MatcherEngine.get pair m with
      | Some b => traded pair id (trades b)
      | None => 0
      end)%Q.
Proof.
  induction m as [|[k v] m IH]; intros Hnd Hpairs; [done|].
  rewrite fmap_cons in Hnd. apply NoDup_cons in Hnd as [Hk Hnd].
  cbn [fmap list_fmap flat_map snd MatcherEngine.get].
  rewrite traded_app, IH; [|done|].
  2:{ intros k' v' t Hin. apply Hpairs. by right. }
  destruct (String.eqb_spec k pair) as [-> | Hne].
  - destruct (MatcherEngine.get pair m) as [b0|] eqn:Hg; [|lra].
    exfalso. apply Hk. apply elem_get in Hg.
    apply list_elem_of_fmap. by exists (pair, b0).
  - rewrite (traded_none pair id (trades v)); [lra|].
    apply Forall_forall. intros t Ht. unfold participates.
    rewrite (Hpairs k v t) by (by left || done).
    apply String.eqb_neq in Hne. by rewrite Hne.
Qed.

Lemma finish_traded cmds e pair id b :
  MatcherEngine.run cmds = Some e ->
  MatcherEngine.get pair (books e) = Some b ->
  (traded pair id (MatcherEngine.finish e).2 == traded pair id (trades b))%Q.
Proof.
  intros Hrun Hg. simpl. rewrite traded_books.
  - by rewrite Hg.
  - by eapply run_keys.
  - intros k v t Hin Ht.
    apply get_elem in Hin; [|by eapply run_keys].
    destruct (run_provenance _ _ _ _ Hrun Hin) as (_ & _ & Htr).
    by destruct (Htr t Ht).
Qed.

(** ** Conservation of quantity *)

(** C1, as amended.  For a CREATE [c] of a stream that the engine processes,
    with an amount that is not negative, whose id no other CREATE of its pair
    carries and no later DELETE of its pair names: the parsed amount of [c] is
    the sum of the amounts of the trades of its pair that carry its id as
    buyOrderId or sellOrderId, plus the remaining of its order in the book at
    the end of the stream (zero when it no longer rests). *)
Theorem C1_conservation cmds e pre c post a :
  MatcherEngine.run cmds = Some e ->
  cmds = pre ++ c :: post ->
  type_op c = CREATE ->
  Big.of_string (amount c) = Some a ->
  Big.gte a Big.zero = true ->
  alone (r_pair c) (order_id c) pre post ->
  (Big.toQ a
   == traded (r_pair c) (order_id c) (MatcherEngine.finish e).2
      + residual (r_pair c) (order_id c) e)%Q.
Proof.
  intros Hrun -> Hop Ha Hnn Halone.
  assert (c ∈ pre ++ c :: post) as Hc by (apply elem_of_app; right; by left).
  destruct (run_has_book _ _ _ Hrun Hc) as [b Hg].
  destruct (run_accounts _ _ _ _ Hrun Hg) as [_ Hacc].
  destruct (Hacc (order_id c)) as [_ Htrk].
  destruct (Htrk pre c post a) as [_ Heq]; try done.
  { big_prop. lra. }
  rewrite (finish_traded _ _ _ _ _ Hrun Hg). unfold residual. by rewrite Hg.
Qed.

Lemma C1_conservation_witness :
  (Big.toQ (Big.mk 50 1)
   == traded "BTC/USDC" "1" (MatcherEngine.finish demo_engine).2
      + residual "BTC/USDC" "1" demo_engine)%Q.
Proof.
  apply (C1_conservation demo_cmds demo_engine []
           (cmd CREATE SELL "1" "10.50" "5.0")
           [cmd CREATE BUY "2" "11" "3"; cmd CREATE SELL "3" "10.5" "4"]
           (Big.mk 50 1)).
  - vm_compute. reflexivity.
  - reflexivity.
  - reflexivity.
  - vm_compute. reflexivity.
  - vm_compute. reflexivity.
  - compute_done.
Defined.

(** A cancelled order keeps neither trades nor a residual, and the trades
    that name an id twice used count for both orders: conservation fails
    for these streams. *)
Lemma C1_conservation_counterexample :
  (MatcherEngine.run cancel_cmds = Some cancel_engine
   /\ ~ conserved cancel_engine (cmd CREATE SELL "1" "10" "5"))
  /\ (MatcherEngine.run twice_cmds = Some twice_engine
      /\ ~ conserved twice_engine (cmd CREATE SELL "1" "10" "5")).
Proof.
  split; (split; [vm_compute; reflexivity|]).
  - intros H. specialize (H (Big.mk 5 0) eq_refl). vm_compute in H. discriminate.
  - intros H. specialize (H (Big.mk 5 0) eq_refl). vm_compute in H. discriminate.
Qed.

(** ** No crossed book *)

(** C2.  After any stream, in the book of every pair, every bid is priced
    strictly below every ask, and so is the best bid below the best ask;
    the best bid is the highest bid and the best ask the lowest ask. *)
Theorem C2_no_crossed_book cmds e pair b :
  MatcherEngine.run cmds = Some e ->
  MatcherEngine.get pair (books e) = Some b ->
  (forall bid ask, bid ∈ bids b -> ask ∈ asks b ->
     (Big.toQ (o_price bid) < Big.toQ (o_price ask))%Q)
  /\ (forall best_bid best_ask,
        Heap.peek (bids b) = Some best_bid -> Heap.peek (asks b) = Some best_ask ->
        (Big.toQ (o_price best_bid) < Big.toQ (o_price best_ask))%Q)
  /\ (forall best_bid bid,
        Heap.peek (bids b) = Some best_bid -> bid ∈ bids b ->
        (Big.toQ (o_price bid) <= Big.toQ (o_price best_bid))%Q)
  /\ (forall best_ask ask,
        Heap.peek (asks b) = Some best_ask -> ask ∈ asks b ->
        (Big.toQ (o_price best_ask) <= Big.toQ (o_price ask))%Q).
Proof.
  intros Hrun Hg. pose proof (run_wf _ _ _ _ Hrun Hg) as Hwf.
  apply book_wf_gen in Hwf.
  assert (Hx : forall bid ask, bid ∈ bids b -> ask ∈ asks b ->
                 (Big.toQ (o_price bid) < Big.toQ (o_price ask))%Q).
  { intros bid ask Hb Ha. pose proof (wf_uncrossed _ Hwf BUY bid ask Hb Ha) as H.
    simpl in H. lra. }
  assert (Hhead : forall (l : Heap.t) x, Heap.peek l = Some x -> exists r, l = x :: r).
  { intros [|y l] x; [done|]. intros [= ->]. by exists l. }
  assert (Hbest : forall s best o,
            Heap.peek (own s b) = Some best -> o ∈ own s b ->
            o = best \/ before s best o).
  { intros s best o Hp Ho. apply Hhead in Hp as [r Hr].
    pose proof (wf_sorted _ Hwf s) as Hs. rewrite Hr in Hs, Ho.
    apply StronglySorted_inv in Hs as [_ Hall]. rewrite Forall_forall in Hall.
    apply elem_of_cons in Ho as [-> | Ho]; [by left|]. right.
    apply cmp_of_before. by apply Hall. }
  split; [exact Hx|]. split; [|split].
  - intros bb ba Hb Ha. apply Hhead in Hb as [rb Hb], Ha as [ra Ha].
    apply Hx; [rewrite Hb | rewrite Ha]; by left.
  - intros bb bid Hp Hin. destruct (Hbest BUY bb bid Hp Hin) as [-> | H]; [lra|].
    unfold before in H. lra.
  - intros ba ask Hp Hin. destruct (Hbest SELL ba ask Hp Hin) as [-> | H]; [lra|].
    unfold before in H. lra.
Qed.

Lemma C2_no_crossed_book_witness :
  exists best_bid best_ask,
    Heap.peek (bids spread_book) = Some best_bid
    /\ Heap.peek (asks spread_book) = Some best_ask
    /\ (Big.toQ (o_price best_bid) < Big.toQ (o_price best_ask))%Q.
Proof.
  eexists _, _. split; [reflexivity|]. split; [reflexivity|].
  apply (C2_no_crossed_book spread_cmds spread_engine "BTC/USDC" spread_book);
    reflexivity.
Defined.

(** ** The price of a trade *)

(** C3.  Every trade of the output matched the order of a CREATE (the
    taker) with the order that an earlier CREATE of the same pair and of the
    other side had left resting (the maker); the price of the trade is the
    canonical text of the limit price of the maker, and it is not that of the
    taker when the two limit prices differ. *)
Theorem C3_maker_price cmds e t :
  MatcherEngine.run cmds = Some e ->
  t ∈ (MatcherEngine.finish e).2 ->
  exists maker taker p,
    trade_of cmds maker taker p t
    /\ forall q, Big.of_string (limit_price taker) = Some q ->
                 ~ (Big.toQ q == Big.toQ p)%Q ->
                 t_price t <> Big.toString q.
Proof.
  intros Hrun Ht.
  destruct (finish_trades _ _ _ Hrun Ht) as (pair & b & Hg & Hin).
  destruct (run_provenance _ _ _ _ Hrun Hg) as (_ & _ & Htr).
  destruct (Htr t Hin) as (_ & maker & taker & p & Hof).
  exists maker, taker, p. split; [done|].
  intros q Hq Hne E. apply Hne.
  destruct Hof as (_ & _ & _ & _ & _ & _ & _ & _ & _ & Hprice).
  rewrite Hprice in E. symmetry. by apply toString_inj.
Qed.

Lemma C3_maker_price_witness :
  exists maker taker p,
    trade_of demo_cmds maker taker p (mkTrade "BTC/USDC" "2" "1" "10.5" "3")
    /\ forall q, Big.of_string (limit_price taker) = Some q ->
                 ~ (Big.toQ q == Big.toQ p)%Q ->
                 t_price (mkTrade "BTC/USDC" "2" "1" "10.5" "3") <> Big.toString q.
Proof.
  apply (C3_maker_price demo_cmds demo_engine).
  - vm_compute. reflexivity.
  - vm_compute. left.
Defined.

(** ** First in, first out at a price *)

Lemma emitted_later cmds raw t incoming b best :
  emitted cmds t incoming b best -> emitted (cmds ++ [raw]) t incoming b best.
Proof.
  intros (pre & raw0 & post & k & i' & b' & -> & H).
  exists pre, raw0, (post ++ [raw]), k, i', b'. split; [|done].
  by rewrite <- app_assoc.
Qed.

Lemma passes_snoc k order b0 i1 b1 i2 b2 :
  OrderBook.passes k order b0 = Some (i1, b1) ->
  OrderBook.match_body i1 b1 = Some (i2, b2) ->
  OrderBook.passes (S k) order b0 = Some (i2, b2).
Proof.
  revert order b0. induction k as [|k IH]; intros order b0; simpl.
  - intros [= -> ->] ->. done.
  - destruct (OrderBook.match_body order b0) as [[i b]|]; [|done].
    intros Hp Hb. by apply (IH i b).
Qed.

(** Every trade of the output was emitted by a pass of the loop. *)
Lemma run_emitted cmds e t :
  MatcherEngine.run cmds = Some e ->
  t ∈ (MatcherEngine.finish e).2 ->
  exists incoming b best, emitted cmds t incoming b best.
Proof.
  intros Hrun Ht.
  destruct (finish_trades _ _ _ Hrun Ht) as (pair & b & Hg & Hin).
  clear Ht. revert t Hin. change ((fun cmds (_ : string) b =>
    forall t, t ∈ trades b -> exists incoming bk best,
      emitted cmds t incoming bk best) cmds pair b).
  eapply run_prefix; [| | |exact Hrun|exact Hg].
  - intros pre pair' _ t Hin. by apply elem_of_nil in Hin.
  - intros pre raw e0 b' Hpre HP Hp.
    pose proof (run_book_of_wf _ _ (r_pair raw) Hpre) as Hwf.
    assert (Hold : forall t, t ∈ trades (book_of (r_pair raw) e0) ->
              exists incoming bk best, emitted (pre ++ [raw]) t incoming bk best).
    { intros t0 Ht0. destruct (HP t0 Ht0) as (i & bk & best & H).
      exists i, bk, best. by apply emitted_later. }
    destruct (type_op raw) eqn:Hop.
    + destruct (process_create_inv
        (fun i bk =>
           exists order b0 k,
             OrderBook.start raw (book_of (r_pair raw) e0) = Some (order, b0)
             /\ OrderBook.passes k order b0 = Some (i, bk)
             /\ forall t, t ∈ trades bk ->
                  exists incoming bk' best, emitted (pre ++ [raw]) t incoming bk' best)
        raw _ b' Hwf Hop Hp)
        as (order & b0 & o' & b1 & Hs & Hinv & (_ & _ & _ & _ & _ & HL) & Hend & ->).
      * intros order b0 Hs. exists order, b0, O. split; [done|]. split; [done|].
        by destruct (start_order _ _ _ _ Hs) as (_ & _ & _ & _ & _ & _ & _ & _ & ->).
      * intros i1 b1 i2 b2 Hinv (order & b0 & k & Hs & Hk & HL) Hbody.
        exists order, b0, (S k). split; [done|].
        split; [by eapply passes_snoc|].
        destruct (match_body_Some _ _ _ _ Hbody
                    (wf_bookSide_side _ _ (li_wf _ _ Hinv)))
          as (best & rest & Hb & _ & _ & _ & ->).
        rewrite after_pass_trades.
        intros t0 [Ht0 | Ht0%list_elem_of_singleton]%elem_of_app; [by apply HL|].
        exists i1, b1, best, pre, raw, [], k, i2, (after_pass i1 best rest b1).
        split; [done|]. split.
        { unfold MatcherEngine.matching. rewrite Hpre.
          fold (book_of (r_pair raw) e0). by rewrite Hs. }
        split; [done|]. split; [by rewrite Hb | done].
      * destruct (Big.gt _ _); [by rewrite add_trades | done].
    + rewrite process_delete in Hp by done. injection Hp as <-.
      destruct (idIndex _ !! order_id raw) as [ref|]; [|done].
      destruct (OrderBook.deref ref _); [by rewrite remove_trades | done].
  - intros pre raw pair' b0 _ HP t0 Ht0.
    destruct (HP t0 Ht0) as (i & bk & best & H).
    exists i, bk, best. by apply emitted_later.
Qed.

(** At a pass that trades, an order that still rests on the side and at the
    price of a party to the trade arrived after that party. *)
Lemma pass_fifo incoming b incoming' b' best :
  loop_inv incoming b ->
  OrderBook.match_body incoming b = Some (incoming', b') ->
  Heap.peek (OrderBook.bookSide (o_side incoming) b) = Some best ->
  forall A B,
    B = incoming \/ B = best ->
    A ∈ resting b ->
    o_side A = o_side B ->
    (Big.toQ (o_price A) == Big.toQ (o_price B))%Q ->
    o_ts A <> o_ts B ->
    (o_ts B < o_ts A)%nat.
Proof.
  intros [Hwf Hseq Hts] Hbody Hpeek.
  destruct (match_body_Some _ _ _ _ Hbody (wf_bookSide_side _ _ Hwf))
    as (best0 & rest & Hb & _ & Hok & _ & ->).
  rewrite Hb in Hpeek. injection Hpeek as ->.
  pose proof Hwf as Hg. apply book_wf_gen in Hg.
  assert (Hbest : best ∈ own (opposite (o_side incoming)) b).
  { rewrite own_opposite, Hb. by left. }
  intros A B HB HA Hside Hprice Hne. apply wf_own_side in HA; [|done].
  destruct HB as [-> | ->].
  - (* the taker: no order of its side rests at its price *)
    exfalso. rewrite Hside in HA.
    apply (wf_uncrossed _ Hg (o_side incoming) A best HA).
    { rewrite Hb. by left. }
    apply priceOK_crosses in Hok. unfold crosses in *.
    destruct (o_side incoming); lra.
  - (* the maker is the earliest at its price *)
    rewrite Hside, (wf_side_elem _ _ _ Hg Hbest), own_opposite, Hb in HA.
    apply elem_of_cons in HA as [-> | HA]; [done|].
    pose proof (wf_sorted _ Hg (opposite (o_side incoming))) as Hs.
    rewrite own_opposite, Hb in Hs. apply StronglySorted_inv in Hs as [_ Hall].
    rewrite Forall_forall in Hall. specialize (Hall A HA). simpl in Hall.
    apply cmp_of_before in Hall. unfold before in Hall.
    destruct (opposite (o_side incoming)); destruct Hall as [H | [_ H]]; (lra || done).
Qed.

(** C4.  Every trade of a run was emitted by a pass of the loop of [match],
    between the incoming order of a CREATE and [best], the top of the
    opposite queue.  At every such pass each resting order had arrived
    before the incoming one, and for [B] either party of the trade, an order
    [A] that still rests on the side of [B] at the price of [B] arrived
    after [B]: an order of that side and price that arrived before [B] rests
    no more (it was filled or deleted) when [B] trades.  Arrival is [o_ts],
    the sequence number of the book, which the comparators of the two queues
    read when two prices are equal; the queue itself would serve the later
    of two orders that its comparator does not tell apart. *)
Theorem C4_fifo cmds e t :
  MatcherEngine.run cmds = Some e ->
  t ∈ (MatcherEngine.finish e).2 ->
  (exists incoming b best, emitted cmds t incoming b best)
  /\ forall incoming b best,
       emitted cmds t incoming b best ->
       (forall A, A ∈ resting b -> (o_ts A < o_ts incoming)%nat)
       /\ forall A B,
            B = incoming \/ B = best ->
            A ∈ resting b ->
            o_side A = o_side B ->
            (Big.toQ (o_price A) == Big.toQ (o_price B))%Q ->
            o_ts A <> o_ts B ->
            (o_ts B < o_ts A)%nat.
Proof.
  intros Hrun Ht. split; [by eapply run_emitted|].
  intros incoming b best Hem.
  destruct Hem as (pre & raw & post & k & i' & b' & _ & Hm & Hbody & Hpeek & _).
  pose proof (matching_loop_inv _ _ _ _ _ Hm) as Hinv.
  split.
  - pose proof (li_ts _ _ Hinv) as Hts. by rewrite Forall_forall in Hts.
  - by eapply pass_fifo.
Qed.

(** The buy 3 trades with the sell 1 while the sell 2 rests at the same
    price, 10.0 for 10: the sell 2 is the later of the two. *)
Lemma C4_fifo_witness :
  MatcherEngine.run tie_cmds = Some tie_engine
  /\ tie_trade ∈ (MatcherEngine.finish tie_engine).2
  /\ emitted tie_cmds tie_trade tie_incoming tie_book tie_first
  /\ tie_second ∈ resting tie_book
  /\ o_side tie_second = o_side tie_first
  /\ (Big.toQ (o_price tie_second) == Big.toQ (o_price tie_first))%Q
  /\ o_ts tie_second <> o_ts tie_first
  /\ (o_ts tie_first < o_ts tie_second)%nat.
Proof.
  assert (emitted tie_cmds tie_trade tie_incoming tie_book tie_first) as Hem.
  { exists (take 2 tie_cmds), (cmd CREATE BUY "3" "10" "3"), [], O.
    eexists. eexists. split_and!; reflexivity. }
  assert (tie_second ∈ resting tie_book) as Hin
    by (apply (list_elem_of_lookup_2 _ 1%nat); reflexivity).
  split_and!; [reflexivity | left | exact Hem | exact Hin | reflexivity
              | reflexivity | discriminate |].
  destruct (C4_fifo tie_cmds tie_engine tie_trade eq_refl (list_elem_of_here _ _))
    as [_ Hall].
  destruct (Hall _ _ _ Hem) as [_ Hfifo].
  apply (Hfifo tie_second tie_first);
    [by right | exact Hin | reflexivity | reflexivity | discriminate].
Defined.

(** ** One pass of the loop *)

(** C5.  A pass of the loop of [match] over a well-formed book trades with
    [best], the top of the opposite queue: the amount of the trade is the
    minimum of the two remainings, in canonical text; the price is that of
    [best]; the buy id is that of the incoming order when it buys, else that
    of [best], and the sell id the other one; the incoming order and [best]
    both lose the amount; [best] leaves its queue and its id leaves the index
    when nothing remains of it, and otherwise it stays at the top with the
    index unchanged. *)
Theorem C5_match_step incoming b incoming' b' :
  book_wf b ->
  OrderBook.match_body incoming b = Some (incoming', b') ->
  exists best rest qty tr,
    OrderBook.bookSide (o_side incoming) b = best :: rest
    /\ (Big.toQ qty
        == Qmin (Big.toQ (o_remaining incoming)) (Big.toQ (o_remaining best)))%Q
    /\ trades b' = trades b ++ [tr]
    /\ t_pair tr = ob_pair b
    /\ t_amount tr = Big.toString qty
    /\ t_price tr = Big.toString (o_price best)
    /\ buyOrderId tr = (if bool_decide (o_side incoming = BUY)
                        then o_id incoming else o_id best)
    /\ sellOrderId tr = (if bool_decide (o_side incoming = BUY)
                         then o_id best else o_id incoming)
    /\ incoming' = set_remaining incoming (Big.minus (o_remaining incoming) qty)
    /\ (Big.toQ (o_remaining incoming')
        == Big.toQ (o_remaining incoming) - Big.toQ qty)%Q
    /\ own (o_side incoming) b' = own (o_side incoming) b
    /\ seq b' = seq b
    /\ ((Big.toQ (o_remaining best) - Big.toQ qty == 0)%Q ->
        OrderBook.bookSide (o_side incoming) b' = rest
        /\ idIndex b' = delete (o_id best) (idIndex b)
        /\ forall o, o ∈ resting b' -> o_ts o <> o_ts best)
    /\ (~ (Big.toQ (o_remaining best) - Big.toQ qty == 0)%Q ->
        OrderBook.bookSide (o_side incoming) b'
        = set_remaining best (Big.minus (o_remaining best) qty) :: rest
        /\ idIndex b' = idIndex b).
Proof.
  intros Hwf Hbody.
  destruct (match_body_Some _ _ _ _ Hbody (wf_bookSide_side _ _ Hwf))
    as (best & rest & Hb & _ & _ & -> & ->).
  exists best, rest, (OrderBook.tradeQty incoming best),
    (OrderBook.mkTradeOf (ob_pair b) incoming best).
  split; [done|]. split; [apply tradeQty_min|].
  split; [apply after_pass_trades|]. repeat (split; [done|]).
  split; [simpl; by big_prop|].
  split; [apply after_pass_own|]. split; [apply after_pass_seq|].
  simpl. rewrite after_pass_bookSide, after_pass_idIndex.
  destruct (Big.eq _ Big.zero) eqn:Hf; big_prop; split; intros H; try done.
  repeat split; try done.
  intros o Ho. apply (pass_resting_iff _ _ _ _ _ Hwf Hb) in Ho as [[_ Ho] | [Ho _]];
    [done|]. big_prop. done.
Qed.

Lemma C5_match_step_witness :
  exists best rest qty tr,
    asks demo_book = best :: rest
    /\ trades demo_pass.2 = trades demo_book ++ [tr]
    /\ t_amount tr = Big.toString qty
    /\ (Big.toQ qty == 2)%Q
    /\ asks demo_pass.2 = rest.
Proof.
  destruct (C5_match_step demo_incoming (OrderBook.next_seq demo_book)
              demo_pass.1 demo_pass.2)
    as (best & rest & qty & tr & Hb & Hq & Htr & _ & Hamt & _ & _ & _ & _ & _ & _
        & _ & Hfill & _).
  - compute_done.
  - reflexivity.
  - exists best, rest, qty, tr. simpl in Hb.
    assert (Big.toQ qty == 2)%Q as Hq2.
    { rewrite Hq. injection Hb as <- _. reflexivity. }
    split; [exact Hb|]. split; [exact Htr|]. split; [exact Hamt|].
    split; [exact Hq2|]. apply Hfill. rewrite Hq2.
    injection Hb as <- _. reflexivity.
Defined.

(** ** DELETE of an unknown id *)

(** C6, as amended.  A DELETE whose id is not in the index of the book of
    its pair is no error and leaves that book as it is: same queues, index,
    sequence counter and trades.  The engine is left as it is when it has a
    book for the pair already; when it has none, the one change is the empty
    book that [bookFor] registers for the pair.  The trades of the output are
    the same in both cases. *)
Theorem C6_delete_unknown e raw :
  type_op raw = DELETE ->
  idIndex (book_of (r_pair raw) e) !! order_id raw = None ->
  OrderBook.process raw (book_of (r_pair raw) e) = Some (book_of (r_pair raw) e)
  /\ (is_Some (MatcherEngine.get (r_pair raw) (books e)) ->
      MatcherEngine.ingest raw e = Some e)
  /\ (MatcherEngine.get (r_pair raw) (books e) = None ->
      MatcherEngine.ingest raw e
      = Some (mkMatcherEngine
                (books e ++ [(r_pair raw, OrderBook.new (r_pair raw))])))
  /\ exists e',
       MatcherEngine.ingest raw e = Some e'
       /\ (MatcherEngine.finish e').2 = (MatcherEngine.finish e).2.
Proof.
  intros Hop Hi.
  assert (OrderBook.process raw (book_of (r_pair raw) e)
          = Some (book_of (r_pair raw) e)) as Hp.
  { unfold OrderBook.process. by rewrite Hop, Hi. }
  assert (Hsome : forall b, MatcherEngine.get (r_pair raw) (books e) = Some b ->
                            MatcherEngine.ingest raw e = Some e).
  { intros b Hg. rewrite (book_of_get _ _ _ Hg) in Hp.
    unfold MatcherEngine.ingest, MatcherEngine.bookFor. rewrite Hg, Hp.
    rewrite (set_get_same _ _ _ Hg). by destruct e. }
  assert (Hnone : MatcherEngine.get (r_pair raw) (books e) = None ->
                  MatcherEngine.ingest raw e
                  = Some (mkMatcherEngine
                            (books e ++ [(r_pair raw, OrderBook.new (r_pair raw))]))).
  { intros Hg. rewrite (book_of_new _ _ Hg) in Hp.
    unfold MatcherEngine.ingest, MatcherEngine.bookFor. rewrite Hg, Hp. simpl.
    by rewrite (set_none _ _ _ Hg), (set_last _ _ _ _ Hg). }
  split; [done|]. split; [by intros [b Hg]; eapply Hsome|]. split; [done|].
  destruct (MatcherEngine.get (r_pair raw) (books e)) as [b|] eqn:Hg.
  - exists e. split; [by eapply Hsome | done].
  - eexists. split; [by apply Hnone|]. simpl.
    rewrite fmap_app, flat_map_app. simpl. by rewrite app_nil_r.
Qed.

(** The order 2 of the sample stream was filled on arrival; a DELETE of it,
    and a DELETE of an id never seen, change nothing. *)
Lemma C6_delete_unknown_witness :
  MatcherEngine.ingest (cmd DELETE BUY "2" "11" "3") demo_engine = Some demo_engine
  /\ MatcherEngine.ingest (cmd DELETE BUY "99" "11" "3") demo_engine = Some demo_engine.
Proof.
  split.
  - apply (C6_delete_unknown demo_engine (cmd DELETE BUY "2" "11" "3"));
      [reflexivity | vm_compute; reflexivity | vm_compute; by eexists].
  - apply (C6_delete_unknown demo_engine (cmd DELETE BUY "99" "11" "3"));
      [reflexivity | vm_compute; reflexivity | vm_compute; by eexists].
Defined.

(** On an engine that has no book for the pair, the DELETE leaves a book
    behind. *)
Lemma C6_delete_unknown_counterexample :
  MatcherEngine.run [] = Some MatcherEngine.new
  /\ ~ delete_is_noop MatcherEngine.new (cmd DELETE SELL "1" "10" "5").
Proof.
  split; [reflexivity|].
  intros H. specialize (H eq_refl eq_refl). vm_compute in H. discriminate.
Qed.

(** ** CREATE of a zero amount *)

Lemma set_same_output pair v v' m :
  MatcherEngine.get pair m = Some v ->
  OrderBook.normalize v' = OrderBook.normalize v -> trades v' = trades v ->
  OrderBook.normalize <$> (snd <$> MatcherEngine.set pair v' m)
  = OrderBook.normalize <$> (snd <$> m)
  /\ flat_map trades (snd <$> MatcherEngine.set pair v' m)
     = flat_map trades (snd <$> m).
Proof.
  intros Hg Hn Ht. induction m as [|[k w] m IH]; [done|].
  cbn [MatcherEngine.get MatcherEngine.set] in *.
  destruct (String.eqb_spec k pair) as [-> | E].
  - injection Hg as ->. rewrite !fmap_cons. simpl. by rewrite Hn, Ht.
  - destruct (IH Hg) as [IH1 IH2]. rewrite !fmap_cons. simpl in *.
    by rewrite IH1, IH2.
Qed.

(** C7.  A CREATE whose amount parses to zero is never matched (the guard
    of the loop is false at once) and never added: [process] only moves the
    sequence counter on.  The trades, the queues, the index and the snapshot
    of the book stay as they were; in the output of the engine the trades
    and the snapshots stay as they were too, but for the empty snapshot of
    the pair when the command is the first to name it. *)
Theorem C7_zero_amount raw b price a :
  type_op raw = CREATE ->
  Big.of_string (limit_price raw) = Some price ->
  Big.of_string (amount raw) = Some a ->
  Big.eq a Big.zero = true ->
  OrderBook.process raw b = Some (OrderBook.next_seq b)
  /\ OrderBook.match_body
       (mkBookOrder (order_id raw) (account_id raw) (r_side raw) (r_pair raw)
                    price a (seq b))
       (OrderBook.next_seq b) = None
  /\ trades (OrderBook.next_seq b) = trades b
  /\ bids (OrderBook.next_seq b) = bids b
  /\ asks (OrderBook.next_seq b) = asks b
  /\ idIndex (OrderBook.next_seq b) = idIndex b
  /\ OrderBook.normalize (OrderBook.next_seq b) = OrderBook.normalize b
  /\ forall e, exists e',
       MatcherEngine.ingest raw e = Some e'
       /\ (MatcherEngine.finish e').2 = (MatcherEngine.finish e).2
       /\ ((MatcherEngine.finish e').1 = (MatcherEngine.finish e).1
           \/ (MatcherEngine.finish e').1
              = (MatcherEngine.finish e).1 ++ [mkOrder (r_pair raw) [] []]).
Proof.
  intros Hop Hprice Hamt Hz.
  assert (Hbody : forall b0,
    OrderBook.match_body
      (mkBookOrder (order_id raw) (account_id raw) (r_side raw) (r_pair raw)
                   price a (seq b0)) (OrderBook.next_seq b0) = None).
  { intros b0. apply match_body_spent. simpl. by big_prop. }
  assert (Hproc : forall b0, OrderBook.process raw b0 = Some (OrderBook.next_seq b0)).
  { intros b0. unfold OrderBook.process. rewrite Hop, Hprice, Hamt.
    unfold OrderBook.match_. rewrite (match_loop_left _ _ _ (Hbody b0)).
    cbn [o_remaining].
    assert (Big.gt a Big.zero = false) as ->; [|done]. big_prop. lra. }
  split; [apply Hproc|]. split; [apply Hbody|]. repeat (split; [done|]).
  intros e. unfold MatcherEngine.ingest, MatcherEngine.bookFor.
  destruct (MatcherEngine.get (r_pair raw) (books e)) as [b0|] eqn:Hg.
  - rewrite Hproc. eexists. split; [done|].
    destruct (set_same_output (r_pair raw) b0 (OrderBook.next_seq b0) (books e) Hg)
      as [H1 H2]; [done | done |].
    simpl. split; [exact H2 | left; exact H1].
  - rewrite Hproc. eexists. split; [done|]. simpl.
    rewrite (set_none _ _ _ Hg), (set_last _ _ _ _ Hg).
    rewrite !fmap_app, flat_map_app. simpl. split; [by rewrite app_nil_r | by right].
Qed.

Lemma C7_zero_amount_witness :
  OrderBook.process (cmd CREATE BUY "9" "11" "0.00") demo_book
  = Some (OrderBook.next_seq demo_book).
Proof.
  apply (C7_zero_amount (cmd CREATE BUY "9" "11" "0.00") demo_book
           (Big.mk 11 0) (Big.mk 0 2)); reflexivity.
Defined.

(** ** CREATE under an id that rests already *)

Lemma passes_own k incoming b incoming' b' :
  loop_inv incoming b ->
  OrderBook.passes k incoming b = Some (incoming', b') ->
  own (o_side incoming) b' = own (o_side incoming) b.
Proof.
  intros Hinv Hp.
  apply (passes_ind (fun i bk => o_side i = o_side incoming
                                 /\ own (o_side incoming) bk = own (o_side incoming) b)
           k incoming b incoming' b'); try done.
  intros i1 b1 i2 b2 Hinv1 [Hs Ho] Hbody.
  destruct (match_body_Some _ _ _ _ Hbody (wf_bookSide_side _ _ (li_wf _ _ Hinv1)))
    as (best & rest & _ & _ & _ & -> & ->).
  split; [done|]. by rewrite <- Hs, after_pass_own, Hs.
Qed.

(** C9, as amended.  In a well-formed book, let a CREATE carry the id of an
    order [old] that still rests once the new order has been matched, and let
    the new order have a positive remaining then.  [process] adds the new
    order: the index entry of the id names the new order, and both orders,
    two distinct objects, rest in the queues.  An order that rests on the
    side of the new order is never touched by its matching, so the condition
    on [old] always holds for it. *)
Theorem C9_duplicate_id raw b order b0 :
  book_wf b ->
  OrderBook.start raw b = Some (order, b0) ->
  Big.gt (o_remaining (OrderBook.match_ order b0).1) Big.zero = true ->
  let order' := (OrderBook.match_ order b0).1 in
  let b1 := (OrderBook.match_ order b0).2 in
  OrderBook.process raw b = Some (OrderBook.add order' b1)
  /\ own (r_side raw) b1 = own (r_side raw) b
  /\ (forall old, old ∈ own (r_side raw) b -> old ∈ resting b1)
  /\ forall old,
       old ∈ resting b1 -> o_id old = order_id raw ->
       idIndex (OrderBook.add order' b1) !! order_id raw = Some (o_ts order')
       /\ o_ts order' = seq b
       /\ o_ts old <> o_ts order'
       /\ old ∈ resting (OrderBook.add order' b1)
       /\ order' ∈ resting (OrderBook.add order' b1).
Proof.
  intros Hwf Hs Hgt order' b1.
  pose proof (start_loop_inv _ _ _ _ Hwf Hs) as Hinv0.
  destruct (match_spec order b0 (li_wf _ _ Hinv0)) as (n & Hn & _ & _).
  fold order' b1 in Hn.
  assert (OrderBook.match_ order b0 = (order', b1)) as Hm by by destruct (OrderBook.match_ _ _).
  rewrite Hm in Hn.
  pose proof (passes_loop_inv _ _ _ _ _ Hinv0 Hn) as [Hwf1 Hseq1 Hts1].
  destruct (passes_incoming _ _ _ _ _ Hn) as (Eid & _ & Eside & _ & _ & Ets).
  destruct (start_order _ _ _ _ Hs) as (_ & Hid & Hside & _ & _ & _ & _ & Hts & ->).
  assert (Hown : own (r_side raw) b1 = own (r_side raw) b).
  { rewrite <- Hside. by rewrite (passes_own _ _ _ _ _ Hinv0 Hn). }
  split; [|split; [|split]].
  - rewrite (process_create _ _ _ _ Hs). subst order' b1. by rewrite Hgt.
  - exact Hown.
  - intros old Hold. apply (elem_of_resting (r_side raw)). left. by rewrite Hown.
  - intros old Hold Holdid.
    assert (Hidx : idIndex (OrderBook.add order' b1)
                   = <[o_id order' := o_ts order']> (idIndex b1)).
    { unfold OrderBook.add. by destruct (o_side order'). }
    split; [|split; [|split; [|split]]].
    + rewrite Hidx, Eid, Hid. apply lookup_insert_eq.
    + congruence.
    + rewrite Forall_forall in Hts1. specialize (Hts1 old Hold). lia.
    + rewrite add_resting. by right.
    + rewrite add_resting. by left.
Qed.

(** A second sell under the id 1, behind the first one. *)
Lemma C9_duplicate_id_witness :
  exists b',
    OrderBook.process (cmd CREATE SELL "1" "12" "1") demo_book = Some b'
    /\ length (asks b') = 3%nat.
Proof.
  destruct (C9_duplicate_id (cmd CREATE SELL "1" "12" "1") demo_book
              (mkBookOrder "1" "7" SELL "BTC/USDC" (Big.mk 12 0) (Big.mk 1 0) 3)
              (OrderBook.next_seq demo_book)) as (Hp & _).
  - compute_done.
  - vm_compute. reflexivity.
  - vm_compute. reflexivity.
  - eexists. split; [exact Hp|]. vm_compute. reflexivity.
Defined.

Lemma C9_duplicate_id_counterexample :
  MatcherEngine.run self_cmds
    = Some (mkMatcherEngine [("BTC/USDC"%string, self_book)])
  /\ ~ keeps_both self_book self_raw self_old self_after.
Proof.
  split; [vm_compute; reflexivity|].
  intros H. destruct H as (_ & Hold & _).
  - reflexivity.
  - vm_compute. left.
  - reflexivity.
  - vm_compute. reflexivity.
  - vm_compute. left. reflexivity.
  - vm_compute in Hold. apply Exists_cons in Hold as [Hold | Hold]; [done|].
    by apply Exists_nil in Hold.
Qed.

(** ** Termination of the loop *)

(** C10.  Over a well-formed book (all its resting orders have a positive
    remaining) the loop of [match] is left: each pass either takes the top
    out of the opposite queue, which gets shorter, or ends with nothing left
    of the incoming order, after which the guard is false.  So the loop
    makes no more passes than the opposite queue has orders, and no more than
    that number plus one a fortiori, and [match] is the state in which the
    loop is left. *)
Theorem C10_match_terminates incoming b :
  book_wf b ->
  (exists n incoming' b',
     OrderBook.match_loop (Heap.size (OrderBook.bookSide (o_side incoming) b))
       incoming b = Some (n, incoming', b')
     /\ (n <= Heap.size (OrderBook.bookSide (o_side incoming) b))%nat
     /\ (n <= Heap.size (OrderBook.bookSide (o_side incoming) b) + 1)%nat
     /\ OrderBook.passes n incoming b = Some (incoming', b')
     /\ OrderBook.match_body incoming' b' = None
     /\ OrderBook.match_ incoming b = (incoming', b'))
  /\ forall incoming1 b1,
       OrderBook.match_body incoming b = Some (incoming1, b1) ->
       ((Big.toQ (o_remaining incoming1) == 0)%Q
        /\ OrderBook.match_body incoming1 b1 = None)
       \/ (Heap.size (OrderBook.bookSide (o_side incoming) b1)
           < Heap.size (OrderBook.bookSide (o_side incoming) b))%nat.
Proof.
  intros Hwf. split.
  - destruct (match_loop_fuel (Heap.size (OrderBook.bookSide (o_side incoming) b))
                incoming b Hwf) as (n & i & r & Hl & Hn); [done|].
    exists n, i, r. split; [done|]. split; [done|]. split; [lia|].
    destruct (match_loop_passes _ _ _ _ _ _ Hl) as [Hp Hend].
    split; [done|]. split; [done|].
    unfold OrderBook.match_. by rewrite Hl.
  - intros i1 b1 Hbody.
    destruct (pass_incoming _ _ _ _ Hbody) as (_ & _ & Es & _).
    destruct (pass_progress _ _ _ _ Hwf Hbody) as [H | [H _]].
    + right. rewrite Es in H. lia.
    + left. split; [done | by apply match_body_spent].
Qed.

Lemma C10_match_terminates_witness :
  exists incoming' b',
    OrderBook.match_loop 2 demo_sweep (OrderBook.next_seq demo_book)
      = Some (2%nat, incoming', b')
    /\ OrderBook.match_body incoming' b' = None.
Proof.
  destruct (C10_match_terminates demo_sweep (OrderBook.next_seq demo_book))
    as [(n & i & r & Hl & _ & _ & _ & Hend & _) _].
  - compute_done.
  - exists i, r. split; [|exact Hend].
    assert (n = 2%nat) as ->; [|exact Hl].
    vm_compute in Hl. by injection Hl.
Defined.

(** ** Canonical decimals in the output *)

(** C8.  Let [D] be a valid decimal string.  A decimal of the value of [D]
    prints as the canonical form of [D]: no superfluous zero, no trailing
    point.  So do the price and the amount of a trade, and the price and the
    remaining of a snapshot line, whenever the decimal they print has the
    value of [D]. *)
Theorem C8_canonical_text D d :
  Big.of_string D = Some d ->
  (forall x, (Big.toQ x == Big.toQ d)%Q -> Big.toString x = canonical D)
  /\ (forall pair incoming best,
        (Big.toQ (o_price best) == Big.toQ d)%Q ->
        t_price (OrderBook.mkTradeOf pair incoming best) = canonical D)
  /\ (forall pair incoming best,
        (Big.toQ (OrderBook.tradeQty incoming best) == Big.toQ d)%Q ->
        t_amount (OrderBook.mkTradeOf pair incoming best) = canonical D)
  /\ (forall o, (Big.toQ (o_price o) == Big.toQ d)%Q ->
                l_price (OrderBook.level o) = canonical D)
  /\ (forall o, (Big.toQ (o_remaining o) == Big.toQ d)%Q ->
                l_remaining (OrderBook.level o) = canonical D).
Proof.
  intros HD.
  assert (H : forall x, (Big.toQ x == Big.toQ d)%Q -> Big.toString x = canonical D).
  { intros x E. rewrite (toString_eq x d E). by apply toString_of_string. }
  split; [exact H|]. repeat split; intros; simpl; by apply H.
Qed.

Lemma C8_canonical_text_witness :
  Big.toString (Big.mk 23 4) = "0.0023"%string
  /\ Big.toString (Big.mk 6350000 2) = canonical "63500.00".
Proof.
  split.
  - apply (C8_canonical_text "0.00230" (Big.mk 230 5) eq_refl). reflexivity.
  - apply (C8_canonical_text "63500.00" (Big.mk 6350000 2) eq_refl). reflexivity.
Defined.

(** ** Streams, pair by pair *)

Lemma process_None_iff raw b : OrderBook.process raw b = None <-> bad_decimal raw.
Proof.
  unfold OrderBook.process, bad_decimal.
  destruct (type_op raw).
  - destruct (Big.of_string (limit_price raw)) as [price|];
      [destruct (Big.of_string (amount raw)) as [remaining|]|].
    + destruct (OrderBook.match_ _ _) as [order' b'].
      destruct (Big.gt _ _); split; try done; intros [_ [?|?]]; done.
    + split; [intros _; split; [done | by right] | done].
    + split; [intros _; split; [done | by left] | done].
  - split; [|by intros [? _]].
    destruct (idIndex b !! order_id raw); [|done].
    by destruct (OrderBook.deref _ _).
Qed.

Lemma ingest_None_iff raw e : MatcherEngine.ingest raw e = None <-> bad_decimal raw.
Proof.
  unfold MatcherEngine.ingest.
  destruct (MatcherEngine.bookFor (r_pair raw) e) as [book e0].
  destruct (OrderBook.process raw book) eqn:Hp.
  - split; [done|]. intros Hbad. apply (process_None_iff raw book) in Hbad. congruence.
  - split; [|done]. intros _. by apply (process_None_iff raw book).
Qed.

Lemma run_from_None_iff cmds e :
  MatcherEngine.run_from e cmds = None <-> exists c, c ∈ cmds /\ bad_decimal c.
Proof.
  revert e. induction cmds as [|raw cmds IH]; intros e; simpl.
  - split; [done|]. intros (c & Hc & _). by apply elem_of_nil in Hc.
  - destruct (MatcherEngine.ingest raw e) as [e1|] eqn:Hi.
    + rewrite IH. split.
      * intros (c & Hc & Hbad). exists c. split; [by right | done].
      * intros (c & Hc & Hbad). apply elem_of_cons in Hc as [-> | Hc].
        -- apply (ingest_None_iff _ e) in Hbad. congruence.
        -- by exists c.
    + split; [|done]. intros _. exists raw. split; [by left|].
      by apply (ingest_None_iff raw e).
Qed.

Lemma process_all_app cmds1 cmds2 b :
  OrderBook.process_all (cmds1 ++ cmds2) b
  = match OrderBook.process_all cmds1 b with
    | Some b1 => OrderBook.process_all cmds2 b1
    | None => None
    end.
Proof.
  revert b. induction cmds1 as [|c cmds1 IH]; intros b; simpl; [done|].
  destruct (OrderBook.process c b); [apply IH | done].
Qed.

Lemma for_pair_app pair l1 l2 :
  for_pair pair (l1 ++ l2) = for_pair pair l1 ++ for_pair pair l2.
Proof. apply filter_app. Qed.

Lemma for_pair_none pair cmds :
  (forall c, c ∈ cmds -> r_pair c <> pair) -> for_pair pair cmds = [].
Proof.
  intros H. induction cmds as [|c cmds IH]; [done|].
  unfold for_pair. rewrite filter_cons. destruct (decide (r_pair c = pair)) as [E|_].
  - exfalso. apply (H c); [by left | done].
  - apply IH. intros c' Hc'. apply H. by right.
Qed.

Lemma run_book_alone cmds e pair b :
  MatcherEngine.run cmds = Some e ->
  MatcherEngine.get pair (books e) = Some b ->
  book_alone pair cmds = Some b.
Proof.
  intros Hrun Hg.
  eapply (run_prefix (fun pre p bk => book_alone p pre = Some bk));
    [| | |exact Hrun|exact Hg].
  - intros pre p Hno. unfold book_alone. by rewrite for_pair_none.
  - intros pre raw e0 b' _ Hpre Hp. unfold book_alone in *.
    rewrite for_pair_app, process_all_app, Hpre.
    unfold for_pair. rewrite filter_cons, decide_True by done. simpl. by rewrite Hp.
  - intros pre raw p bk Hne Hpre. unfold book_alone in *.
    rewrite for_pair_app. unfold for_pair at 2.
    rewrite filter_cons, decide_False by done. simpl. by rewrite app_nil_r.
Qed.

Lemma filter_filter_ne (ks : list string) p (l : list string) :
  p ∈ ks ->
  filter (fun q => q ∉ ks) (filter (fun q => q <> p) l) = filter (fun q => q ∉ ks) l.
Proof.
  intros Hp. induction l as [|x l IH]; [done|].
  rewrite (filter_cons (fun q => q <> p)). destruct (decide (x <> p)) as [Hx|Hx].
  - rewrite !filter_cons. destruct (decide (x ∉ ks)); by rewrite IH.
  - apply dec_stable in Hx. subst x.
    rewrite (filter_cons (fun q => q ∉ ks)), decide_False by (intros H; by apply H).
    exact IH.
Qed.

Lemma filter_snoc_keys (ks : list string) p (l : list string) :
  filter (fun q => q ∉ ks ++ [p]) l
  = filter (fun q => q ∉ ks) (filter (fun q => q <> p) l).
Proof.
  induction l as [|x l IH]; [done|].
  rewrite (filter_cons (fun q => q <> p)), (filter_cons (fun q => q ∉ ks ++ [p])).
  destruct (decide (x <> p)) as [Hx|Hx].
  - rewrite filter_cons. destruct (decide (x ∉ ks)) as [Hk|Hk].
    + rewrite decide_True; [by rewrite IH|].
      rewrite elem_of_app, list_elem_of_singleton. tauto.
    + rewrite decide_False; [done|].
      rewrite elem_of_app. intros H. apply H. left. by apply dec_stable.
  - apply dec_stable in Hx. subst x.
    rewrite decide_False; [done|].
    rewrite elem_of_app, list_elem_of_singleton. tauto.
Qed.

Lemma ingest_keys raw e e' :
  MatcherEngine.ingest raw e = Some e' ->
  fst <$> books e'
  = (fst <$> books e)
    ++ (if decide (r_pair raw ∈ fst <$> books e) then [] else [r_pair raw]).
Proof.
  unfold MatcherEngine.ingest, MatcherEngine.bookFor. intros H.
  destruct (MatcherEngine.get (r_pair raw) (books e)) as [b|] eqn:Hg.
  - destruct (OrderBook.process raw b) as [b'|]; [|done]. injection H as <-. simpl.
    rewrite set_keys, Hg. rewrite decide_True; [by rewrite app_nil_r|].
    apply elem_get in Hg. apply list_elem_of_fmap. by exists (r_pair raw, b).
  - destruct (OrderBook.process raw (OrderBook.new (r_pair raw))) as [b'|]; [|done].
    injection H as <-. simpl. rewrite set_keys, get_set_eq, set_keys, Hg.
    rewrite decide_False; [done|]. by apply get_None_keys.
Qed.

Lemma run_from_first_seen cmds e e' :
  MatcherEngine.run_from e cmds = Some e' ->
  fst <$> books e'
  = (fst <$> books e)
    ++ filter (fun q => q ∉ fst <$> books e) (first_seen (r_pair <$> cmds)).
Proof.
  revert e. induction cmds as [|raw cmds IH]; intros e; simpl.
  - intros [= <-]. by rewrite app_nil_r.
  - destruct (MatcherEngine.ingest raw e) as [e1|] eqn:Hi; [|done].
    intros Hrun. rewrite (IH _ Hrun), (ingest_keys _ _ _ Hi).
    rewrite filter_cons.
    destruct (decide (r_pair raw ∈ fst <$> books e)) as [Hin|Hin].
    + rewrite app_nil_r, decide_False by (intros H; by apply H).
      by rewrite filter_filter_ne.
    + rewrite decide_True by done. rewrite <- app_assoc. simpl.
      by rewrite filter_snoc_keys.
Qed.

Lemma filter_all {A} (P : A -> Prop) `{forall x, Decision (P x)} (l : list A) :
  (forall x, P x) -> filter P l = l.
Proof.
  intros HP. induction l as [|x l IH]; [done|].
  rewrite filter_cons, decide_True by done. by rewrite IH.
Qed.

Lemma run_first_seen cmds e :
  MatcherEngine.run cmds = Some e ->
  fst <$> books e = first_seen (r_pair <$> cmds).
Proof.
  intros Hrun. rewrite (run_from_first_seen _ _ _ Hrun). simpl.
  apply filter_all. intros x Hx. by apply elem_of_nil in Hx.
Qed.

Lemma elem_of_first_seen p l : p ∈ first_seen l <-> p ∈ l.
Proof.
  induction l as [|q l IH]; simpl; [done|].
  rewrite !elem_of_cons, list_elem_of_filter, IH.
  destruct (decide (p = q)); tauto.
Qed.

Lemma run_get_None cmds e pair :
  MatcherEngine.run cmds = Some e ->
  pair ∉ (r_pair <$> cmds) ->
  MatcherEngine.get pair (books e) = None.
Proof.
  intros Hrun Hno.
  destruct (MatcherEngine.get pair (books e)) as [b|] eqn:Hg; [|done].
  exfalso. apply Hno. apply elem_of_first_seen.
  rewrite <- (run_first_seen _ _ Hrun).
  apply elem_get in Hg. apply list_elem_of_fmap. by exists (pair, b).
Qed.

(** The service answers unless [new Big] rejects the price or the amount of
    some CREATE of the input; the price and the amount of a DELETE are never
    read. *)
Theorem service_fails_iff orders :
  ProcessOrderService.process orders = None
  <-> exists c, c ∈ orders /\ bad_decimal c.
Proof.
  unfold ProcessOrderService.process, MatcherEngine.run.
  rewrite <- (run_from_None_iff orders MatcherEngine.new).
  by destruct (MatcherEngine.run_from MatcherEngine.new orders).
Qed.

(** The books of an engine are those of the pairs of the stream, in the
    order in which the pairs first occur, and the book of a pair is the one
    that the commands of that pair build on their own: the commands of
    another pair never change it. *)
Theorem books_by_pair cmds e :
  MatcherEngine.run cmds = Some e ->
  fst <$> books e = first_seen (r_pair <$> cmds)
  /\ forall pair,
       MatcherEngine.get pair (books e)
       = if decide (pair ∈ r_pair <$> cmds) then book_alone pair cmds else None.
Proof.
  intros Hrun. split; [by apply run_first_seen|].
  intros pair. destruct (decide (pair ∈ r_pair <$> cmds)) as [Hin|Hno].
  - apply list_elem_of_fmap in Hin as (c & -> & Hc).
    destruct (run_has_book _ _ _ Hrun Hc) as [b Hb].
    rewrite Hb. symmetry. by eapply run_book_alone.
  - by eapply run_get_None.
Qed.

Lemma books_by_pair_witness :
  exists e,
    MatcherEngine.run two_pairs = Some e
    /\ fst <$> books e = ["X"; "Y"]%string
    /\ MatcherEngine.get "Y"%string (books e) = book_alone "Y" two_pairs.
Proof.
  eexists. split; [reflexivity|].
  destruct (books_by_pair two_pairs _ eq_refl) as [Hk Hg].
  split; [exact Hk | exact (Hg "Y"%string)].
Defined.

(** [finish] reports the books pair by pair, in the order in which the pairs
    first occur in the stream: one snapshot for each, and the trades of the
    first pair before those of the second and so on, whatever the order in
    which the trades were made. *)
Theorem finish_by_pair cmds e :
  MatcherEngine.run cmds = Some e ->
  exists bs,
    Forall2 (fun p b => book_alone p cmds = Some b /\ ob_pair b = p)
            (first_seen (r_pair <$> cmds)) bs
    /\ MatcherEngine.finish e = (OrderBook.normalize <$> bs, flat_map trades bs).
Proof.
  intros Hrun. exists (snd <$> books e). split; [|done].
  rewrite <- (run_first_seen _ _ Hrun).
  apply Forall2_fmap, Forall_Forall2_diag, Forall_forall.
  intros [p b] Hin. simpl.
  assert (MatcherEngine.get p (books e) = Some b) as Hg.
  { apply get_elem; [by eapply run_keys | done]. }
  split; [by eapply run_book_alone|].
  by destruct (run_provenance _ _ _ _ Hrun Hg) as [Hp _].
Qed.

Lemma finish_by_pair_witness :
  exists e bs,
    MatcherEngine.run two_pairs = Some e
    /\ Forall2 (fun p b => book_alone p two_pairs = Some b /\ ob_pair b = p)
               ["X"; "Y"]%string bs
    /\ (MatcherEngine.finish e).2
       = [mkTrade "X" "4" "1" "10" "1"; mkTrade "Y" "3" "2" "10" "1"].
Proof.
  eexists.
  destruct (finish_by_pair two_pairs _ eq_refl) as (bs & HF & Hfin).
  exists bs. split; [reflexivity|]. split; [exact HF|]. reflexivity.
Defined.

(** ** What one command does to a book *)

Lemma body_trades incoming b incoming' b' :
  OrderBook.match_body incoming b = Some (incoming', b') ->
  exists best,
    trades b' = trades b ++ [OrderBook.mkTradeOf (ob_pair b) incoming best]
    /\ ob_pair b' = ob_pair b.
Proof.
  unfold OrderBook.match_body.
  destruct (andb _ _); [|done].
  destruct (Heap.peek _) as [best|]; [|done].
  destruct (negb _); [done|].
  intros [= <- <-]. exists best.
  destruct (Big.eq _ _); unfold OrderBook.remove, OrderBook.set_bookSide;
    simpl; by destruct (o_side incoming), (o_side best).
Qed.

Lemma loop_trades fuel incoming b n incoming' b' :
  OrderBook.match_loop fuel incoming b = Some (n, incoming', b') ->
  exists new,
    trades b' = trades b ++ new /\ length new = n /\ ob_pair b' = ob_pair b
    /\ Forall (fun t =>
         t_pair t = ob_pair b
         /\ match o_side incoming with
            | BUY => buyOrderId t = o_id incoming
            | SELL => sellOrderId t = o_id incoming
            end) new.
Proof.
  revert incoming b n incoming' b'.
  induction fuel as [|fuel IH]; intros incoming b n incoming' b'; simpl.
  - destruct (OrderBook.match_body incoming b) as [[i1 b1]|]; [done|].
    intros [= <- <- <-]. exists []. by rewrite app_nil_r.
  - destruct (OrderBook.match_body incoming b) as [[i1 b1]|] eqn:Hbody.
    + destruct (OrderBook.match_loop fuel i1 b1) as [[[n1 i2] b2]|] eqn:Hloop; [|done].
      intros [= <- <- <-].
      destruct (IH _ _ _ _ _ Hloop) as (new & Ht & Hlen & Hp & Hall).
      destruct (body_trades _ _ _ _ Hbody) as (best & Ht1 & Hp1).
      destruct (pass_incoming _ _ _ _ Hbody) as (Eid & _ & Eside & _).
      exists (OrderBook.mkTradeOf (ob_pair b) incoming best :: new).
      split; [by rewrite Ht, Ht1, <- app_assoc|].
      split; [simpl; by rewrite Hlen|]. split; [congruence|].
      apply Forall_cons. split.
      * split; [done|]. unfold OrderBook.mkTradeOf. simpl.
        by destruct (o_side incoming).
      * rewrite Hp1, Eside, Eid in Hall. exact Hall.
    + intros [= <- <- <-]. exists []. by rewrite app_nil_r.
Qed.

Lemma match_trades incoming b :
  exists new,
    trades (OrderBook.match_ incoming b).2 = trades b ++ new
    /\ ob_pair (OrderBook.match_ incoming b).2 = ob_pair b
    /\ Forall (fun t =>
         t_pair t = ob_pair b
         /\ match o_side incoming with
            | BUY => buyOrderId t = o_id incoming
            | SELL => sellOrderId t = o_id incoming
            end) new.
Proof.
  unfold OrderBook.match_.
  destruct (OrderBook.match_loop _ incoming b) as [[[n i] r]|] eqn:Hloop.
  - destruct (loop_trades _ _ _ _ _ _ Hloop) as (new & Ht & _ & Hp & Hall).
    by exists new.
  - exists []. by rewrite app_nil_r.
Qed.

(** [process] only appends to the trades of the book: the trades made
    earlier stay as they are and where they are.  A DELETE appends none; each
    trade that a CREATE appends is a trade of this pair and carries the id of
    the new order on its own side, as buyer for a BUY and as seller for a
    SELL. *)
Theorem process_appends_trades raw b b' :
  OrderBook.process raw b = Some b' ->
  exists new,
    trades b' = trades b ++ new
    /\ (type_op raw = DELETE -> new = [])
    /\ Forall (names_taker raw (ob_pair b)) new.
Proof.
  unfold OrderBook.process. destruct (type_op raw).
  - destruct (Big.of_string (limit_price raw)) as [price|]; [|done].
    destruct (Big.of_string (amount raw)) as [remaining|]; [|done].
    set (order := mkBookOrder _ _ _ _ _ _ _).
    destruct (match_trades order (OrderBook.next_seq b)) as (new & Ht & _ & Hall).
    destruct (OrderBook.match_ order (OrderBook.next_seq b)) as [order' b1].
    simpl in Ht. intros H. exists new.
    split; [|split; [done | exact Hall]].
    destruct (Big.gt _ _); injection H as <-; [by rewrite add_trades | done].
  - intros H. exists []. rewrite app_nil_r. split; [|done].
    destruct (idIndex b !! order_id raw); [|by injection H as <-].
    destruct (OrderBook.deref _ _); injection H as <-; [by rewrite remove_trades | done].
Qed.

Lemma process_appends_trades_witness :
  exists new,
    trades demo_book = [mkTrade "BTC/USDC" "2" "1" "10.5" "3"] /\
    OrderBook.process (cmd CREATE BUY "9" "10.5" "4") demo_book <> None
    /\ trades (default demo_book
                 (OrderBook.process (cmd CREATE BUY "9" "10.5" "4") demo_book))
       = trades demo_book ++ new
    /\ length new = 2%nat
    /\ Forall (names_taker (cmd CREATE BUY "9" "10.5" "4") "BTC/USDC") new.
Proof.
  destruct (process_appends_trades (cmd CREATE BUY "9" "10.5" "4") demo_book _ eq_refl)
    as (new & Ht & _ & Hall).
  exists new. split; [reflexivity|]. split; [done|]. split; [exact Ht|].
  split; [|exact Hall].
  apply (f_equal length) in Ht. rewrite length_app in Ht.
  change (3 = 1 + length new)%nat in Ht. lia.
Defined.

(** ** Cancelling *)

Lemma resting_ts_eq b x y :
  book_wf b -> x ∈ resting b -> y ∈ resting b -> o_ts x = o_ts y -> x = y.
Proof.
  intros Hwf%book_wf_gen. apply NoDup_fmap_eq. by destruct Hwf.
Qed.

Lemma remove_elem b found x :
  book_wf b -> found ∈ resting b ->
  x ∈ resting (OrderBook.remove found b) <-> x ∈ resting b /\ x <> found.
Proof.
  intros Hwf Hin. pose proof Hwf as Hg%book_wf_gen.
  rewrite remove_resting by done.
  rewrite elem_of_remove_iff by (by destruct Hg). split.
  - intros [Hx Hts]. split; [done|]. by intros ->.
  - intros [Hx Hne]. split; [done|]. intros E. apply Hne. by eapply resting_ts_eq.
Qed.

Lemma remove_idIndex order b :
  idIndex (OrderBook.remove order b) = delete (o_id order) (idIndex b).
Proof. unfold OrderBook.remove. by destruct (o_side order). Qed.

Lemma remove_seq order b : seq (OrderBook.remove order b) = seq b.
Proof. unfold OrderBook.remove. by destruct (o_side order). Qed.

(** A DELETE whose id is in the index of a well-formed book takes out the
    one order that the index points to and its index entry.  Every other
    order stays, with its remaining and at its place in its queue; trades
    and sequence counter do not change. *)
Theorem delete_removes_one raw b ref :
  book_wf b ->
  type_op raw = DELETE ->
  idIndex b !! order_id raw = Some ref ->
  exists found,
    found ∈ resting b /\ o_ts found = ref /\ o_id found = order_id raw
    /\ OrderBook.process raw b = Some (OrderBook.remove found b)
    /\ (forall x, x ∈ resting (OrderBook.remove found b)
                  <-> x ∈ resting b /\ x <> found)
    /\ (forall s, own s (OrderBook.remove found b) `sublist_of` own s b)
    /\ idIndex (OrderBook.remove found b) = delete (order_id raw) (idIndex b)
    /\ trades (OrderBook.remove found b) = trades b
    /\ seq (OrderBook.remove found b) = seq b
    /\ book_wf (OrderBook.remove found b).
Proof.
  intros Hwf Hop Hi.
  destruct (index_live _ _ _ Hwf Hi) as (found & Hd & Hin & Hts & Hid).
  exists found. split_and!; try done.
  - rewrite process_delete by done. by rewrite Hi, Hd.
  - intros x. by apply remove_elem.
  - intros s. rewrite remove_own. destruct (decide _); [apply remove_sublist | done].
  - by rewrite remove_idIndex, Hid.
  - apply remove_trades.
  - apply remove_seq.
  - by apply wf_remove.
Qed.

Lemma delete_removes_one_witness :
  exists found,
    found ∈ resting demo_book /\ o_ts found = 2%nat /\ o_id found = "3"%string
    /\ OrderBook.process (cmd DELETE SELL "3" "0" "0") demo_book
       = Some (OrderBook.remove found demo_book)
    /\ (forall x, x ∈ resting (OrderBook.remove found demo_book)
                  <-> x ∈ resting demo_book /\ x <> found)
    /\ (forall s, own s (OrderBook.remove found demo_book) `sublist_of` own s demo_book)
    /\ idIndex (OrderBook.remove found demo_book)
       = delete "3"%string (idIndex demo_book)
    /\ trades (OrderBook.remove found demo_book) = trades demo_book
    /\ seq (OrderBook.remove found demo_book) = seq demo_book
    /\ book_wf (OrderBook.remove found demo_book).
Proof.
  apply (delete_removes_one (cmd DELETE SELL "3" "0" "0") demo_book 2);
    [compute_done | reflexivity | reflexivity].
Defined.

(** The same DELETE a second time changes nothing: once its order is gone
    the id is unknown to the book. *)
Theorem delete_twice raw b b' :
  book_wf b ->
  type_op raw = DELETE ->
  OrderBook.process raw b = Some b' ->
  OrderBook.process raw b' = Some b'
  /\ idIndex b' !! order_id raw = None.
Proof.
  intros Hwf Hop Hp.
  assert (idIndex b' !! order_id raw = None) as Hnone.
  { rewrite process_delete in Hp by done. injection Hp as <-.
    destruct (idIndex b !! order_id raw) as [ref|] eqn:Hi; [|done].
    destruct (index_live _ _ _ Hwf Hi) as (found & -> & _ & _ & Hid).
    rewrite remove_idIndex, Hid. apply lookup_delete_eq. }
  split; [|done].
  unfold OrderBook.process. by rewrite Hop, Hnone.
Qed.

Lemma delete_twice_witness :
  OrderBook.process (cmd DELETE SELL "3" "0" "0") demo_book <> None
  /\ OrderBook.process (cmd DELETE SELL "3" "0" "0")
       (default demo_book (OrderBook.process (cmd DELETE SELL "3" "0" "0") demo_book))
     = Some (default demo_book
               (OrderBook.process (cmd DELETE SELL "3" "0" "0") demo_book))
  /\ idIndex (default demo_book
                (OrderBook.process (cmd DELETE SELL "3" "0" "0") demo_book))
       !! "3"%string = None.
Proof.
  split; [done|].
  apply (delete_twice (cmd DELETE SELL "3" "0" "0") demo_book);
    [compute_done | reflexivity | reflexivity].
Defined.

Lemma remove_push cmp o h :
  Forall (fun x => o_ts x <> o_ts o) h -> Heap.remove o (Heap.push cmp o h) = h.
Proof.
  induction h as [|x h IH]; intros Hall; simpl.
  - unfold same_order. by rewrite Nat.eqb_refl.
  - apply Forall_cons in Hall as [Hx Hall].
    destruct (cmp o x <=? 0); simpl.
    + unfold same_order. by rewrite Nat.eqb_refl.
    + unfold same_order. rewrite (proj2 (Nat.eqb_neq _ _)) by done.
      by rewrite IH.
Qed.

Lemma remove_add order b :
  Forall (fun x => o_ts x <> o_ts order) (resting b) ->
  idIndex b !! o_id order = None ->
  OrderBook.remove order (OrderBook.add order b) = b.
Proof.
  intros Hall Hi. unfold resting in Hall. apply Forall_app in Hall as [Hb Ha].
  unfold OrderBook.remove, OrderBook.add. destruct b as [p bs as_ idx sq tr].
  simpl in *. destruct (o_side order); simpl;
    rewrite remove_push by done; rewrite delete_insert_id by done; done.
Qed.

Lemma process_start raw b b' :
  type_op raw = CREATE -> OrderBook.process raw b = Some b' ->
  exists order, OrderBook.start raw b = Some (order, OrderBook.next_seq b).
Proof.
  intros Hop Hp. destruct (OrderBook.start raw b) as [[order b0]|] eqn:Hs.
  - destruct (start_order _ _ _ _ Hs) as (_ & _ & _ & _ & _ & _ & _ & _ & ->).
    by exists order.
  - rewrite process_create_None in Hp by done. done.
Qed.

Lemma match_loop_run incoming b :
  book_wf b ->
  exists n,
    OrderBook.match_loop (Heap.size (OrderBook.bookSide (o_side incoming) b))
      incoming b
    = Some (n, (OrderBook.match_ incoming b).1, (OrderBook.match_ incoming b).2).
Proof.
  intros Hwf.
  destruct (match_loop_fuel (Heap.size (OrderBook.bookSide (o_side incoming) b))
              incoming b Hwf (le_n _)) as (n & i & r & Hloop & _).
  exists n. unfold OrderBook.match_. by rewrite Hloop.
Qed.

(** A CREATE that makes no trade, then the DELETE of its id: when the id was
    not in the index before, the book is as it was before the two commands,
    queues, index and trades, except that the sequence counter has moved on
    by one. *)
Theorem create_then_delete c d b b1 :
  book_wf b ->
  type_op c = CREATE -> type_op d = DELETE -> order_id d = order_id c ->
  idIndex b !! order_id c = None ->
  OrderBook.process c b = Some b1 ->
  trades b1 = trades b ->
  OrderBook.process d b1 = Some (OrderBook.next_seq b).
Proof.
  intros Hwf Hc Hd Hid Hnone Hp Htr.
  pose proof (process_wf _ _ _ Hwf Hp) as Hwf1.
  destruct (process_start _ _ _ Hc Hp) as (order & Hs).
  destruct (start_order _ _ _ _ Hs) as (_ & Hoid & _ & _ & _ & _ & _ & Hts & _).
  pose proof (start_loop_inv _ _ _ _ Hwf Hs) as Hinv.
  rewrite (process_create _ _ _ _ Hs) in Hp. injection Hp as Hb1.
  destruct (match_loop_run order _ (li_wf _ _ Hinv)) as (n & Hloop).
  destruct (loop_trades _ _ _ _ _ _ Hloop) as (new & Ht & Hlen & _).
  assert (n = O) as ->.
  { assert (trades b1 = trades (OrderBook.match_ order (OrderBook.next_seq b)).2) as E.
    { rewrite <- Hb1. destruct (Big.gt _ _); [apply add_trades | done]. }
    rewrite E, Ht in Htr. simpl in Htr.
    rewrite <- (app_nil_r (trades b)) in Htr at 2.
    apply app_inv_head in Htr. subst new. by rewrite <- Hlen. }
  destruct (match_loop_passes _ _ _ _ _ _ Hloop) as [Hpass _].
  simpl in Hpass. injection Hpass as Ho Hb. rewrite <- Ho, <- Hb in Hb1. clear Ho Hb.
  assert (idIndex (OrderBook.next_seq b) !! o_id order = None) as Hnone0
    by (by rewrite Hoid).
  destruct (Big.gt (o_remaining order) Big.zero); subst b1.
  - assert (idIndex (OrderBook.add order (OrderBook.next_seq b)) !! order_id d
            = Some (o_ts order)) as Hi.
    { unfold OrderBook.add. rewrite Hid, <- Hoid.
      destruct (o_side order); simpl; apply lookup_insert_eq. }
    destruct (index_live _ _ _ Hwf1 Hi) as (found & Hd' & Hin & Hfts & _).
    assert (found = order) as ->.
    { eapply resting_ts_eq; [exact Hwf1 | exact Hin | | exact Hfts].
      rewrite add_resting. by left. }
    rewrite process_delete by done. rewrite Hi, Hd'. f_equal.
    apply remove_add; [|done].
    apply li_ts in Hinv. eapply Forall_impl; [exact Hinv|]. simpl. intros; lia.
  - unfold OrderBook.process. rewrite Hd, Hid. by rewrite <- Hoid, Hnone0.
Qed.

Lemma create_then_delete_witness :
  OrderBook.process (cmd CREATE BUY "9" "9.5" "1") demo_book <> None
  /\ OrderBook.process (cmd DELETE BUY "9" "" "")
       (default demo_book
          (OrderBook.process (cmd CREATE BUY "9" "9.5" "1") demo_book))
     = Some (OrderBook.next_seq demo_book).
Proof.
  split; [done|].
  apply (create_then_delete (cmd CREATE BUY "9" "9.5" "1")
           (cmd DELETE BUY "9" "" "") demo_book);
    [compute_done | reflexivity | reflexivity | reflexivity | reflexivity
    | reflexivity | reflexivity].
Defined.

(** ** An id used twice *)

Lemma process_keeps_own raw b b' x :
  book_wf b -> type_op raw = CREATE ->
  OrderBook.process raw b = Some b' ->
  x ∈ own (r_side raw) b -> x ∈ own (r_side raw) b'.
Proof.
  intros Hwf Hop Hp Hx.
  destruct (process_start _ _ _ Hop Hp) as (order & Hs).
  destruct (start_order _ _ _ _ Hs) as (_ & _ & Hside & _).
  pose proof (start_loop_inv _ _ _ _ Hwf Hs) as Hinv.
  rewrite (process_create _ _ _ _ Hs) in Hp. injection Hp as <-.
  destruct (match_spec order _ (li_wf _ _ Hinv)) as (n & Hpass & _).
  destruct (OrderBook.match_ order (OrderBook.next_seq b)) as [i r] eqn:Hm.
  pose proof (passes_own _ _ _ _ _ Hinv Hpass) as Hown.
  destruct (passes_incoming _ _ _ _ _ Hpass) as (_ & _ & Hside' & _).
  rewrite Hside in Hown. simpl in *.
  assert (x ∈ own (r_side raw) r) as Hxr.
  { rewrite Hown. by destruct (r_side raw). }
  destruct (Big.gt _ _); [|done].
  rewrite add_own. destruct (decide _); [|done].
  apply elem_of_push. by right.
Qed.

(** After a CREATE has taken over the index entry of an order that rests on
    its own side under the same id, a DELETE of that id cancels the new order
    only.  The older order stays in its queue with no index entry, out of
    reach of any further DELETE of the id. *)
Theorem duplicate_id_orphan raw d b b1 old :
  book_wf b ->
  type_op raw = CREATE -> type_op d = DELETE -> order_id d = order_id raw ->
  old ∈ own (r_side raw) b -> o_id old = order_id raw ->
  OrderBook.process raw b = Some b1 ->
  idIndex b1 !! order_id raw = Some (seq b) ->
  exists b2,
    OrderBook.process d b1 = Some b2
    /\ old ∈ resting b2
    /\ (forall x, x ∈ resting b2 -> o_ts x <> seq b)
    /\ idIndex b2 !! order_id raw = None
    /\ OrderBook.process d b2 = Some b2.
Proof.
  intros Hwf Hc Hd Hid Hold Holdid Hp Hi.
  pose proof (process_wf _ _ _ Hwf Hp) as Hwf1.
  assert (old ∈ resting b1) as Hold1.
  { apply (elem_of_resting (r_side raw)). left. by apply (process_keeps_own raw b b1 old). }
  assert ((o_ts old < seq b)%nat) as Hts.
  { pose proof Hwf as Hg%book_wf_gen. destruct Hg as [_ _ _ Hts _ _ _].
    rewrite Forall_forall in Hts. apply Hts.
    apply (elem_of_resting (r_side raw)). by left. }
  destruct (index_live _ _ _ Hwf1 Hi) as (found & Hderef & Hin & Hfts & Hfid).
  exists (OrderBook.remove found b1).
  assert (idIndex (OrderBook.remove found b1) !! order_id raw = None) as Hnone.
  { rewrite remove_idIndex, Hfid. apply lookup_delete_eq. }
  split_and!.
  - rewrite process_delete by done. by rewrite Hid, Hi, Hderef.
  - apply remove_elem; [done | done |]. split; [done|]. intros ->. lia.
  - intros x Hx. apply (remove_elem _ _ _ Hwf1 Hin) in Hx as [Hx Hne].
    intros E. apply Hne.
    eapply resting_ts_eq; [exact Hwf1 | done | done | congruence].
  - done.
  - unfold OrderBook.process. by rewrite Hd, Hid, Hnone.
Qed.

Lemma duplicate_id_orphan_witness :
  OrderBook.process (cmd CREATE SELL "1" "11" "3") once_book <> None
  /\ exists b2,
       OrderBook.process (cmd DELETE SELL "1" "" "")
         (default once_book
            (OrderBook.process (cmd CREATE SELL "1" "11" "3") once_book))
       = Some b2
       /\ mkBookOrder "1" "7" SELL "BTC/USDC" (Big.mk 10 0) (Big.mk 5 0) 0 ∈ resting b2
       /\ (forall x, x ∈ resting b2 -> o_ts x <> 1%nat)
       /\ idIndex b2 !! "1"%string = None
       /\ OrderBook.process (cmd DELETE SELL "1" "" "") b2 = Some b2.
Proof.
  split; [done|].
  apply (duplicate_id_orphan (cmd CREATE SELL "1" "11" "3")
           (cmd DELETE SELL "1" "" "") once_book);
    [compute_done | reflexivity | reflexivity | reflexivity
    | apply list_elem_of_singleton; reflexivity | reflexivity | reflexivity
    | reflexivity].
Defined.

(** ** The two orders of a trade *)

Lemma book_of_provenance cmds e pair :
  MatcherEngine.run cmds = Some e -> provenance cmds pair (book_of pair e).
Proof.
  intros Hrun. destruct (MatcherEngine.get pair (books e)) as [b|] eqn:Hg.
  - rewrite (book_of_get _ _ _ Hg). by eapply run_provenance.
  - rewrite (book_of_new _ _ Hg). split; [done|].
    split; intros x Hx; by apply elem_of_nil in Hx.
Qed.

Lemma matching_made pre raw k incoming b :
  MatcherEngine.matching pre raw k = Some (incoming, b) ->
  made_by raw incoming
  /\ ob_pair b = r_pair raw
  /\ forall o, o ∈ resting b ->
       exists c, c ∈ pre /\ made_by c o /\ r_pair c = r_pair raw.
Proof.
  unfold MatcherEngine.matching.
  destruct (MatcherEngine.run pre) as [e0|] eqn:Hrun; [|done].
  fold (book_of (r_pair raw) e0).
  destruct (OrderBook.start raw (book_of (r_pair raw) e0)) as [[order b0]|] eqn:Hs;
    [|done].
  intros Hk.
  pose proof (run_book_of_wf _ _ (r_pair raw) Hrun) as Hwf.
  destruct (book_of_provenance _ _ (r_pair raw) Hrun) as (Hpair & Hrest & _).
  destruct (start_order _ _ _ _ Hs)
    as (Hop & Hid & Hside & Hpr & _ & Hprice & _ & _ & ->).
  eapply (passes_ind (fun i bk =>
            made_by raw i /\ ob_pair bk = r_pair raw
            /\ forall o, o ∈ resting bk ->
                 exists c, c ∈ pre /\ made_by c o /\ r_pair c = r_pair raw));
    [| by eapply start_loop_inv | | exact Hk].
  - intros i1 b1 i2 b2 Hinv (Hmade & Hpair1 & Hrest1) Hbody.
    destruct (pass_incoming _ _ _ _ Hbody) as (Eid & _ & Eside & Epair & Eprice & _).
    split_and!.
    + destruct Hmade as (? & ? & ? & ? & ?). unfold made_by.
      by rewrite Eid, Eside, Epair, Eprice.
    + destruct (body_trades _ _ _ _ Hbody) as (_ & _ & ->). done.
    + intros o Ho.
      destruct (pass_resting _ _ _ _ _ (li_wf _ _ Hinv) Hbody Ho) as (o0 & Ho0 & ->).
      destruct (Hrest1 o0 Ho0) as (c & Hc & Hm & Hcp). by exists c.
  - split; [by repeat split|]. split; [done|]. exact Hrest.
Qed.

(** What a pass that emits a trade has before it: the incoming order of a
    CREATE [taker] with something left, and at the top of the opposite queue
    the order of an earlier CREATE [maker], at a price that the incoming
    order accepts. *)
Lemma emitted_state cmds t incoming b best :
  emitted cmds t incoming b best ->
  exists taker maker rest,
    taker ∈ cmds /\ maker ∈ cmds
    /\ made_by taker incoming /\ made_by maker best
    /\ r_pair taker = ob_pair b /\ r_pair maker = ob_pair b
    /\ loop_inv incoming b
    /\ OrderBook.bookSide (o_side incoming) b = best :: rest
    /\ o_side best = opposite (o_side incoming)
    /\ Big.gt (o_remaining incoming) Big.zero = true
    /\ Big.gt (o_remaining best) Big.zero = true
    /\ OrderBook.priceOK incoming best = true
    /\ t = OrderBook.mkTradeOf (ob_pair b) incoming best.
Proof.
  intros (pre & raw & post & k & i' & b' & -> & Hm & Hbody & Hpeek & ->).
  pose proof (matching_loop_inv _ _ _ _ _ Hm) as Hinv.
  pose proof (li_wf _ _ Hinv) as Hwf.
  destruct (matching_made _ _ _ _ _ Hm) as (Hmade & Hpair & Hrest).
  destruct (match_body_Some _ _ _ _ Hbody (wf_bookSide_side _ _ Hwf))
    as (best' & rest & Hb & Hgt & Hok & _ & _).
  rewrite Hb in Hpeek. injection Hpeek as ->.
  assert (best ∈ resting b) as Hbest.
  { apply (elem_of_resting (o_side incoming)). right. rewrite Hb. by left. }
  destruct (Hrest best Hbest) as (maker & Hmk & Hmm & Hmp).
  exists raw, maker, rest. split_and!; try done.
  - apply elem_of_app. right. by left.
  - apply elem_of_app. by left.
  - congruence.
  - pose proof (wf_bookSide_side _ (o_side incoming) Hwf) as Hside.
    rewrite Hb in Hside. by apply Forall_cons in Hside as [Hside _].
  - apply book_wf_gen in Hwf. destruct Hwf as [_ _ _ _ _ _ Hpos].
    rewrite Forall_forall in Hpos. by apply Hpos.
Qed.

(** No trade is made beyond a limit: the buyer and the seller of a trade are
    a BUY and a SELL of the stream for that pair, and the price of the trade
    is at most the limit price of the buyer and at least the limit price of
    the seller. *)
Theorem trade_within_limits cmds e t :
  MatcherEngine.run cmds = Some e ->
  t ∈ (MatcherEngine.finish e).2 ->
  exists buy sell pb ps p,
    buy ∈ cmds /\ sell ∈ cmds
    /\ type_op buy = CREATE /\ type_op sell = CREATE
    /\ r_side buy = BUY /\ r_side sell = SELL
    /\ r_pair buy = t_pair t /\ r_pair sell = t_pair t
    /\ order_id buy = buyOrderId t /\ order_id sell = sellOrderId t
    /\ Big.of_string (limit_price buy) = Some pb
    /\ Big.of_string (limit_price sell) = Some ps
    /\ Big.of_string (t_price t) = Some p
    /\ (Big.toQ ps <= Big.toQ p)%Q /\ (Big.toQ p <= Big.toQ pb)%Q.
Proof.
  intros Hrun Ht.
  destruct (run_emitted _ _ _ Hrun Ht) as (incoming & b & best & Hem).
  destruct (emitted_state _ _ _ _ _ Hem)
    as (taker & maker & rest & Htk & Hmk & Hmt & Hmm & Hpt & Hpm & _ & _ & Hopp
        & _ & _ & Hok & ->).
  destruct Hmt as (Hop1 & Hid1 & Hside1 & _ & Hprice1).
  destruct Hmm as (Hop2 & Hid2 & Hside2 & _ & Hprice2).
  apply priceOK_crosses in Hok.
  pose proof (toQ_normalise (o_price best)) as Hn.
  unfold OrderBook.mkTradeOf. simpl.
  destruct (o_side incoming) eqn:Hs; simpl in *.
  - exists taker, maker, (o_price incoming), (o_price best),
      (Big.normalise (o_price best)).
    rewrite of_string_toString. unfold crosses in Hok.
    split_and!; try done; try congruence; lra.
  - exists maker, taker, (o_price best), (o_price incoming),
      (Big.normalise (o_price best)).
    rewrite of_string_toString. unfold crosses in Hok.
    split_and!; try done; try congruence; lra.
Qed.

Lemma trade_within_limits_witness :
  exists buy sell pb ps p,
    buy ∈ demo_cmds /\ sell ∈ demo_cmds
    /\ type_op buy = CREATE /\ type_op sell = CREATE
    /\ r_side buy = BUY /\ r_side sell = SELL
    /\ r_pair buy = "BTC/USDC"%string /\ r_pair sell = "BTC/USDC"%string
    /\ order_id buy = "2"%string /\ order_id sell = "1"%string
    /\ Big.of_string (limit_price buy) = Some pb
    /\ Big.of_string (limit_price sell) = Some ps
    /\ Big.of_string "10.5" = Some p
    /\ (Big.toQ ps <= Big.toQ p)%Q /\ (Big.toQ p <= Big.toQ pb)%Q.
Proof.
  apply (trade_within_limits demo_cmds demo_engine
           (mkTrade "BTC/USDC" "2" "1" "10.5" "3")); [reflexivity|].
  apply list_elem_of_singleton. reflexivity.
Defined.

(** Every trade has an amount above zero: its text is the canonical text of
    a positive decimal. *)
Theorem trade_amount_positive cmds e t :
  MatcherEngine.run cmds = Some e ->
  t ∈ (MatcherEngine.finish e).2 ->
  exists q,
    Big.of_string (t_amount t) = Some q
    /\ Big.toString q = t_amount t
    /\ Big.gt q Big.zero = true.
Proof.
  intros Hrun Ht.
  destruct (run_emitted _ _ _ Hrun Ht) as (incoming & b & best & Hem).
  destruct (emitted_state _ _ _ _ _ Hem)
    as (_ & _ & _ & _ & _ & _ & _ & _ & _ & _ & _ & _ & Hgi & Hgb & _ & ->).
  exists (Big.normalise (OrderBook.tradeQty incoming best)).
  unfold OrderBook.mkTradeOf. simpl. rewrite of_string_toString.
  pose proof (toQ_normalise (OrderBook.tradeQty incoming best)) as Hn.
  split; [done|]. split; [by apply toString_eq|].
  pose proof (tradeQty_min incoming best) as Hmin.
  big_prop. rewrite Hn, Hmin. by apply Q.min_glb_lt.
Qed.

Lemma trade_amount_positive_witness :
  exists q,
    Big.of_string "3" = Some q /\ Big.toString q = "3"%string
    /\ Big.gt q Big.zero = true.
Proof.
  apply (trade_amount_positive demo_cmds demo_engine
           (mkTrade "BTC/USDC" "2" "1" "10.5" "3")); [reflexivity|].
  apply list_elem_of_singleton. reflexivity.
Defined.

(** Price priority: the resting order of a trade has the best price of its
    queue at the time of the trade.  Every trade was emitted by a pass of the
    loop, and at every such pass no order resting on the side of [best] asks
    less (when the incoming order buys) or bids more (when it sells). *)
Theorem trade_at_best_price cmds e t :
  MatcherEngine.run cmds = Some e ->
  t ∈ (MatcherEngine.finish e).2 ->
  (exists incoming b best, emitted cmds t incoming b best)
  /\ forall incoming b best,
       emitted cmds t incoming b best ->
       forall y, y ∈ OrderBook.bookSide (o_side incoming) b ->
         match o_side incoming with
         | BUY => (Big.toQ (o_price best) <= Big.toQ (o_price y))%Q
         | SELL => (Big.toQ (o_price y) <= Big.toQ (o_price best))%Q
         end.
Proof.
  intros Hrun Ht. split; [by eapply run_emitted|].
  intros incoming b best Hem.
  destruct (emitted_state _ _ _ _ _ Hem)
    as (_ & _ & rest & _ & _ & _ & _ & _ & _ & Hinv & Hb & _).
  pose proof (li_wf _ _ Hinv) as Hwf%book_wf_gen.
  pose proof (wf_sorted _ Hwf (opposite (o_side incoming))) as Hso.
  rewrite own_opposite, Hb in Hso.
  apply StronglySorted_inv in Hso as [_ Hall]. rewrite Forall_forall in Hall.
  intros y Hy. rewrite Hb in Hy. apply elem_of_cons in Hy as [-> | Hy].
  - destruct (o_side incoming); apply Qle_refl.
  - specialize (Hall y Hy). apply cmp_of_before in Hall.
    unfold before in Hall. destruct (o_side incoming); simpl in Hall;
      destruct Hall as [Hlt | [Heq _]]; lra.
Qed.

(** The buy 3 trades with the sell 2 at 10 while the sell 1, which arrived
    first, rests at 11. *)
Lemma trade_at_best_price_witness :
  MatcherEngine.run ladder_cmds = Some ladder_engine
  /\ ladder_trade ∈ (MatcherEngine.finish ladder_engine).2
  /\ emitted ladder_cmds ladder_trade ladder_incoming ladder_book ladder_low
  /\ ladder_high ∈ OrderBook.bookSide BUY ladder_book
  /\ (Big.toQ (o_price ladder_low) < Big.toQ (o_price ladder_high))%Q
  /\ (Big.toQ (o_price ladder_low) <= Big.toQ (o_price ladder_high))%Q.
Proof.
  assert (emitted ladder_cmds ladder_trade ladder_incoming ladder_book ladder_low)
    as Hem.
  { exists (take 2 ladder_cmds), (cmd CREATE BUY "3" "11" "3"), [], O.
    eexists. eexists. split_and!; reflexivity. }
  assert (ladder_high ∈ OrderBook.bookSide BUY ladder_book) as Hin
    by (apply (list_elem_of_lookup_2 _ 1%nat); reflexivity).
  split_and!; [reflexivity | left | exact Hem | exact Hin | reflexivity |].
  destruct (trade_at_best_price ladder_cmds ladder_engine ladder_trade eq_refl
              (list_elem_of_here _ _)) as [_ Hall].
  exact (Hall _ _ _ Hem ladder_high Hin).
Defined.

(** ** Counting trades *)

Lemma pass_length incoming b incoming' b' :
  loop_inv incoming b ->
  OrderBook.match_body incoming b = Some (incoming', b') ->
  length (resting b) = S (length (resting b'))
  \/ ((Big.toQ (o_remaining incoming') == 0)%Q
      /\ length (resting b') = length (resting b)).
Proof.
  intros Hinv Hbody.
  pose proof (passes_own 1 incoming b incoming' b' Hinv) as Hown.
  simpl in Hown. rewrite Hbody in Hown. specialize (Hown eq_refl).
  destruct (pass_incoming _ _ _ _ Hbody) as (_ & _ & Eside & _).
  rewrite (resting_perm (o_side incoming) b), (resting_perm (o_side incoming) b').
  rewrite !length_app, Hown.
  destruct (pass_progress _ _ _ _ (li_wf _ _ Hinv) Hbody) as [H | [H0 H]];
    rewrite Eside in H; unfold Heap.size in H;
    [left | right; split; [done|]]; lia.
Qed.

Lemma passes_count n incoming b incoming' b' :
  loop_inv incoming b ->
  OrderBook.passes n incoming b = Some (incoming', b') ->
  (length (resting b') + n
   <= length (resting b)
      + (if Big.gt (o_remaining incoming') Big.zero then 0 else 1))%nat.
Proof.
  revert incoming b. induction n as [|n IH]; intros incoming b Hinv; simpl.
  - intros [= <- <-]. lia.
  - destruct (OrderBook.match_body incoming b) as [[i1 b1]|] eqn:Hbody; [|done].
    intros Hk. pose proof (pass_loop_inv _ _ _ _ Hinv Hbody) as Hinv1.
    specialize (IH _ _ Hinv1 Hk).
    destruct (pass_length _ _ _ _ Hinv Hbody) as [H | [H0 H]]; [lia|].
    destruct n as [|n]; simpl in Hk.
    + injection Hk as <- <-.
      assert (Big.gt (o_remaining i1) Big.zero = false) as -> by (big_prop; lra).
      lia.
    + by rewrite (match_body_spent _ _ H0) in Hk.
Qed.

Lemma process_count raw b b' :
  book_wf b -> OrderBook.process raw b = Some b' ->
  let k := length (creates [raw]) in
  seq b' = (seq b + k)%nat
  /\ (length (trades b') + length (resting b')
      <= length (trades b) + length (resting b) + k)%nat.
Proof.
  intros Hwf Hp. unfold creates. rewrite filter_cons, filter_nil.
  destruct (type_op raw) eqn:Hop.
  - rewrite decide_True by done. simpl.
    destruct (process_start _ _ _ Hop Hp) as (order & Hs).
    destruct (start_order _ _ _ _ Hs) as (_ & _ & _ & _ & _ & _ & _ & Hts & _).
    pose proof (start_loop_inv _ _ _ _ Hwf Hs) as Hinv.
    rewrite (process_create _ _ _ _ Hs) in Hp. injection Hp as <-.
    destruct (match_loop_run order _ (li_wf _ _ Hinv)) as (n & Hloop).
    destruct (loop_trades _ _ _ _ _ _ Hloop) as (new & Ht & Hlen & _).
    destruct (match_loop_passes _ _ _ _ _ _ Hloop) as [Hpass _].
    pose proof (passes_count _ _ _ _ _ Hinv Hpass) as Hcount.
    pose proof (passes_loop_inv _ _ _ _ _ Hinv Hpass) as Hinv'.
    destruct (passes_incoming _ _ _ _ _ Hpass) as (_ & _ & _ & _ & _ & Ets).
    pose proof (li_seq _ _ Hinv') as Hseq. rewrite Ets, Hts in Hseq.
    destruct (OrderBook.match_ order (OrderBook.next_seq b)) as [i r].
    simpl in *.
    change (resting (OrderBook.next_seq b)) with (resting b) in Hcount.
    destruct (Big.gt (o_remaining i) Big.zero).
    + rewrite add_trades, Ht, length_app, Hlen, add_resting. simpl.
      assert (seq (OrderBook.add i r) = seq r) as ->
        by (unfold OrderBook.add; by destruct (o_side i)).
      lia.
    + rewrite Ht, length_app, Hlen. lia.
  - rewrite decide_False by done. simpl.
    rewrite process_delete in Hp by done. injection Hp as <-.
    destruct (idIndex b !! order_id raw) as [ref|] eqn:Hi; [|lia].
    destruct (index_live _ _ _ Hwf Hi) as (found & -> & Hin & _).
    rewrite remove_trades, remove_seq.
    rewrite (remove_resting _ _ (proj1 (book_wf_gen b) Hwf) Hin).
    pose proof (sublist_length _ _ (remove_sublist found (resting b))). lia.
Qed.

Lemma process_all_count cmds b b' :
  book_wf b -> OrderBook.process_all cmds b = Some b' ->
  seq b' = (seq b + length (creates cmds))%nat
  /\ (length (trades b') + length (resting b')
      <= length (trades b) + length (resting b) + length (creates cmds))%nat.
Proof.
  revert b. induction cmds as [|raw cmds IH]; intros b Hwf; simpl.
  - intros [= <-]. simpl. lia.
  - destruct (OrderBook.process raw b) as [b1|] eqn:Hp; [|done]. intros Hall.
    destruct (process_count _ _ _ Hwf Hp) as [Hs1 Hc1].
    destruct (IH _ (process_wf _ _ _ Hwf Hp) Hall) as [Hs2 Hc2].
    change (raw :: cmds) with ([raw] ++ cmds).
    unfold creates in *. rewrite filter_app, length_app. lia.
Qed.

(** The sequence counter of a book is the number of CREATE commands that the
    stream has for its pair, and the trades of the book together with the
    orders resting in it are never more than that: a book cannot hold more
    trades than its pair had CREATE commands. *)
Theorem trades_bounded cmds e pair b :
  MatcherEngine.run cmds = Some e ->
  MatcherEngine.get pair (books e) = Some b ->
  seq b = length (creates (for_pair pair cmds))
  /\ (length (trades b) + length (resting b) <= seq b)%nat.
Proof.
  intros Hrun Hg. pose proof (run_book_alone _ _ _ _ Hrun Hg) as Hb.
  destruct (process_all_count _ _ _ (wf_new pair) Hb) as [Hs Hc].
  simpl in *. split; [done | lia].
Qed.

Lemma trades_bounded_witness :
  seq demo_book = length (creates (for_pair "BTC/USDC" demo_cmds))
  /\ (length (trades demo_book) + length (resting demo_book) <= seq demo_book)%nat.
Proof.
  apply (trades_bounded demo_cmds demo_engine "BTC/USDC"); reflexivity.
Defined.

Lemma filter_keys_cons (p : string) (ks : list string) (l : list RawOrder) :
  p ∉ ks ->
  length (filter (fun c => r_pair c ∈ p :: ks) l)
  = (length (filter (fun c => r_pair c = p) l)
     + length (filter (fun c => r_pair c ∈ ks) l))%nat.
Proof.
  intros Hp. induction l as [|c l IH]; [done|].
  rewrite !filter_cons.
  destruct (decide (r_pair c = p)) as [E|E].
  - rewrite decide_True by (rewrite E; by left).
    rewrite decide_False by (by rewrite E). simpl. by rewrite IH.
  - destruct (decide (r_pair c ∈ ks)) as [Hin|Hin].
    + rewrite decide_True by (by right). simpl. rewrite IH. lia.
    + rewrite decide_False; [done|]. by intros [?|?]%elem_of_cons.
Qed.

Lemma creates_for_pair pair cmds :
  creates (for_pair pair cmds) = filter (fun c => r_pair c = pair) (creates cmds).
Proof.
  unfold creates, for_pair. induction cmds as [|c l IH]; [done|].
  rewrite !filter_cons.
  destruct (decide (r_pair c = pair)), (decide (type_op c = CREATE));
    rewrite ?filter_cons, ?decide_True, ?decide_False by done; by rewrite IH.
Qed.

Lemma books_trades_bounded (m : list (string * OrderBook)) cmds :
  NoDup (fst <$> m) ->
  (forall p b, (p, b) ∈ m ->
     (length (trades b) <= length (creates (for_pair p cmds)))%nat) ->
  (length (flat_map trades (snd <$> m))
   <= length (filter (fun c => r_pair c ∈ fst <$> m) (creates cmds)))%nat.
Proof.
  induction m as [|[p b] m IH]; intros Hnd Hall; simpl; [lia|].
  rewrite fmap_cons in Hnd. apply NoDup_cons in Hnd as [Hp Hnd].
  rewrite length_app, filter_keys_cons by done.
  rewrite <- creates_for_pair.
  pose proof (Hall p b (list_elem_of_here _ _)).
  assert (length (flat_map trades (snd <$> m))
          <= length (filter (fun c => r_pair c ∈ fst <$> m) (creates cmds)))%nat.
  { apply IH; [done|]. intros q bq Hq. apply Hall. by right. }
  exact (Nat.add_le_mono _ _ _ _ H H0).
Qed.

(** The engine never reports more trades than the stream has CREATE
    commands. *)
Theorem finish_trades_bounded cmds e :
  MatcherEngine.run cmds = Some e ->
  (length (MatcherEngine.finish e).2 <= length (creates cmds))%nat.
Proof.
  intros Hrun. simpl.
  etransitivity; [apply (books_trades_bounded _ cmds)|apply length_filter].
  - by eapply run_keys.
  - intros p b Hin.
    assert (MatcherEngine.get p (books e) = Some b) as Hg
      by (apply get_elem; [by eapply run_keys | done]).
    pose proof (run_book_alone _ _ _ _ Hrun Hg) as Hb.
    destruct (process_all_count _ _ _ (wf_new p) Hb) as [Hs Hc].
    simpl in *. lia.
Qed.

Lemma finish_trades_bounded_witness :
  (length (MatcherEngine.finish demo_engine).2 <= length (creates demo_cmds))%nat.
Proof. apply (finish_trades_bounded demo_cmds demo_engine). reflexivity. Defined.

(** ** Streams with one CREATE for each id *)

Lemma pass_indexed incoming b incoming' b' :
  loop_inv incoming b -> indexed b ->
  OrderBook.match_body incoming b = Some (incoming', b') ->
  indexed b'.
Proof.
  intros Hinv Hix Hbody. pose proof (li_wf _ _ Hinv) as Hwf.
  destruct (match_body_Some _ _ _ _ Hbody (wf_bookSide_side _ _ Hwf))
    as (best & rest & Hb & _ & _ & _ & ->).
  assert (best ∈ resting b) as Hbest.
  { apply (elem_of_resting (o_side incoming)). right. rewrite Hb. by left. }
  intros x Hx. apply (pass_resting_iff _ _ _ _ _ Hwf Hb) in Hx.
  rewrite after_pass_idIndex.
  destruct Hx as [[Hx Hts] | [Hf ->]].
  - assert (o_id x <> o_id best) as Hne.
    { intros E. apply Hts. pose proof (Hix x Hx) as H1.
      rewrite E, (Hix best Hbest) in H1. congruence. }
    destruct (Big.eq _ _); [rewrite lookup_delete_ne by done|]; by apply Hix.
  - rewrite Hf. simpl. by apply Hix.
Qed.

Lemma process_indexed raw b b' :
  book_wf b -> indexed b ->
  (type_op raw = CREATE -> forall o, o ∈ resting b -> o_id o <> order_id raw) ->
  OrderBook.process raw b = Some b' ->
  indexed b'.
Proof.
  intros Hwf Hix Hfresh Hp. destruct (type_op raw) eqn:Hop.
  - destruct (process_create_inv
      (fun i bk => indexed bk /\ forall o, o ∈ resting bk -> o_id o <> o_id i)
      raw b b' Hwf Hop Hp) as (order & b0 & o' & b1 & Hs & Hinv & [Hix1 Hf1] & _ & ->).
    + intros order b0 Hs.
      destruct (start_order _ _ _ _ Hs) as (_ & -> & _ & _ & _ & _ & _ & _ & ->).
      split; [exact Hix | by apply Hfresh].
    + intros i1 b1 i2 b2 Hinv [Hix1 Hf1] Hbody. split; [by eapply pass_indexed|].
      destruct (pass_incoming _ _ _ _ Hbody) as (-> & _).
      intros o Ho.
      destruct (pass_resting _ _ _ _ _ (li_wf _ _ Hinv) Hbody Ho) as (o0 & Ho0 & E).
      rewrite E. simpl. by apply Hf1.
    + destruct (Big.gt _ _); [|done].
      intros x Hx. rewrite add_resting in Hx.
      assert (idIndex (OrderBook.add o' b1) = <[o_id o' := o_ts o']> (idIndex b1)) as ->
        by (unfold OrderBook.add; by destruct (o_side o')).
      apply elem_of_cons in Hx as [-> | Hx]; [apply lookup_insert_eq|].
      rewrite lookup_insert_ne; [by apply Hix1|]. intros E. by apply (Hf1 x Hx).
  - rewrite process_delete in Hp by done. injection Hp as <-.
    destruct (idIndex b !! order_id raw) as [ref|] eqn:Hi; [|done].
    destruct (index_live _ _ _ Hwf Hi) as (found & -> & Hin & _).
    intros x Hx. apply (remove_elem _ _ _ Hwf Hin) in Hx as [Hx Hne].
    rewrite remove_idIndex, lookup_delete_ne; [by apply Hix|].
    intros E. apply Hne. eapply resting_ts_eq; [done..|].
    pose proof (Hix x Hx) as H1. rewrite <- E, (Hix found Hin) in H1. congruence.
Qed.

Lemma create_keys_snoc pre raw :
  create_keys (pre ++ [raw])
  = create_keys pre
    ++ (if decide (type_op raw = CREATE) then [(r_pair raw, order_id raw)] else []).
Proof.
  unfold create_keys, creates. rewrite filter_app, fmap_app, filter_cons.
  by destruct (decide (type_op raw = CREATE)).
Qed.

Lemma elem_of_create_keys c cmds :
  c ∈ cmds -> type_op c = CREATE -> (r_pair c, order_id c) ∈ create_keys cmds.
Proof.
  intros Hc Hop. unfold create_keys, creates. apply list_elem_of_fmap.
  exists c. split; [done|]. by apply list_elem_of_filter.
Qed.

Lemma run_indexed cmds e pair b :
  MatcherEngine.run cmds = Some e ->
  NoDup (create_keys cmds) ->
  MatcherEngine.get pair (books e) = Some b ->
  indexed b.
Proof.
  intros Hrun Hnd Hg. revert Hnd.
  eapply (run_prefix (fun pre p bk => NoDup (create_keys pre) -> indexed bk));
    [| | |exact Hrun|exact Hg].
  - intros pre p _ _ o Ho. by apply elem_of_nil in Ho.
  - intros pre raw e0 b' Hpre HP Hp Hnd.
    rewrite create_keys_snoc in Hnd. apply NoDup_app in Hnd as (Hnd & Hdis & _).
    eapply process_indexed; [by eapply run_book_of_wf | by apply HP | | exact Hp].
    intros Hop o Ho E.
    destruct (book_of_provenance _ _ (r_pair raw) Hpre) as (_ & Hrest & _).
    destruct (Hrest o Ho) as (c & Hc & (Hcop & Hcid & _) & Hcp).
    apply (Hdis (r_pair raw, order_id raw)).
    + rewrite <- Hcp, <- E, <- Hcid. by apply elem_of_create_keys.
    + rewrite decide_True by done. by left.
  - intros pre raw p bk _ HP Hnd. apply HP.
    rewrite create_keys_snoc in Hnd. by apply NoDup_app in Hnd as (Hnd & _).
Qed.

(** When no two CREATE commands of a stream carry the same id for the same
    pair, every order that rests in a book is the one that the index holds
    under its id, so that a DELETE of the id of a resting order cancels that
    order. *)
Theorem unique_ids_cancel cmds e pair b o d :
  MatcherEngine.run cmds = Some e ->
  NoDup (create_keys cmds) ->
  MatcherEngine.get pair (books e) = Some b ->
  o ∈ resting b ->
  type_op d = DELETE -> order_id d = o_id o ->
  idIndex b !! o_id o = Some (o_ts o)
  /\ OrderBook.process d b = Some (OrderBook.remove o b)
  /\ o ∉ resting (OrderBook.remove o b).
Proof.
  intros Hrun Hnd Hg Ho Hd Hid.
  pose proof (run_wf _ _ _ _ Hrun Hg) as Hwf.
  pose proof (run_indexed _ _ _ _ Hrun Hnd Hg o Ho) as Hi.
  split; [done|]. split.
  - destruct (index_live _ _ _ Hwf Hi) as (found & Hderef & Hin & Hts & _).
    assert (found = o) as -> by (by eapply resting_ts_eq).
    rewrite process_delete by done. by rewrite Hid, Hi, Hderef.
  - intros [_ Hne]%remove_elem; done.
Qed.

Lemma unique_ids_cancel_witness :
  idIndex demo_book !! "3"%string = Some 2%nat
  /\ OrderBook.process (cmd DELETE SELL "3" "" "") demo_book
     = Some (OrderBook.remove
               (mkBookOrder "3" "7" SELL "BTC/USDC" (Big.mk 105 1) (Big.mk 4 0) 2)
               demo_book)
  /\ mkBookOrder "3" "7" SELL "BTC/USDC" (Big.mk 105 1) (Big.mk 4 0) 2
     ∉ resting (OrderBook.remove
                  (mkBookOrder "3" "7" SELL "BTC/USDC" (Big.mk 105 1) (Big.mk 4 0) 2)
                  demo_book).
Proof.
  apply (unique_ids_cancel demo_cmds demo_engine "BTC/USDC" demo_book
           (mkBookOrder "3" "7" SELL "BTC/USDC" (Big.mk 105 1) (Big.mk 4 0) 2)
           (cmd DELETE SELL "3" "" ""));
    [reflexivity | compute_done | reflexivity
    | apply (list_elem_of_lookup_2 _ 1%nat); reflexivity
    | reflexivity | reflexivity].
Defined.

(** ** What a snapshot shows *)

Lemma placed_by_less c o r :
  placed_by c o -> (Big.toQ r <= Big.toQ (o_remaining o))%Q ->
  placed_by c (set_remaining o r).
Proof.
  intros (Hm & Hacc & a & Ha & Hle) Hr. split; [done|]. split; [done|].
  exists a. split; [done|]. simpl. lra.
Qed.

Lemma placed_step pre raw b b' :
  book_wf b ->
  (forall o, o ∈ resting b ->
     exists c, c ∈ pre /\ placed_by c o /\ r_pair c = r_pair raw) ->
  OrderBook.process raw b = Some b' ->
  forall o, o ∈ resting b' ->
    exists c, c ∈ pre ++ [raw] /\ placed_by c o /\ r_pair c = r_pair raw.
Proof.
  intros Hwf Hrest Hp.
  assert (Hlater : forall (bk : OrderBook),
            (forall o, o ∈ resting bk ->
               exists c, c ∈ pre /\ placed_by c o /\ r_pair c = r_pair raw) ->
            forall o, o ∈ resting bk ->
              exists c, c ∈ pre ++ [raw] /\ placed_by c o /\ r_pair c = r_pair raw).
  { intros bk H o Ho. destruct (H o Ho) as (c & Hc & Hpl). exists c.
    split; [apply elem_of_app; by left | done]. }
  destruct (type_op raw) eqn:Hop.
  - destruct (process_create_inv
      (fun i bk => placed_by raw i
         /\ forall o, o ∈ resting bk ->
              exists c, c ∈ pre /\ placed_by c o /\ r_pair c = r_pair raw)
      raw b b' Hwf Hop Hp) as (order & b0 & o' & b1 & Hs & Hinv & [Hpl1 Hr1] & _ & ->).
    + intros order b0 Hs. destruct (start_order _ _ _ _ Hs)
        as (_ & Hid & Hside & Hpr & Hacc & Hprice & Ham & _ & ->).
      split; [|exact Hrest]. split; [by repeat split|]. split; [done|].
      exists (o_remaining order). split; [done | lra].
    + intros i1 b1 i2 b2 Hinv [Hpl1 Hr1] Hbody.
      pose proof (li_wf _ _ Hinv) as Hwf1.
      destruct (match_body_Some _ _ _ _ Hbody (wf_bookSide_side _ _ Hwf1))
        as (best & rest & Hb & Hgt & _ & -> & ->).
      assert (best ∈ resting b1) as Hbest.
      { apply (elem_of_resting (o_side i1)). right. rewrite Hb. by left. }
      assert (Big.gt (o_remaining best) Big.zero = true) as Hgb.
      { pose proof Hwf1 as Hg%book_wf_gen. destruct Hg as [_ _ _ _ _ _ Hpos].
        rewrite Forall_forall in Hpos. by apply Hpos. }
      pose proof (tradeQty_min i1 best) as Hmin.
      assert (0 < Big.toQ (OrderBook.tradeQty i1 best))%Q as Hq.
      { big_prop. rewrite Hmin. by apply Q.min_glb_lt. }
      split.
      * apply placed_by_less; [done|]. rewrite toQ_minus. lra.
      * intros x Hx. apply (pass_resting_iff _ _ _ _ _ Hwf1 Hb) in Hx.
        destruct Hx as [[Hx _] | [_ ->]]; [by apply Hr1|].
        destruct (Hr1 best Hbest) as (c & Hc & Hpl & Hcp). exists c.
        split; [done|]. split; [|done].
        apply placed_by_less; [done|]. rewrite toQ_minus. lra.
    + destruct (Big.gt _ _); [|by apply Hlater].
      intros x Hx. rewrite add_resting in Hx.
      apply elem_of_cons in Hx as [-> | Hx]; [|by apply (Hlater b1)].
      exists raw. split; [apply elem_of_app; right; by left | done].
  - rewrite process_delete in Hp by done. injection Hp as <-.
    destruct (idIndex b !! order_id raw) as [ref|] eqn:Hi; [|by apply Hlater].
    destruct (index_live _ _ _ Hwf Hi) as (found & -> & Hin & _).
    intros x Hx. apply (remove_elem _ _ _ Hwf Hin) in Hx as [Hx _].
    by apply (Hlater b).
Qed.

Lemma run_placed cmds e pair b :
  MatcherEngine.run cmds = Some e ->
  MatcherEngine.get pair (books e) = Some b ->
  forall o, o ∈ resting b -> exists c, c ∈ cmds /\ placed_by c o /\ r_pair c = pair.
Proof.
  intros Hrun Hg.
  eapply (run_prefix (fun pre p bk =>
            forall o, o ∈ resting bk ->
              exists c, c ∈ pre /\ placed_by c o /\ r_pair c = p));
    [| | |exact Hrun|exact Hg].
  - intros pre p _ o Ho. by apply elem_of_nil in Ho.
  - intros pre raw e0 b' Hpre HP Hp.
    eapply placed_step; [by eapply run_book_of_wf | exact HP | exact Hp].
  - intros pre raw p bk _ HP o Ho. destruct (HP o Ho) as (c & Hc & Hpl).
    exists c. split; [apply elem_of_app; by left | done].
Qed.

Lemma level_from cmds pair b o :
  book_wf b ->
  (exists c, c ∈ cmds /\ placed_by c o /\ r_pair c = pair) ->
  o ∈ resting b ->
  line_from cmds pair (o_side o) (OrderBook.level o).
Proof.
  intros Hwf (c & Hc & ((Hop & Hid & Hside & _ & Hprice) & Hacc & a & Ha & Hle) & Hcp) Ho.
  exists c, (o_price o), a, (Big.normalise (o_remaining o)).
  pose proof (toQ_normalise (o_remaining o)) as Hn.
  assert (Big.gt (o_remaining o) Big.zero = true) as Hgt.
  { apply book_wf_gen in Hwf. destruct Hwf as [_ _ _ _ _ _ Hpos].
    rewrite Forall_forall in Hpos. by apply Hpos. }
  big_prop. simpl. rewrite of_string_toString.
  split_and!; try done; lra.
Qed.

(** Every line of a snapshot shows an order that a CREATE of the stream
    placed for that pair, a BUY among the bids and a SELL among the asks:
    with the id and the account of the command, the canonical text of its
    limit price, and a remaining that is above zero and at most the amount
    of the command. *)
Theorem snapshot_lines cmds e s :
  MatcherEngine.run cmds = Some e ->
  s ∈ (MatcherEngine.finish e).1 ->
  Forall (line_from cmds (s_pair s) BUY) (s_bids s)
  /\ Forall (line_from cmds (s_pair s) SELL) (s_asks s).
Proof.
  intros Hrun Hs. simpl in Hs.
  apply list_elem_of_fmap in Hs as (b & -> & Hb).
  apply list_elem_of_fmap in Hb as ([p b'] & -> & Hin). simpl.
  assert (MatcherEngine.get p (books e) = Some b') as Hg
    by (apply get_elem; [by eapply run_keys | done]).
  pose proof (run_wf _ _ _ _ Hrun Hg) as Hwf.
  destruct (run_provenance _ _ _ _ Hrun Hg) as (Hpair & _).
  pose proof (run_placed _ _ _ _ Hrun Hg) as Hpl.
  pose proof Hwf as Hgen%book_wf_gen.
  split; apply Forall_fmap, Forall_forall; intros o Ho; simpl.
  - assert (o ∈ resting b') as Hr by (apply (elem_of_resting BUY); by left).
    rewrite <- (wf_side_elem b' BUY o Hgen Ho), Hpair.
    apply (level_from _ _ b'); [done | by apply Hpl | done].
  - assert (o ∈ resting b') as Hr by (apply (elem_of_resting BUY); by right).
    rewrite <- (wf_side_elem b' SELL o Hgen Ho), Hpair.
    apply (level_from _ _ b'); [done | by apply Hpl | done].
Qed.

Lemma snapshot_lines_witness :
  Forall (line_from demo_cmds "BTC/USDC" BUY) []
  /\ Forall (line_from demo_cmds "BTC/USDC" SELL)
       [mkLevel "1" "7" "10.5" "2"; mkLevel "3" "7" "10.5" "4"].
Proof.
  apply (snapshot_lines demo_cmds demo_engine
           (mkOrder "BTC/USDC" []
              [mkLevel "1" "7" "10.5" "2"; mkLevel "3" "7" "10.5" "4"]));
    [reflexivity|].
  apply list_elem_of_singleton. reflexivity.
Defined.

(** ** A CREATE with a negative amount *)

(** A negative amount is no error.  The order is not matched and does not
    rest: the command only moves the sequence counter on. *)
Theorem create_negative_amount raw b price a :
  type_op raw = CREATE ->
  Big.of_string (limit_price raw) = Some price ->
  Big.of_string (amount raw) = Some a ->
  Big.lt a Big.zero = true ->
  OrderBook.process raw b = Some (OrderBook.next_seq b).
Proof.
  intros Hop Hprice Ha Hneg.
  set (order := mkBookOrder (order_id raw) (account_id raw) (r_side raw)
                  (r_pair raw) price a (seq b)).
  assert (OrderBook.start raw b = Some (order, OrderBook.next_seq b)) as Hs.
  { unfold OrderBook.start. by rewrite Hop, Hprice, Ha. }
  assert (Big.gt a Big.zero = false) as Hgt by (big_prop; lra).
  assert (OrderBook.match_body order (OrderBook.next_seq b) = None) as Hbody.
  { unfold OrderBook.match_body. simpl. by rewrite Hgt. }
  rewrite (process_create _ _ _ _ Hs). unfold OrderBook.match_.
  rewrite (match_loop_left _ _ _ Hbody). simpl. by rewrite Hgt.
Qed.

Lemma create_negative_amount_witness :
  OrderBook.process (cmd CREATE BUY "9" "11" "-4") demo_book
  = Some (OrderBook.next_seq demo_book).
Proof.
  apply (create_negative_amount (cmd CREATE BUY "9" "11" "-4") demo_book
           (Big.mk 11 0) (Big.mk (-4) 0)); reflexivity.
Defined.

(** ** Accounts play no part in matching *)

Lemma anon_push cmp o h :
  (forall x y, cmp (anon_order x) (anon_order y) = cmp x y) ->
  Heap.push cmp (anon_order o) (anon_order <$> h) = anon_order <$> Heap.push cmp o h.
Proof.
  intros Hcmp. induction h as [|x h IH]; [done|].
  rewrite fmap_cons. simpl. rewrite Hcmp.
  destruct (cmp o x <=? 0); [done|]. rewrite fmap_cons. by rewrite <- IH.
Qed.

Lemma anon_remove o h :
  Heap.remove (anon_order o) (anon_order <$> h) = anon_order <$> Heap.remove o h.
Proof.
  induction h as [|x h IH]; [done|].
  rewrite fmap_cons. simpl.
  change (same_order (anon_order x) (anon_order o)) with (same_order x o).
  destruct (same_order x o); [done|]. rewrite fmap_cons. by rewrite <- IH.
Qed.

Lemma anon_find ref h :
  Heap.find ref (anon_order <$> h) = anon_order <$> Heap.find ref h.
Proof.
  unfold Heap.find. induction h as [|x h IH]; [done|].
  rewrite fmap_cons. simpl. destruct (o_ts x =? ref)%nat; [done | apply IH].
Qed.

Lemma anon_deref ref b :
  OrderBook.deref ref (anon_book b) = anon_order <$> OrderBook.deref ref b.
Proof.
  unfold OrderBook.deref. simpl. rewrite !anon_find.
  by destruct (Heap.find ref (bids b)).
Qed.

Lemma anon_add o b :
  OrderBook.add (anon_order o) (anon_book b) = anon_book (OrderBook.add o b).
Proof.
  unfold OrderBook.add, anon_book. simpl.
  destruct (o_side o); simpl; by rewrite anon_push.
Qed.

Lemma anon_remove_book o b :
  OrderBook.remove (anon_order o) (anon_book b) = anon_book (OrderBook.remove o b).
Proof.
  unfold OrderBook.remove, anon_book. simpl.
  destruct (o_side o); simpl; by rewrite anon_remove.
Qed.

Lemma anon_bookSide s b :
  OrderBook.bookSide s (anon_book b) = anon_order <$> OrderBook.bookSide s b.
Proof. by destruct s. Qed.

Lemma anon_match_body incoming b :
  OrderBook.match_body (anon_order incoming) (anon_book b)
  = prod_map anon_order anon_book <$> OrderBook.match_body incoming b.
Proof.
  unfold OrderBook.match_body.
  change (o_side (anon_order incoming)) with (o_side incoming).
  change (o_remaining (anon_order incoming)) with (o_remaining incoming).
  rewrite anon_bookSide. unfold Heap.size, Heap.peek. rewrite length_fmap.
  destruct (andb _ _); [|done].
  destruct (OrderBook.bookSide (o_side incoming) b) as [|best rest] eqn:Hb; [done|].
  rewrite fmap_cons. simpl.
  change (OrderBook.priceOK (anon_order incoming) (anon_order best))
    with (OrderBook.priceOK incoming best).
  destruct (negb _); [done|]. simpl.
  change (OrderBook.tradeQty (anon_order incoming) (anon_order best))
    with (OrderBook.tradeQty incoming best).
  change (OrderBook.mkTradeOf (ob_pair b) (anon_order incoming) (anon_order best))
    with (OrderBook.mkTradeOf (ob_pair b) incoming best).
  f_equal. unfold prod_map. simpl. f_equal.
  destruct (Big.eq _ _).
  - rewrite <- anon_remove_book. unfold anon_book, anon_order. simpl.
    f_equal. destruct (o_side incoming); simpl in *; by rewrite Hb, ?fmap_cons.
  - unfold anon_book, anon_order. simpl.
    destruct (o_side incoming); simpl in *; by rewrite Hb, ?fmap_cons.
Qed.

Lemma anon_match_loop fuel incoming b :
  OrderBook.match_loop fuel (anon_order incoming) (anon_book b)
  = (fun r => (r.1.1, anon_order r.1.2, anon_book r.2))
    <$> OrderBook.match_loop fuel incoming b.
Proof.
  revert incoming b. induction fuel as [|fuel IH]; intros incoming b; simpl;
    rewrite anon_match_body;
    destruct (OrderBook.match_body incoming b) as [[i1 b1]|]; try done.
  simpl. rewrite IH.
  by destruct (OrderBook.match_loop fuel i1 b1) as [[[n i2] b2]|].
Qed.

Lemma anon_match incoming b :
  OrderBook.match_ (anon_order incoming) (anon_book b)
  = prod_map anon_order anon_book (OrderBook.match_ incoming b).
Proof.
  unfold OrderBook.match_.
  change (o_side (anon_order incoming)) with (o_side incoming).
  rewrite anon_bookSide. unfold Heap.size. rewrite length_fmap, anon_match_loop.
  by destruct (OrderBook.match_loop _ incoming b) as [[[n i] r]|].
Qed.

Lemma anon_process raw b :
  OrderBook.process (anon_raw raw) (anon_book b)
  = anon_book <$> OrderBook.process raw b.
Proof.
  unfold OrderBook.process. simpl. destruct (type_op raw).
  - destruct (Big.of_string (limit_price raw)) as [price|]; [|done].
    destruct (Big.of_string (amount raw)) as [remaining|]; [|done].
    pose proof (anon_match
      (mkBookOrder (order_id raw) (account_id raw) (r_side raw) (r_pair raw)
                   price remaining (seq b)) (OrderBook.next_seq b)) as Hm.
    unfold anon_order at 1 in Hm. simpl in Hm.
    change (anon_book (OrderBook.next_seq b))
      with (OrderBook.next_seq (anon_book b)) in Hm.
    rewrite Hm.
    destruct (OrderBook.match_ _ (OrderBook.next_seq b)) as [order' b'].
    unfold prod_map. simpl.
    destruct (Big.gt _ _); simpl; [by rewrite anon_add | done].
  - destruct (idIndex b !! order_id raw) as [ref|]; [|done].
    rewrite anon_deref. destruct (OrderBook.deref ref b) as [found|]; simpl.
    + by rewrite anon_remove_book.
    + done.
Qed.

Lemma anon_get pair m :
  MatcherEngine.get pair (prod_map id anon_book <$> m)
  = anon_book <$> MatcherEngine.get pair m.
Proof.
  induction m as [|[k v] m IH]; [done|].
  rewrite fmap_cons. simpl. destruct (String.eqb k pair); [done | apply IH].
Qed.

Lemma anon_set pair b m :
  MatcherEngine.set pair (anon_book b) (prod_map id anon_book <$> m)
  = prod_map id anon_book <$> MatcherEngine.set pair b m.
Proof.
  induction m as [|[k v] m IH]; [done|].
  rewrite fmap_cons. simpl. destruct (String.eqb k pair); [done|].
  rewrite fmap_cons. by rewrite <- IH.
Qed.

Lemma anon_process_new raw pair :
  OrderBook.process (anon_raw raw) (OrderBook.new pair)
  = anon_book <$> OrderBook.process raw (OrderBook.new pair).
Proof. apply (anon_process raw (OrderBook.new pair)). Qed.

Lemma anon_set_new pair m :
  MatcherEngine.set pair (OrderBook.new pair) (prod_map id anon_book <$> m)
  = prod_map id anon_book <$> MatcherEngine.set pair (OrderBook.new pair) m.
Proof. apply (anon_set pair (OrderBook.new pair)). Qed.

Lemma anon_ingest raw e :
  MatcherEngine.ingest (anon_raw raw) (anon_engine e)
  = anon_engine <$> MatcherEngine.ingest raw e.
Proof.
  unfold MatcherEngine.ingest, MatcherEngine.bookFor, anon_engine. simpl.
  rewrite anon_get.
  destruct (MatcherEngine.get (r_pair raw) (books e)) as [book|]; simpl.
  - rewrite anon_process. destruct (OrderBook.process raw book) as [b'|]; [|done].
    simpl. by rewrite anon_set.
  - rewrite anon_process_new.
    destruct (OrderBook.process raw (OrderBook.new (r_pair raw))) as [b'|]; [|done].
    simpl. by rewrite anon_set_new, anon_set.
Qed.

Lemma anon_run_from cmds e :
  MatcherEngine.run_from (anon_engine e) (anon_raw <$> cmds)
  = anon_engine <$> MatcherEngine.run_from e cmds.
Proof.
  revert e. induction cmds as [|raw cmds IH]; intros e; [done|].
  rewrite fmap_cons. simpl. rewrite anon_ingest.
  destruct (MatcherEngine.ingest raw e); simpl; [apply IH | done].
Qed.

Lemma anon_finish_trades e :
  (MatcherEngine.finish (anon_engine e)).2 = (MatcherEngine.finish e).2.
Proof.
  unfold MatcherEngine.finish, anon_engine. simpl.
  induction (books e) as [|[k v] m IH]; [done|].
  rewrite !fmap_cons. simpl. by rewrite IH.
Qed.

(** The account of an order is carried to the snapshot and read by nothing
    else: two inputs that differ in their account ids only are accepted or
    rejected together and give the same trades.  In particular an order is
    matched against an order of its own account like against any other. *)
Theorem accounts_do_not_matter orders orders' :
  anon_raw <$> orders = anon_raw <$> orders' ->
  snd <$> ProcessOrderService.process orders
  = snd <$> ProcessOrderService.process orders'.
Proof.
  intros E.
  assert (forall l, snd <$> ProcessOrderService.process l
                    = snd <$> ProcessOrderService.process (anon_raw <$> l)) as H.
  { intros l. unfold ProcessOrderService.process, MatcherEngine.run.
    change MatcherEngine.new with (anon_engine MatcherEngine.new) at 2.
    rewrite anon_run_from.
    destruct (MatcherEngine.run_from MatcherEngine.new l) as [e|]; [|done].
    change (Some (MatcherEngine.finish e).2
            = Some (MatcherEngine.finish (anon_engine e)).2).
    by rewrite anon_finish_trades. }
  by rewrite (H orders), (H orders'), E.
Qed.

Lemma accounts_do_not_matter_witness :
  snd <$> ProcessOrderService.process
            [mkRawOrder CREATE "7" "5" "1" "X" "10" SELL;
             mkRawOrder CREATE "7" "3" "2" "X" "10" BUY]
  = snd <$> ProcessOrderService.process
              [mkRawOrder CREATE "7" "5" "1" "X" "10" SELL;
               mkRawOrder CREATE "8" "3" "2" "X" "10" BUY].
Proof. apply accounts_do_not_matter. reflexivity. Defined.

(** ** How far an incoming order is filled *)

Lemma priceOK_accepts incoming y :
  OrderBook.priceOK incoming y = accepts (o_side incoming) (o_price incoming) y.
Proof. reflexivity. Qed.

Lemma liquidity_nonneg s p h :
  Forall (fun o => Big.gt (o_remaining o) Big.zero = true) h ->
  (0 <= liquidity_in s p h)%Q.
Proof.
  induction h as [|y h IH]; intros Hall; simpl; [lra|].
  apply Forall_cons in Hall as [Hy Hall]. specialize (IH Hall).
  destruct (accepts s p y); big_prop; lra.
Qed.

Lemma liquidity_none s p h :
  Forall (fun y => accepts s p y = false) h -> (liquidity_in s p h == 0)%Q.
Proof.
  induction h as [|y h IH]; intros Hall; simpl; [lra|].
  apply Forall_cons in Hall as [Hy Hall]. rewrite Hy, (IH Hall). lra.
Qed.

Lemma accepts_crosses s p y : accepts s p y = true <-> crosses s p (o_price y).
Proof. unfold accepts, crosses. destruct s; split; intros H; big_prop; lra. Qed.

Lemma pass_liquidity incoming b incoming' b' :
  loop_inv incoming b ->
  OrderBook.match_body incoming b = Some (incoming', b') ->
  (Big.toQ (o_remaining incoming')
   - liquidity (o_side incoming) (o_price incoming) b'
   == Big.toQ (o_remaining incoming)
      - liquidity (o_side incoming) (o_price incoming) b)%Q
  /\ (0 <= Big.toQ (o_remaining incoming'))%Q.
Proof.
  intros Hinv Hbody. pose proof (li_wf _ _ Hinv) as Hwf.
  destruct (match_body_Some _ _ _ _ Hbody (wf_bookSide_side _ _ Hwf))
    as (best & rest & Hb & Hgt & Hok & -> & ->).
  unfold liquidity. rewrite after_pass_bookSide, Hb. simpl.
  change (accepts (o_side incoming) (o_price incoming) best)
    with (OrderBook.priceOK incoming best). rewrite Hok.
  pose proof (tradeQty_le incoming best) as Hle.
  pose proof (tradeQty_min incoming best) as Hmin.
  destruct (Big.eq _ _) eqn:Hf; simpl.
  - big_prop. split; lra.
  - change (accepts (o_side incoming) (o_price incoming) (set_remaining best ?r))
      with (OrderBook.priceOK incoming best). rewrite Hok.
    big_prop. split; lra.
Qed.

Lemma end_liquidity incoming b :
  book_wf b ->
  OrderBook.match_body incoming b = None ->
  (0 <= Big.toQ (o_remaining incoming))%Q ->
  ((Big.toQ (o_remaining incoming) == 0)%Q
   /\ (0 <= liquidity (o_side incoming) (o_price incoming) b)%Q)
  \/ (liquidity (o_side incoming) (o_price incoming) b == 0)%Q.
Proof.
  intros Hwf Hnone Hnn.
  destruct (Big.gt (o_remaining incoming) Big.zero) eqn:Hgt.
  - right. apply liquidity_none, Forall_forall. intros y Hy.
    destruct (accepts _ _ y) eqn:Hacc; [|done]. exfalso.
    apply accepts_crosses in Hacc.
    by apply (loop_end_uncrossed _ _ y Hwf Hnone Hgt Hy).
  - left. split; [big_prop; lra|].
    apply liquidity_nonneg. pose proof Hwf as Hg%book_wf_gen.
    destruct Hg as [_ _ _ _ _ _ Hpos]. rewrite Forall_forall in Hpos.
    apply Forall_forall. intros y Hy. apply Hpos.
    apply (elem_of_resting (o_side incoming)). by right.
Qed.

Lemma match_liquidity raw b order b0 :
  book_wf b ->
  OrderBook.start raw b = Some (order, b0) ->
  Big.gte (o_remaining order) Big.zero = true ->
  (Big.toQ (o_remaining (OrderBook.match_ order b0).1)
   == Qmax 0 (Big.toQ (o_remaining order)
              - liquidity (o_side order) (o_price order) b0))%Q
  /\ (liquidity (o_side order) (o_price order) (OrderBook.match_ order b0).2
      == Qmax 0 (liquidity (o_side order) (o_price order) b0
                 - Big.toQ (o_remaining order)))%Q.
Proof.
  intros Hwf Hs Hnn.
  pose proof (start_loop_inv _ _ _ _ Hwf Hs) as Hinv.
  destruct (match_spec order b0 (li_wf _ _ Hinv)) as (n & Hpass & Hend & _).
  destruct (OrderBook.match_ order b0) as [i r]. simpl in *.
  assert (o_side i = o_side order /\ o_price i = o_price order
          /\ (Big.toQ (o_remaining i) - liquidity (o_side order) (o_price order) r
              == Big.toQ (o_remaining order)
                 - liquidity (o_side order) (o_price order) b0)%Q
          /\ (0 <= Big.toQ (o_remaining i))%Q) as (Hside & Hprice & Heq & Hpos).
  { eapply (passes_ind (fun i1 b1 =>
       o_side i1 = o_side order /\ o_price i1 = o_price order
       /\ (Big.toQ (o_remaining i1) - liquidity (o_side order) (o_price order) b1
           == Big.toQ (o_remaining order)
              - liquidity (o_side order) (o_price order) b0)%Q
       /\ (0 <= Big.toQ (o_remaining i1))%Q)); [| exact Hinv | | exact Hpass].
    - intros i1 b1 i2 b2 Hinv1 (Hs1 & Hp1 & He1 & Hn1) Hbody.
      destruct (pass_incoming _ _ _ _ Hbody) as (_ & _ & Es & _ & Ep & _).
      destruct (pass_liquidity _ _ _ _ Hinv1 Hbody) as [He2 Hn2].
      rewrite Hs1, Hp1 in He2.
      split; [congruence|]. split; [congruence|]. split; [lra | done].
    - split; [done|]. split; [done|]. split; [lra|]. big_prop. lra. }
  pose proof (passes_loop_inv _ _ _ _ _ Hinv Hpass) as Hinv'.
  destruct (end_liquidity _ _ (li_wf _ _ Hinv') Hend Hpos) as [[H0 HL] | HL];
    rewrite Hside, Hprice in HL.
  - split.
    + rewrite Q.max_l by lra. lra.
    + rewrite Q.max_r by lra. lra.
  - split.
    + rewrite Q.max_r by lra. lra.
    + rewrite Q.max_l by lra. lra.
Qed.

(** [match] fills the incoming order as far as the book allows and no
    further.  With [L] what the orders of the opposite queue at an accepted
    price have left, an order of amount [a], not negative, leaves [match]
    with [a - L] when that is positive and with nothing otherwise; the
    accepted orders are then left with [L - a], or with nothing. *)
Theorem match_fills_to_liquidity raw b order b0 :
  book_wf b ->
  OrderBook.start raw b = Some (order, b0) ->
  Big.gte (o_remaining order) Big.zero = true ->
  (Big.toQ (o_remaining (OrderBook.match_ order b0).1)
   == Qmax 0 (Big.toQ (o_remaining order)
              - liquidity (o_side order) (o_price order) b0))%Q
  /\ (liquidity (o_side order) (o_price order) (OrderBook.match_ order b0).2
      == Qmax 0 (liquidity (o_side order) (o_price order) b0
                 - Big.toQ (o_remaining order)))%Q.
Proof. apply match_liquidity. Qed.

Lemma match_fills_to_liquidity_witness :
  (Big.toQ (o_remaining
              (OrderBook.match_
                 (mkBookOrder "9" "7" BUY "BTC/USDC" (Big.mk 11 0) (Big.mk 7 0) 3)
                 (OrderBook.next_seq demo_book)).1)
   == Qmax 0 (7 - liquidity BUY (Big.mk 11 0) (OrderBook.next_seq demo_book)))%Q
  /\ (liquidity BUY (Big.mk 11 0)
        (OrderBook.match_
           (mkBookOrder "9" "7" BUY "BTC/USDC" (Big.mk 11 0) (Big.mk 7 0) 3)
           (OrderBook.next_seq demo_book)).2
      == Qmax 0 (liquidity BUY (Big.mk 11 0) (OrderBook.next_seq demo_book) - 7))%Q.
Proof.
  apply (match_fills_to_liquidity (cmd CREATE BUY "9" "11" "7") demo_book);
    [compute_done | reflexivity | reflexivity].
Defined.

(** ** The prices of the trades of one order *)

Lemma not_better_orders s x y :
  match s with
  | BUY => (Big.toQ (o_price x) <= Big.toQ (o_price y))%Q
  | SELL => (Big.toQ (o_price y) <= Big.toQ (o_price x))%Q
  end ->
  forall t1 t2,
    t_price t1 = Big.toString (o_price x) -> t_price t2 = Big.toString (o_price y) ->
    not_better s t1 t2.
Proof.
  intros H t1 t2 E1 E2.
  exists (Big.normalise (o_price x)), (Big.normalise (o_price y)).
  rewrite E1, E2, !of_string_toString.
  pose proof (toQ_normalise (o_price x)). pose proof (toQ_normalise (o_price y)).
  split; [done|]. split; [done|]. destruct s; lra.
Qed.

Lemma top_first s b best rest y :
  book_wf b ->
  OrderBook.bookSide s b = best :: rest -> y ∈ best :: rest ->
  match s with
  | BUY => (Big.toQ (o_price best) <= Big.toQ (o_price y))%Q
  | SELL => (Big.toQ (o_price y) <= Big.toQ (o_price best))%Q
  end.
Proof.
  intros Hwf%book_wf_gen Hb Hy.
  pose proof (wf_sorted _ Hwf (opposite s)) as Hso.
  rewrite own_opposite, Hb in Hso.
  apply StronglySorted_inv in Hso as [_ Hall]. rewrite Forall_forall in Hall.
  apply elem_of_cons in Hy as [-> | Hy].
  - destruct s; apply Qle_refl.
  - specialize (Hall y Hy). apply cmp_of_before in Hall.
    unfold before in Hall. destruct s; simpl in Hall;
      destruct Hall as [Hlt | [Heq _]]; lra.
Qed.

Lemma loop_prices fuel incoming b n incoming' b' :
  loop_inv incoming b ->
  OrderBook.match_loop fuel incoming b = Some (n, incoming', b') ->
  exists new,
    trades b' = trades b ++ new
    /\ Forall (fun t => exists y,
                 y ∈ OrderBook.bookSide (o_side incoming) b
                 /\ t_price t = Big.toString (o_price y)) new
    /\ StronglySorted (not_better (o_side incoming)) new.
Proof.
  revert incoming b n incoming' b'.
  induction fuel as [|fuel IH]; intros incoming b n incoming' b' Hinv; simpl.
  - destruct (OrderBook.match_body incoming b) as [[i1 b1]|]; [done|].
    intros [= <- <- <-]. exists []. rewrite app_nil_r.
    split; [done|]. split; [done | constructor].
  - destruct (OrderBook.match_body incoming b) as [[i1 b1]|] eqn:Hbody.
    2:{ intros [= <- <- <-]. exists []. rewrite app_nil_r.
        split; [done|]. split; [done | constructor]. }
    destruct (OrderBook.match_loop fuel i1 b1) as [[[n1 i2] b2]|] eqn:Hloop; [|done].
    intros [= <- <- <-].
    pose proof (pass_loop_inv _ _ _ _ Hinv Hbody) as Hinv1.
    destruct (IH _ _ _ _ _ Hinv1 Hloop) as (new & Ht & Hfrom & Hso).
    pose proof (li_wf _ _ Hinv) as Hwf.
    destruct (match_body_Some _ _ _ _ Hbody (wf_bookSide_side _ _ Hwf))
      as (best & rest & Hb & _ & _ & Hi1 & Hb1).
    destruct (pass_incoming _ _ _ _ Hbody) as (_ & _ & Eside & _).
    rewrite Eside in Hfrom, Hso.
    assert (Hsub : forall y, y ∈ OrderBook.bookSide (o_side incoming) b1 ->
              exists y0, y0 ∈ best :: rest /\ o_price y = o_price y0).
    { rewrite Hb1, after_pass_bookSide. intros y Hy.
      destruct (Big.eq _ _).
      - exists y. split; [by right | done].
      - apply elem_of_cons in Hy as [-> | Hy].
        + exists best. split; [by left | done].
        + exists y. split; [by right | done]. }
    exists (OrderBook.mkTradeOf (ob_pair b) incoming best :: new).
    split_and!.
    + rewrite Ht, Hb1, after_pass_trades, <- app_assoc. done.
    + apply Forall_cons. split.
      * exists best. split; [rewrite Hb; by left | done].
      * eapply Forall_impl; [exact Hfrom|]. simpl.
        intros t (y & Hy & Hp). destruct (Hsub y Hy) as (y0 & Hy0 & E).
        exists y0. rewrite Hb. split; [done | by rewrite <- E].
    + constructor; [done|].
      eapply Forall_impl; [exact Hfrom|]. simpl.
      intros t (y & Hy & Hp). destruct (Hsub y Hy) as (y0 & Hy0 & E).
      apply (not_better_orders _ best y); [|done|done].
      rewrite E. by apply (top_first _ b best rest).
Qed.

(** An incoming order takes the best prices first: of the trades that one
    CREATE adds, each is at a price no better for the new order than the
    trades before it. *)
Theorem taker_prices_worsen raw b b' :
  book_wf b ->
  type_op raw = CREATE ->
  OrderBook.process raw b = Some b' ->
  exists new,
    trades b' = trades b ++ new
    /\ StronglySorted (not_better (r_side raw)) new.
Proof.
  intros Hwf Hop Hp.
  destruct (process_start _ _ _ Hop Hp) as (order & Hs).
  destruct (start_order _ _ _ _ Hs) as (_ & _ & Hside & _).
  pose proof (start_loop_inv _ _ _ _ Hwf Hs) as Hinv.
  rewrite (process_create _ _ _ _ Hs) in Hp. injection Hp as <-.
  destruct (match_loop_run order _ (li_wf _ _ Hinv)) as (n & Hloop).
  destruct (loop_prices _ _ _ _ _ _ Hinv Hloop) as (new & Ht & _ & Hso).
  exists new. rewrite <- Hside. split; [|done].
  destruct (Big.gt _ _); [by rewrite add_trades | done].
Qed.

Lemma taker_prices_worsen_witness :
  exists new,
    trades (default demo_book
              (OrderBook.process (cmd CREATE BUY "9" "11" "7") demo_book))
    = trades demo_book ++ new
    /\ StronglySorted (not_better BUY) new.
Proof.
  apply (taker_prices_worsen (cmd CREATE BUY "9" "11" "7") demo_book);
    [compute_done | reflexivity | reflexivity].
Defined.

(** ** What a CREATE comes to *)

Lemma loop_volume fuel incoming b n incoming' b' :
  loop_inv incoming b ->
  OrderBook.match_loop fuel incoming b = Some (n, incoming', b') ->
  exists new,
    trades b' = trades b ++ new
    /\ (volume new
        == Big.toQ (o_remaining incoming) - Big.toQ (o_remaining incoming'))%Q.
Proof.
  revert incoming b n incoming' b'.
  induction fuel as [|fuel IH]; intros incoming b n incoming' b' Hinv; simpl.
  - destruct (OrderBook.match_body incoming b) as [[i1 b1]|]; [done|].
    intros [= <- <- <-]. exists []. rewrite app_nil_r. split; [done | simpl; lra].
  - destruct (OrderBook.match_body incoming b) as [[i1 b1]|] eqn:Hbody.
    2:{ intros [= <- <- <-]. exists []. rewrite app_nil_r.
        split; [done | simpl; lra]. }
    destruct (OrderBook.match_loop fuel i1 b1) as [[[n1 i2] b2]|] eqn:Hloop; [|done].
    intros [= <- <- <-].
    pose proof (pass_loop_inv _ _ _ _ Hinv Hbody) as Hinv1.
    destruct (IH _ _ _ _ _ Hinv1 Hloop) as (new & Ht & Hv).
    destruct (match_body_Some _ _ _ _ Hbody
                (wf_bookSide_side _ _ (li_wf _ _ Hinv)))
      as (best & rest & Hb & _ & _ & Hi1 & Hb1).
    exists (OrderBook.mkTradeOf (ob_pair b) incoming best :: new). split.
    + rewrite Ht, Hb1, after_pass_trades, <- app_assoc. done.
    + simpl. rewrite Hv, amount_of_trade, Hi1. simpl. rewrite toQ_minus. lra.
Qed.

(** What a CREATE of a non-negative amount [a] comes to on a well-formed
    book that offers [L] at the prices it accepts: the trades it adds sum to
    the smaller of [a] and [L]; when [a] is not more than [L] the order does
    not rest; otherwise it rests in the queue of its side with [a - L] left
    and the index holds it under its id. *)
Theorem create_outcome raw b order b0 :
  book_wf b ->
  OrderBook.start raw b = Some (order, b0) ->
  Big.gte (o_remaining order) Big.zero = true ->
  exists b' new,
    OrderBook.process raw b = Some b'
    /\ trades b' = trades b ++ new
    /\ (volume new
        == Qmin (Big.toQ (o_remaining order))
                (liquidity (o_side order) (o_price order) b0))%Q
    /\ ((Big.toQ (o_remaining order)
         <= liquidity (o_side order) (o_price order) b0)%Q ->
        forall x, x ∈ resting b' -> o_ts x <> o_ts order)
    /\ ((liquidity (o_side order) (o_price order) b0
         < Big.toQ (o_remaining order))%Q ->
        exists x,
          x ∈ own (o_side order) b'
          /\ o_ts x = o_ts order /\ o_id x = o_id order
          /\ (Big.toQ (o_remaining x)
              == Big.toQ (o_remaining order)
                 - liquidity (o_side order) (o_price order) b0)%Q
          /\ idIndex b' !! o_id order = Some (o_ts order)).
Proof.
  intros Hwf Hs Hnn.
  pose proof (start_loop_inv _ _ _ _ Hwf Hs) as Hinv.
  destruct (match_liquidity _ _ _ _ Hwf Hs Hnn) as [Hrem _].
  destruct (match_loop_run order b0 (li_wf _ _ Hinv)) as (n & Hloop).
  destruct (loop_volume _ _ _ _ _ _ Hinv Hloop) as (new & Ht & Hv).
  destruct (match_loop_passes _ _ _ _ _ _ Hloop) as [Hpass _].
  pose proof (passes_loop_inv _ _ _ _ _ Hinv Hpass) as Hinv'.
  destruct (passes_incoming _ _ _ _ _ Hpass) as (Eid & _ & Eside & _ & _ & Ets).
  rewrite (process_create _ _ _ _ Hs).
  destruct (OrderBook.match_ order b0) as [i r]. simpl in *.
  assert (trades b0 = trades b) as Etr.
  { by destruct (start_order _ _ _ _ Hs) as (_ & _ & _ & _ & _ & _ & _ & _ & ->). }
  rewrite Etr in Ht.
  set (a := Big.toQ (o_remaining order)) in *.
  set (L := liquidity (o_side order) (o_price order) b0) in *.
  destruct (Qlt_le_dec L a) as [Hlt | Hle].
  - rewrite Q.max_r in Hrem by lra.
    assert (Big.gt (o_remaining i) Big.zero = true) as -> by (big_prop; lra).
    exists (OrderBook.add i r), new. split_and!.
    + done.
    + by rewrite add_trades.
    + rewrite Q.min_r by lra. lra.
    + intros Hle. lra.
    + intros _. exists i. split_and!; try done.
      * rewrite add_own, Eside, decide_True by done. apply elem_of_push. by left.
      * unfold OrderBook.add. rewrite <- Eid, <- Ets.
        destruct (o_side i); simpl; apply lookup_insert_eq.
  - rewrite Q.max_l in Hrem by lra.
    assert (Big.gt (o_remaining i) Big.zero = false) as -> by (big_prop; lra).
    exists r, new. split_and!.
    + done.
    + done.
    + rewrite Q.min_l by lra. lra.
    + intros _ x Hx. pose proof (li_ts _ _ Hinv') as Hts.
      rewrite Forall_forall in Hts. specialize (Hts x Hx). lia.
    + intros Hlt. lra.
Qed.

Lemma create_outcome_witness :
  exists b' new,
    OrderBook.process (cmd CREATE BUY "9" "11" "7") demo_book = Some b'
    /\ trades b' = trades demo_book ++ new
    /\ (volume new
        == Qmin 7 (liquidity BUY (Big.mk 11 0) (OrderBook.next_seq demo_book)))%Q
    /\ ((7 <= liquidity BUY (Big.mk 11 0) (OrderBook.next_seq demo_book))%Q ->
        forall x, x ∈ resting b' -> o_ts x <> 3%nat)
    /\ ((liquidity BUY (Big.mk 11 0) (OrderBook.next_seq demo_book) < 7)%Q ->
        exists x,
          x ∈ own BUY b'
          /\ o_ts x = 3%nat /\ o_id x = "9"%string
          /\ (Big.toQ (o_remaining x)
              == 7 - liquidity BUY (Big.mk 11 0) (OrderBook.next_seq demo_book))%Q
          /\ idIndex b' !! "9"%string = Some 3%nat).
Proof.
  apply (create_outcome (cmd CREATE BUY "9" "11" "7") demo_book
           (mkBookOrder "9" "7" BUY "BTC/USDC" (Big.mk 11 0) (Big.mk 7 0) 3));
    [compute_done | reflexivity | reflexivity].
Defined.

